(** * Portfolio behaviour layer (script.js): a shallow embedding

    The page script is a set of event listeners and timer callbacks over
    the DOM.  Each component is embedded as pure functions over an explicit
    record of the state it reads and writes:

    - strings are sequences of UTF-16 code units ([list Z]), as in
      JavaScript, so that [trim] and the regular expression class [\s] see
      the same characters as the engine does;
    - numbers are IEEE-754 binary64 values ([spec_float] with 53 bits of
      precision), with the same rounding as the engine's doubles;
    - [setTimeout]/[setInterval] become entries of an explicit timer queue
      ordered by due time. *)

From Stdlib Require Import ZArith Lia List Bool String Ascii.
From Stdlib Require Import Floats.SpecFloat Floats.FloatOps.
From stdpp Require Import base decidable option list gmap.
Import ListNotations.

Local Open Scope Z_scope.

(** ** JavaScript strings *)

Abbreviation jsstring := (list Z).

(** An ASCII literal as a sequence of code units. *)
Definition js (s : string) : jsstring :=
  List.map (fun a => Z.of_N (N_of_ascii a)) (list_ascii_of_string s).
Arguments js : simpl never.

Module JsString.

(** [WhiteSpace] and [LineTerminator] of ECMAScript: what
    [String.prototype.trim] strips and what [\s] matches. *)
Definition is_whitespace (c : Z) : bool :=
  (c =? 9) || (c =? 10) || (c =? 11) || (c =? 12) || (c =? 13) ||
  (c =? 32) || (c =? 160) || (c =? 5760) ||
  ((8192 <=? c) && (c <=? 8202)) ||
  (c =? 8232) || (c =? 8233) || (c =? 8239) || (c =? 8287) ||
  (c =? 12288) || (c =? 65279).

Fixpoint trimStart (s : jsstring) : jsstring :=
  match s with
  | c :: r => if is_whitespace c then trimStart r else s
  | [] => []
  end.

Definition trimEnd (s : jsstring) : jsstring := rev (trimStart (rev s)).

Definition trim (s : jsstring) : jsstring := trimEnd (trimStart s).

(** [s.includes(c)] for a one-character needle. *)
Definition includes (s : jsstring) (c : Z) : bool := existsb (Z.eqb c) s.

(** [s.substring(0, e)]: a negative end index counts as 0 and an index
    past the end as the length. *)
Definition substring0 (s : jsstring) (e : Z) : jsstring :=
  firstn (Z.to_nat e) s.

(** The truthiness of a string: only the empty string is falsy. *)
Definition truthy (s : jsstring) : bool :=
  match s with [] => false | _ => true end.

Definition eqb (a b : jsstring) : bool := bool_decide (a = b).

(** [s] ends in a non-empty run without a plus sign. *)
Definition plain_end (s : jsstring) : Prop :=
  exists p q, s = p ++ q /\ q <> [] /\ Forall (fun c => c <> 43) q.

End JsString.

(** ** JavaScript numbers

    A Number is a binary64 value.  Arithmetic is the correctly rounded
    arithmetic of [SpecFloat]; conversions from and to decimal text go
    through exact integer arithmetic. *)

Abbreviation number := spec_float.

Module JsNumber.

Definition NaN : number := S754_nan.
Definition pos_zero : number := S754_zero false.

Definition add (x y : number) : number := SFadd prec emax x y.
Definition div (x y : number) : number := SFdiv prec emax x y.
Definition mul (x y : number) : number := SFmul prec emax x y.
(** [x >= y] and [x > y] *)
Definition ge (x y : number) : bool := SFleb y x.
Definition gt (x y : number) : bool := SFltb y x.
Definition isNaN (x : number) : bool :=
  match x with S754_nan => true | _ => false end.

(** The Number value of an integer. *)
Definition of_Z (z : Z) : number := binary_normalize prec emax z 0 false.

(** The Number value nearest to [p / q] (ties to even), for [0 <= p] and
    [0 < q]; [neg] is the sign.  The quotient is taken with enough extra
    bits that the remainder only decides the rounding direction. *)
Definition nearest (neg : bool) (p q : Z) : number :=
  if p =? 0 then S754_zero neg
  else
    let k := Z.max 0 (Z.log2 q + 64 - Z.log2 p) in
    let '(m, r) := Z.div_eucl (p * 2 ^ k) q in
    binary_round_aux prec emax neg m (- k) (new_location q r).

(** [Math.floor] *)
Definition floor (x : number) : number :=
  match x with
  | S754_finite s m e =>
      if 0 <=? e then x
      else
        let z := (if s then Z.neg m else Z.pos m) / 2 ^ (- e) in
        if z =? 0 then S754_zero s else of_Z z
  | _ => x
  end.

(** The integer a Number denotes, when it denotes one (an array index). *)
Definition integer (x : number) : option Z :=
  match x with
  | S754_zero _ => Some 0
  | S754_finite s m e =>
      if 0 <=? e then Some ((if s then Z.neg m else Z.pos m) * 2 ^ e)
      else if Z.pos m mod 2 ^ (- e) =? 0
           then Some ((if s then Z.neg m else Z.pos m) / 2 ^ (- e))
           else None
  | _ => None
  end.

(** *** Decimal digits *)

Definition digit_char (d : Z) : Z := 48 + d.

Fixpoint digits_acc (fuel : nat) (n : Z) (acc : jsstring) : jsstring :=
  let acc' := digit_char (n mod 10) :: acc in
  match fuel with
  | O => acc'
  | S f => if n <? 10 then acc' else digits_acc f (n / 10) acc'
  end.

(** The decimal representation of a natural number, most significant
    digit first. *)
Definition decimal (n : Z) : jsstring :=
  digits_acc (Z.to_nat (Z.log2 n)) n [].

Definition zeros (n : Z) : jsstring := repeat 48 (Z.to_nat n).

(** *** Number::toString

    The digits are the shortest decimal that reads back as the number,
    the nearest to it among those of that length.  Below, [x = p / q > 0]
    and [decimal_exponent] is the [n] with [10^(n-1) <= x < 10^n]. *)

Fixpoint scale_up (fuel : nat) (p q : Z) (j : Z) : Z :=
  match fuel with
  | O => j
  | S f => if q <=? p then j else scale_up f (p * 10) q (j + 1)
  end.

Definition decimal_exponent (p q : Z) : Z :=
  if q <=? p then Z.of_nat (length (decimal (p / q)))
  else 1 - scale_up (Z.to_nat (Z.log2 q) + 1) p q 0.

(** [x * 10^(-d)] as a fraction. *)
Definition scaled (p q d : Z) : Z * Z :=
  if 0 <=? d then (p, q * 10 ^ d) else (p * 10 ^ (- d), q).

(** [s * 10^d] as a fraction. *)
Definition unscaled (s d : Z) : Z * Z :=
  if 0 <=? d then (s * 10 ^ d, 1) else (s, 10 ^ (- d)).

(** Does the decimal [s * 10^d] read back as [x]? *)
Definition reads_back (x : number) (s d : Z) : bool :=
  let '(a, b) := unscaled s d in
  SFeqb (nearest false a b) x.

(** The [k]-digit candidate for [x = p/q] with decimal exponent [n]:
    the multiple of [10^(n-k)] nearest to [x] that reads back as [x]
    (the even one on a tie). *)
Definition candidate (x : number) (p q n k : Z) : option Z :=
  let d := n - k in
  let '(a, b) := scaled p q d in
  let '(lo, r) := Z.div_eucl a b in
  let hi := lo + 1 in
  let lo_ok := (10 ^ (k - 1) <=? lo) && reads_back x lo d in
  let hi_ok := reads_back x hi d in
  match lo_ok, hi_ok with
  | true, true =>
      match 2 * r ?= b with
      | Lt => Some lo
      | Gt => Some hi
      | Eq => Some (if Z.even lo then lo else hi)
      end
  | true, false => Some lo
  | false, true => Some hi
  | false, false => None
  end.

(** The shortest digit string: the least [k] with a candidate. *)
Fixpoint shortest (fuel : nat) (x : number) (p q n k : Z) : Z * Z :=
  match candidate x p q n k with
  | Some s => (s, k)
  | None =>
      match fuel with
      | O => (fst (Z.div_eucl (fst (scaled p q (n - k))) (snd (scaled p q (n - k)))), k)
      | S f => shortest f x p q n (k + 1)
      end
  end.

(** The fraction [p/q] of a positive finite number [m * 2^e]. *)
Definition fraction (m : positive) (e : Z) : Z * Z :=
  if 0 <=? e then (Z.pos m * 2 ^ e, 1) else (Z.pos m, 2 ^ (- e)).

Definition exponent_text (e : Z) : jsstring :=
  (if e <? 0 then js "-" else js "+") ++ decimal (Z.abs e).

(** Number::toString for a positive finite number. *)
Definition positive_toString (m : positive) (e : Z) : jsstring :=
  let x := S754_finite false m e in
  let '(p, q) := fraction m e in
  let n0 := decimal_exponent p q in
  let '(s0, k) := shortest 20 x p q n0 1 in
  (* a candidate rounded up to 10^k has one digit more *)
  let '(s, n) := if s0 =? 10 ^ k then (10 ^ (k - 1), n0 + 1) else (s0, n0) in
  let ds := decimal s in
  if (k <=? n) && (n <=? 21) then ds ++ zeros (n - k)
  else if (0 <? n) && (n <=? 21) then
    firstn (Z.to_nat n) ds ++ js "." ++ skipn (Z.to_nat n) ds
  else if (-6 <? n) && (n <=? 0) then js "0." ++ zeros (- n) ++ ds
  else if k =? 1 then ds ++ js "e" ++ exponent_text (n - 1)
  else firstn 1 ds ++ js "." ++ skipn 1 ds ++ js "e" ++ exponent_text (n - 1).

Definition toString (x : number) : jsstring :=
  match x with
  | S754_nan => js "NaN"
  | S754_zero _ => js "0"
  | S754_infinity s => (if s then js "-" else []) ++ js "Infinity"
  | S754_finite s m e => (if s then js "-" else []) ++ positive_toString m e
  end.

(** *** Number.prototype.toFixed(f) *)

Definition toFixed (x : number) (f : Z) : jsstring :=
  match x with
  | S754_nan | S754_infinity _ => toString x
  | S754_zero _ => js "0" ++ (if f =? 0 then [] else js "." ++ zeros f)
  | S754_finite s m e =>
      let sign := if s then js "-" else [] in
      let '(p, q) := fraction m e in
      if 10 ^ 21 * q <=? p then sign ++ positive_toString m e
      else
        (* the integer n with n / 10^f nearest to x, the larger on a tie *)
        let n := (2 * p * 10 ^ f + q) / (2 * q) in
        let ds := if n =? 0 then js "0" else decimal n in
        let k := Z.of_nat (length ds) in
        let ds := if k <=? f then zeros (f + 1 - k) ++ ds else ds in
        let k := Z.of_nat (length ds) in
        sign ++
        (if f =? 0 then ds
         else firstn (Z.to_nat (k - f)) ds ++ js "." ++ skipn (Z.to_nat (k - f)) ds)
  end.

(** *** parseFloat

    The longest prefix that is a [StrDecimalLiteral] is read, after the
    leading white space; the value is the Number nearest to the decimal
    (ties to even), as the engines compute it; [NaN] when there is no such
    prefix. *)

Definition is_digit (c : Z) : bool := (48 <=? c) && (c <=? 57).

Fixpoint span_digits (s : jsstring) : jsstring * jsstring :=
  match s with
  | c :: r =>
      if is_digit c then let '(d, t) := span_digits r in (c :: d, t)
      else ([], s)
  | [] => ([], [])
  end.

(** The value of a digit string, read after the digits of [acc]. *)
Fixpoint digits_value (acc : Z) (d : jsstring) : Z :=
  match d with
  | c :: r => digits_value (10 * acc + (c - 48)) r
  | [] => acc
  end.

(** [ExponentPart], when one is present in full. *)
Definition exponent_part (s : jsstring) : Z :=
  match s with
  | c :: r =>
      if (c =? 101) || (c =? 69) then
        let '(neg, r') :=
          match r with
          | 45 :: t => (true, t)
          | 43 :: t => (false, t)
          | _ => (false, r)
          end in
        match fst (span_digits r') with
        | [] => 0
        | d => if neg then - digits_value 0 d else digits_value 0 d
        end
      else 0
  | [] => 0
  end.

Definition starts_with (pre s : jsstring) : bool :=
  JsString.eqb (firstn (length pre) s) pre.

(** The number with digits [d] (integer and fraction digits together),
    [fl] of them after the point, and decimal exponent [ex]. *)
Definition decimal_value (neg : bool) (d : Z) (fl ex : Z) : number :=
  let sh := ex - fl in
  if 0 <=? sh then nearest neg (d * 10 ^ sh) 1 else nearest neg d (10 ^ (- sh)).

Definition parseUnsigned (neg : bool) (s : jsstring) : number :=
  if starts_with (js "Infinity") s then S754_infinity neg
  else
    let '(ip, r) := span_digits s in
    match ip, r with
    | [], 46 :: r' =>
        match span_digits r' with
        | ([], _) => NaN
        | (fp, t) =>
            decimal_value neg (digits_value 0 fp) (Z.of_nat (length fp)) (exponent_part t)
        end
    | [], _ => NaN
    | _, 46 :: r' =>
        let '(fp, t) := span_digits r' in
        decimal_value neg (digits_value (digits_value 0 ip) fp)
                      (Z.of_nat (length fp)) (exponent_part t)
    | _, _ => decimal_value neg (digits_value 0 ip) 0 (exponent_part r)
    end.

Definition parseFloat (s : jsstring) : number :=
  match JsString.trimStart s with
  | 45 :: r => parseUnsigned true r
  | 43 :: r => parseUnsigned false r
  | t => parseUnsigned false t
  end.

End JsNumber.

(** ** Timers

    [setTimeout] and [setInterval] put a callback in a queue; the event
    loop runs the pending callback with the least due time, the one
    registered first among equals.  Callbacks are first-order: each
    component names its closures with a constructor of its callback
    type. *)

Module Timers.
Section Queue.
Context {A : Type}.

Record timer := mkTimer {
  handle : nat;
  due : Z;
  every : option Z;      (* the period of a [setInterval] *)
  callback : A
}.

Record queue := mkQueue {
  now : Z;
  next_handle : nat;
  pending : list timer
}.

Definition empty (t : Z) : queue := mkQueue t 1 [].

Definition setTimeout (cb : A) (delay : Z) (q : queue) : nat * queue :=
  (next_handle q,
   mkQueue (now q) (S (next_handle q))
           (pending q ++ [mkTimer (next_handle q) (now q + Z.max 0 delay) None cb])).

Definition setInterval (cb : A) (delay : Z) (q : queue) : nat * queue :=
  (next_handle q,
   mkQueue (now q) (S (next_handle q))
           (pending q ++ [mkTimer (next_handle q) (now q + Z.max 0 delay)
                                  (Some (Z.max 0 delay)) cb])).

(** [clearTimeout] and [clearInterval] *)
Definition clear (h : nat) (q : queue) : queue :=
  mkQueue (now q) (next_handle q)
          (List.filter (fun t => negb (Nat.eqb (handle t) h)) (pending q)).

(** The pending timer that runs next, the first of those with the least
    due time, and the timers left. *)
Fixpoint extract (l : list timer) : option (timer * list timer) :=
  match l with
  | [] => None
  | t :: r =>
      match extract r with
      | Some (u, r') => if due u <? due t then Some (u, t :: r') else Some (t, r)
      | None => Some (t, r)
      end
  end.

(** Take the next timer out of the queue, moving the clock to its due
    time; an interval timer is put back one period later. *)
Definition take (q : queue) : option (timer * queue) :=
  match extract (pending q) with
  | None => None
  | Some (t, rest) =>
      let rest' :=
        match every t with
        | Some p => rest ++ [mkTimer (handle t) (due t + p) (Some p) (callback t)]
        | None => rest
        end in
      Some (t, mkQueue (Z.max (now q) (due t)) (next_handle q) rest')
  end.

(** Let the clock reach [t] (a user event arrives at that time). *)
Definition at_time (t : Z) (q : queue) : queue :=
  mkQueue (Z.max (now q) t) (next_handle q) (pending q).

End Queue.
Arguments timer : clear implicits.
Arguments queue : clear implicits.
End Timers.

(** ** Theme system *)

Module Theme.

(** What the script reads at start-up: the stored preference
    ([localStorage.getItem('theme')], [None] for [null]), the OS
    preference ([window.matchMedia], [None] when absent, else whether
    [(prefers-color-scheme: dark)] matches), and the switch element with
    the transform of its thumb ([None] when it has no [.switch-thumb]). *)
Record page := mkPage {
  stored : option jsstring;
  os_dark : option bool;
  themeSwitcher : option (option jsstring);
  currentTheme : jsstring;
  data_theme : option jsstring;       (* attribute of the document root *)
  click_listeners : nat;              (* [toggleTheme] on the switch *)
  media_listeners : nat               (* [handleSystemThemeChange] *)
}.

(** A call either returns or throws a [TypeError], in a given state. *)
Inductive completion := Normal (p : page) | Throw (p : page).

Definition state (c : completion) : page :=
  match c with Normal p | Throw p => p end.

(** [a || b] on a nullable string. *)
Definition or_else (a : option jsstring) (b : jsstring) : jsstring :=
  match a with
  | Some s => if JsString.truthy s then s else b
  | None => b
  end.

(** The page before the script runs. *)
Definition fresh (st : option jsstring) (os : option bool)
           (sw : option (option jsstring)) : page :=
  mkPage st os sw [] None 0 0.

(** [let currentTheme = localStorage.getItem('theme') || 'dark';] *)
Definition load (p : page) : page :=
  mkPage (stored p) (os_dark p) (themeSwitcher p)
         (or_else (stored p) (js "dark"))
         (data_theme p) (click_listeners p) (media_listeners p).

Definition setAttribute (v : jsstring) (p : page) : page :=
  mkPage (stored p) (os_dark p) (themeSwitcher p) (currentTheme p)
         (Some v) (click_listeners p) (media_listeners p).

Definition updateThemeSwitcher (p : page) : completion :=
  match themeSwitcher p with
  | None => Normal p
  | Some None => Throw p
  | Some (Some _) =>
      let t := if JsString.eqb (currentTheme p) (js "dark")
               then js "translateX(30px)" else js "translateX(0)" in
      Normal (mkPage (stored p) (os_dark p) (Some (Some t)) (currentTheme p)
                     (data_theme p) (click_listeners p) (media_listeners p))
  end.

Definition initializeTheme (p : page) : completion :=
  let p := setAttribute (currentTheme p) p in
  match updateThemeSwitcher p with
  | Throw p => Throw p
  | Normal p =>
      let p := match themeSwitcher p with
               | Some _ =>
                   mkPage (stored p) (os_dark p) (themeSwitcher p) (currentTheme p)
                          (data_theme p) (S (click_listeners p)) (media_listeners p)
               | None => p
               end in
      Normal (match os_dark p with
              | Some _ =>
                  mkPage (stored p) (os_dark p) (themeSwitcher p) (currentTheme p)
                         (data_theme p) (click_listeners p) (S (media_listeners p))
              | None => p
              end)
  end.

(** The [change] listener of the media query; [matches] is [e.matches]. *)
Definition handleSystemThemeChange (matches : bool) (p : page) : completion :=
  match stored p with
  | Some (_ :: _) => Normal p
  | _ =>
      let p := mkPage (stored p) (Some matches) (themeSwitcher p)
                      (if matches then js "dark" else js "light")
                      (data_theme p) (click_listeners p) (media_listeners p) in
      updateThemeSwitcher (setAttribute (currentTheme p) p)
  end.

(** Start-up: the script is loaded, then [initializeTheme] runs. *)
Definition startup (st : option jsstring) (os : option bool)
           (sw : option (option jsstring)) : completion :=
  initializeTheme (load (fresh st os sw)).

(** The precedence of the specification: the stored value, else the OS
    preference, else dark. *)
Definition spec_theme (st : option jsstring) (os : option bool) : jsstring :=
  match st with
  | Some s => s
  | None =>
      match os with
      | Some true => js "dark"
      | Some false => js "light"
      | None => js "dark"
      end
  end.

End Theme.


(** ** Matrix background *)

Module Matrix.

(** The glyph alphabet: the digits 0 and 1 and 46 katakana. *)
Definition characters : jsstring :=
  [48; 49; 12450; 12452; 12454; 12456; 12458; 12459; 12461; 12463; 12465;
   12467; 12469; 12471; 12473; 12475; 12477; 12479; 12481; 12484; 12486;
   12488; 12490; 12491; 12492; 12493; 12494; 12495; 12498; 12501; 12504;
   12507; 12510; 12511; 12512; 12513; 12514; 12516; 12518; 12520; 12521;
   12522; 12523; 12524; 12525; 12527; 12530; 12531].

(** The closures handed to the timer functions. *)
Inductive callback := DrawMatrix | ResizeLater.

(** One [ctx.fillText(text, x, y)]; [text] is [None] for [undefined]. *)
Record glyph := mkGlyph { g_text : option Z; g_x : Z; g_y : Z }.

Record state := mkState {
  innerWidth : Z;                       (* window.innerWidth *)
  innerHeight : Z;
  canvas_width : Z;
  canvas_height : Z;
  drops : list Z;
  painted : list glyph;                 (* the last frame's glyphs *)
  random : nat -> number;               (* what Math.random() returns *)
  drawn : nat;                          (* how many values were taken *)
  resize_timeout : option nat;          (* [timeout] of the debounce closure *)
  timers : Timers.queue callback
}.

Definition with_timers (q : Timers.queue callback) (s : state) : state :=
  mkState (innerWidth s) (innerHeight s) (canvas_width s) (canvas_height s)
          (drops s) (painted s) (random s) (drawn s) (resize_timeout s) q.

(** [canvas.width = window.innerWidth; canvas.height = window.innerHeight] *)
Definition resizeCanvas (s : state) : state :=
  mkState (innerWidth s) (innerHeight s) (innerWidth s) (innerHeight s)
          (drops s) (painted s) (random s) (drawn s) (resize_timeout s) (timers s).

(** [Math.floor(canvas.width / 20)] on a non-negative integer width. *)
Definition columns_of (width : Z) : Z := width / 20.

(** The body of the [for] loop of [drawMatrix], column [i] holding [d];
    [k] counts the random values taken so far. *)
Definition draw_column (height : Z) (rnd : nat -> number) (k : nat) (i d : Z)
  : glyph * Z * nat :=
  let ix := JsNumber.floor (JsNumber.mul (rnd k)
                              (JsNumber.of_Z (Z.of_nat (length characters)))) in
  let text := match JsNumber.integer ix with
              | Some z => if z <? 0 then None else characters !! Z.to_nat z
              | None => None
              end in
  let g := mkGlyph text (i * 20) (d * 20) in
  let k := S k in
  if height <? d * 20 then
    if JsNumber.gt (rnd k) (JsNumber.nearest false 975 1000)
    then (g, 0 + 1, S k)
    else (g, d + 1, S k)
  else (g, d + 1, k).

Fixpoint draw_columns (height : Z) (rnd : nat -> number) (k : nat) (i : Z)
         (ds : list Z) : list glyph * list Z * nat :=
  match ds with
  | [] => ([], [], k)
  | d :: r =>
      let '(g, d', k') := draw_column height rnd k i d in
      let '(gs, r', k'') := draw_columns height rnd k' (i + 1) r in
      (g :: gs, d' :: r', k'')
  end.

Definition drawMatrix (s : state) : state :=
  let '(gs, ds, k) :=
    draw_columns (canvas_height s) (random s) (drawn s) 0 (drops s) in
  mkState (innerWidth s) (innerHeight s) (canvas_width s) (canvas_height s)
          ds gs (random s) k (resize_timeout s) (timers s).

(** The function returned by [debounce(resizeCanvas, 250)]: any pending
    call is cancelled and a new one is due 250 ms later. *)
Definition debounced_resize (s : state) : state :=
  let q := match resize_timeout s with
           | Some h => Timers.clear h (timers s)
           | None => timers s
           end in
  let '(h, q) := Timers.setTimeout ResizeLater 250 q in
  mkState (innerWidth s) (innerHeight s) (canvas_width s) (canvas_height s)
          (drops s) (painted s) (random s) (drawn s) (Some h) q.

(** [later] of the debounce closure: [timeout = null; func()]. *)
Definition later (s : state) : state :=
  resizeCanvas
    (mkState (innerWidth s) (innerHeight s) (canvas_width s) (canvas_height s)
             (drops s) (painted s) (random s) (drawn s) None (timers s)).

(** [initializeMatrixBackground] on a page that has the [matrix-bg]
    element, in a window of [w] by [h] pixels at time [t]. *)
Definition initializeMatrixBackground (t w h : Z) (rnd : nat -> number) : state :=
  let s := resizeCanvas (mkState w h 300 150 [] [] rnd 0 None (Timers.empty t)) in
  let columns := columns_of (canvas_width s) in
  let ds := repeat 0 (Z.to_nat columns) in
  let '(_, q) := Timers.setInterval DrawMatrix 50 (timers s) in
  mkState (innerWidth s) (innerHeight s) (canvas_width s) (canvas_height s)
          ds [] rnd 0 None q.

Definition fire (cb : callback) (s : state) : state :=
  match cb with
  | DrawMatrix => drawMatrix s
  | ResizeLater => later s
  end.

(** The window is resized to [w] by [h] at time [t]. *)
Definition on_resize (t w h : Z) (s : state) : state :=
  debounced_resize
    (mkState w h (canvas_width s) (canvas_height s) (drops s) (painted s)
             (random s) (drawn s) (resize_timeout s)
             (Timers.at_time t (timers s))).

(** No pending timer is due before [t]. *)
Definition quiet_until (t : Z) (s : state) : bool :=
  forallb (fun tm => t <=? Timers.due tm) (Timers.pending (timers s)).

(** One turn of the event loop: the next timer runs, or the user resizes
    the window. *)
Inductive step : state -> state -> Prop :=
| step_timer s tm q :
    Timers.take (timers s) = Some (tm, q) ->
    step s (fire (Timers.callback tm) (with_timers q s))
| step_resize s t w h :
    Timers.now (timers s) <= t -> quiet_until t s = true ->
    0 <= w -> 0 <= h ->
    step s (on_resize t w h s).

(** The states the page can be in, for a window first [w] by [h]. *)
Definition reachable (t w h : Z) (rnd : nat -> number) (s : state) : Prop :=
  rtc step (initializeMatrixBackground t w h rnd) s.

(** The invariant of the specification. *)
Definition columns_match_width (s : state) : Prop :=
  Z.of_nat (length (drops s)) = columns_of (canvas_width s).

(** Run the next [n] timers. *)
Fixpoint run (n : nat) (s : state) : state :=
  match n with
  | O => s
  | S k =>
      match Timers.take (timers s) with
      | Some (tm, q) => run k (fire (Timers.callback tm) (with_timers q s))
      | None => s
      end
  end.

(** A window of 400 by 300 pixels, made 800 by 600 after 10 ms; the
    debounced [resizeCanvas] runs at 260 ms, after five frames. *)
Definition half : number := JsNumber.nearest false 1 2.
Definition widened : state :=
  run 6 (on_resize 10 800 600 (initializeMatrixBackground 0 400 300 (fun _ => half))).

End Matrix.


(** ** Typing animation *)

Module Typing.

(** The playlist of [initializeTypingAnimation]. *)
Definition texts : list jsstring :=
  [js "Full-Stack Developer"; js "React.js Developer"; js "UI/UX Designer";
   js "Problem Solver"; js "Computer Science Student"].

(** The variables [typeText] closes over. *)
Record closure := mkClosure {
  textIndex : nat;
  charIndex : Z;
  isDeleting : bool
}.

(** What one call of [typeText] does: the text it shows, the variables it
    leaves, and the delay of the [setTimeout] it ends with. *)
Record tick := mkTick {
  shown : jsstring;
  next : closure;
  typeSpeed : Z
}.

Section Playlist.
Variable playlist : list jsstring.

(** [typeText]; [None] is the [TypeError] of reading [substring] of
    [undefined], when [textIndex] is not an index of the playlist. *)
Definition typeText (c : closure) : option tick :=
  match playlist !! textIndex c with
  | None => None
  | Some currentText =>
      let '(text, ci) :=
        if isDeleting c
        then (JsString.substring0 currentText (charIndex c - 1), charIndex c - 1)
        else (JsString.substring0 currentText (charIndex c + 1), charIndex c + 1) in
      let speed := if isDeleting c then 50 else 100 in
      if negb (isDeleting c) && (ci =? Z.of_nat (length currentText)) then
        Some (mkTick text (mkClosure (textIndex c) ci true) 2000)
      else if isDeleting c && (ci =? 0) then
        Some (mkTick text
                (mkClosure ((textIndex c + 1) mod length playlist)%nat ci false) 500)
      else Some (mkTick text (mkClosure (textIndex c) ci (isDeleting c)) speed)
  end.

(** The texts shown by [n] successive calls, with the delay after each. *)
Fixpoint ticks (n : nat) (c : closure) : list (jsstring * Z) :=
  match n with
  | O => []
  | S k =>
      match typeText c with
      | None => []
      | Some t => (shown t, typeSpeed t) :: ticks k (next t)
      end
  end.

(** The variables after [n] calls. *)
Fixpoint after (n : nat) (c : closure) : option closure :=
  match n with
  | O => Some c
  | S k =>
      match typeText c with
      | None => None
      | Some t => after k (next t)
      end
  end.

(** Each call of [initializeTypingAnimation] that gets past its guard makes
    a closure of its own; a timer names the closure it belongs to. *)
Inductive callback := TypeText (i : nat).

Record state := mkState {
  typingText : option jsstring;   (* the element's text; [None]: no element *)
  typingAnimationRunning : bool;
  closures : list closure;
  timers : Timers.queue callback
}.

Definition initial : closure := mkClosure 0 0 false.

Definition initializeTypingAnimation (s : state) : state :=
  if match typingText s with None => true | Some _ => false end
     || typingAnimationRunning s
  then s
  else
    let i := length (closures s) in
    let '(_, q) := Timers.setTimeout (TypeText i) 1000 (timers s) in
    mkState (typingText s) true (closures s ++ [initial]) q.

(** A timer runs [typeText] in its closure. *)
Definition fire (cb : callback) (s : state) : state :=
  match cb with
  | TypeText i =>
      match closures s !! i with
      | None => s
      | Some c =>
          match typeText c with
          | None => s
          | Some t =>
              let '(_, q) := Timers.setTimeout (TypeText i) (typeSpeed t) (timers s) in
              mkState (Some (shown t)) (typingAnimationRunning s)
                      (<[i := next t]> (closures s)) q
          end
      end
  end.

Definition with_timers (q : Timers.queue callback) (s : state) : state :=
  mkState (typingText s) (typingAnimationRunning s) (closures s) q.

(** One turn of the event loop: the next timer runs, or something calls
    [initializeTypingAnimation] again. *)
Inductive step : state -> state -> Prop :=
| step_timer s tm q :
    Timers.take (timers s) = Some (tm, q) ->
    step s (fire (Timers.callback tm) (with_timers q s))
| step_initialize s :
    step s (initializeTypingAnimation s).

(** The page as the script finds it at time [t]. *)
Definition fresh (t : Z) (el : option jsstring) : state :=
  mkState el false [] (Timers.empty t).

(** Run the next [n] timers, recording the time and the text after each. *)
Fixpoint run (n : nat) (s : state) : list (Z * option jsstring) * state :=
  match n with
  | O => ([], s)
  | S k =>
      match Timers.take (timers s) with
      | None => ([], s)
      | Some (tm, q) =>
          let s' := fire (Timers.callback tm) (with_timers q s) in
          let '(l, s'') := run k s' in
          ((Timers.now (timers s'), typingText s') :: l, s'')
      end
  end.

End Playlist.

(** The pending timers are those of one closure at most. *)
Definition single_chain (s : state) : Prop :=
  (typingAnimationRunning s = false /\ closures s = [] /\
   Timers.pending (timers s) = []) \/
  (typingAnimationRunning s = true /\ length (closures s) = 1%nat /\
   (length (Timers.pending (timers s)) <= 1)%nat /\
   Forall (fun tm => Timers.every tm = None /\ Timers.callback tm = TypeText 0)
          (Timers.pending (timers s))).

End Typing.


(** ** Count-up animation of the stat values *)

Module Counter.

(** The closure of one [animateStatValue] call. *)
Record closure := mkClosure {
  finalValue : jsstring;
  numericValue : number;
  increment : number;
  currentValue : number;
  timer : nat
}.

Inductive callback := Tick (i : nat).

(** One stat element: its text, the closures made for it, the timers. *)
Record state := mkState {
  textContent : jsstring;
  closures : list closure;
  timers : Timers.queue callback
}.

Definition duration : Z := 2000.
Definition stepTime : Z := duration / 50.

(** The text written for [currentValue], in the format of the original. *)
Definition render (final : jsstring) (cv : number) : jsstring :=
  if JsString.includes final 46 then JsNumber.toFixed cv 2
  else if JsString.includes final 43 then JsNumber.toString (JsNumber.floor cv) ++ js "+"
  else JsNumber.toString (JsNumber.floor cv).

Definition animateStatValue (s : state) : state :=
  let final := textContent s in
  let numeric := JsNumber.parseFloat final in
  if JsNumber.isNaN numeric then s
  else
    let inc := JsNumber.div numeric (JsNumber.of_Z 50) in
    let '(h, q) := Timers.setInterval (Tick (length (closures s))) stepTime (timers s) in
    mkState (textContent s)
            (closures s ++ [mkClosure final numeric inc JsNumber.pos_zero h]) q.

(** The callback of the interval. *)
Definition tick (i : nat) (s : state) : state :=
  match closures s !! i with
  | None => s
  | Some c =>
      let cv := JsNumber.add (currentValue c) (increment c) in
      let reached := JsNumber.ge cv (numericValue c) in
      let cv := if reached then numericValue c else cv in
      let q := if reached then Timers.clear (timer c) (timers s) else timers s in
      mkState (render (finalValue c) cv)
              (<[i := mkClosure (finalValue c) (numericValue c) (increment c) cv (timer c)]>
                 (closures s))
              q
  end.

Definition fire (cb : callback) (s : state) : state :=
  match cb with Tick i => tick i s end.

Definition with_timers (q : Timers.queue callback) (s : state) : state :=
  mkState (textContent s) (closures s) q.

(** A stat element showing [text] at time [t], before it enters the
    viewport. *)
Definition element (t : Z) (text : jsstring) : state :=
  mkState text [] (Timers.empty t).

(** Run the next [n] timers, recording the time and the text after each. *)
Fixpoint run (n : nat) (s : state) : list (Z * jsstring) * state :=
  match n with
  | O => ([], s)
  | S k =>
      match Timers.take (timers s) with
      | None => ([], s)
      | Some (tm, q) =>
          let s' := fire (Timers.callback tm) (with_timers q s) in
          let '(l, s'') := run k s' in
          ((Timers.now (timers s'), textContent s') :: l, s'')
      end
  end.

(** The frames of the animation of [text], at most [n] of them. *)
Definition frames (n : nat) (text : jsstring) : list (Z * jsstring) :=
  fst (run n (animateStatValue (element 0 text))).

(** The element after [n] timers of the animation of [text]. *)
Definition shown_after (n : nat) (text : jsstring) : state :=
  snd (run n (animateStatValue (element 0 text))).

(** The numbers the frames show, as [parseFloat] reads them back. *)
Definition values (fs : list (Z * jsstring)) : list number :=
  List.map (fun f => JsNumber.parseFloat (snd f)) fs.

(** Every element is related to the one after it. *)
Fixpoint chain (rel : number -> number -> bool) (l : list number) : bool :=
  match l with
  | x :: r =>
      match r with
      | y :: _ => rel x y && chain rel r
      | [] => true
      end
  | [] => true
  end.

Definition strictly_increasing (l : list number) : bool :=
  chain (fun x y => JsNumber.gt y x) l.

Definition nondecreasing (l : list number) : bool :=
  chain (fun x y => JsNumber.ge y x) l.

(** The integers shown for "42+", frame by frame. *)
Definition shown_42 : list Z :=
  [0; 1; 2; 3; 4; 5; 5; 6; 7; 8; 9; 10; 10; 11; 12; 13; 14; 15; 15; 16; 17;
   18; 19; 20; 21; 21; 22; 23; 24; 25; 26; 26; 27; 28; 29; 30; 31; 31; 32;
   33; 34; 35; 36; 36; 37; 38; 39; 40; 41; 42].

(** The state of an animation of [text] that has shown a frame: one
    closure, whose value is on show with two decimals, and no timer but
    its own. *)
Definition showing_fixed (text : jsstring) (s : state) : Prop :=
  exists c, closures s = [c] /\ finalValue c = text /\
            textContent s = JsNumber.toFixed (currentValue c) 2 /\
            Forall (fun tm => Timers.callback tm = Tick 0)
                   (Timers.pending (timers s)).

End Counter.

(** ** One-shot viewport observers

    [statsObserver] and [lazyImageObserver] have the same callback: on an
    intersecting entry, act on the target and unobserve it.  The observer
    reports a crossing of an element only while it observes the element. *)

Module Observer.

Section Once.
Context {E : Type}.
(** What the callback does to an intersecting target. *)
Variable effect : E -> E.

Record state := mkState {
  observed : gset nat;            (* the targets of the observer *)
  elements : gmap nat E;
  invoked : list nat              (* the targets acted on, oldest first *)
}.

Record entry := mkEntry { target : nat; isIntersecting : bool }.

Definition observe (el : nat) (s : state) : state :=
  mkState ({[el]} ∪ observed s) (elements s) (invoked s).

Definition unobserve (el : nat) (s : state) : state :=
  mkState (observed s ∖ {[el]}) (elements s) (invoked s).

(** The body of [entries.forEach]. *)
Definition on_entry (s : state) (e : entry) : state :=
  if isIntersecting e then
    unobserve (target e)
      (mkState (observed s) (alter effect (target e) (elements s))
               (invoked s ++ [target e]))
  else s.

Definition callback (entries : list entry) (s : state) : state :=
  foldl on_entry s entries.

(** The element [el] crosses the threshold, into view or out of it. *)
Definition crossing (s : state) (e : entry) : state :=
  if bool_decide (target e ∈ observed s) then callback [e] s else s.

Definition crossings (l : list entry) (s : state) : state :=
  foldl crossing s l.

(** [querySelectorAll(...).forEach(el => observer.observe(el))] *)
Definition setup (els : gmap nat E) : state :=
  mkState (dom els) els [].

(** How often the callback acted on [el]. *)
Definition invocations (el : nat) (s : state) : nat :=
  length (filter (fun x => x = el) (invoked s)).

End Once.
Arguments state : clear implicits.

(** A lazy image: [src], [data-src] and the [lazy] class. *)
Record image := mkImage { src : jsstring; data_src : jsstring; lazy : bool }.

(** [img.src = img.dataset.src; img.classList.remove('lazy')] *)
Definition load_image (i : image) : image := mkImage (data_src i) (data_src i) false.

(** The two observers of the script. *)
Definition stats_crossings := crossings Counter.animateStatValue.
Definition lazy_crossings := crossings load_image.

End Observer.


(** ** Regular expressions

    [RegExp.prototype.test] of an anchored pattern ([^...$], no flags)
    decides whether the whole string is in the language of the pattern.
    The matcher takes derivatives. *)

Module Regex.

Inductive t :=
| Never                       (* matches nothing *)
| Empty                       (* the empty string *)
| Class (p : Z -> bool)       (* one code unit of a class *)
| Seq (a b : t)
| Alt (a b : t)
| Star (a : t).

(** [a+] *)
Definition Plus (a : t) : t := Seq a (Star a).

Fixpoint nullable (r : t) : bool :=
  match r with
  | Never => false
  | Empty => true
  | Class _ => false
  | Seq a b => nullable a && nullable b
  | Alt a b => nullable a || nullable b
  | Star _ => true
  end.

Fixpoint deriv (c : Z) (r : t) : t :=
  match r with
  | Never => Never
  | Empty => Never
  | Class p => if p c then Empty else Never
  | Seq a b =>
      if nullable a then Alt (Seq (deriv c a) b) (deriv c b)
      else Seq (deriv c a) b
  | Alt a b => Alt (deriv c a) (deriv c b)
  | Star a => Seq (deriv c a) (Star a)
  end.

Fixpoint test (r : t) (s : jsstring) : bool :=
  match s with
  | [] => nullable r
  | c :: s' => test (deriv c r) s'
  end.

(** The language of a pattern. *)
Inductive Matches : t -> jsstring -> Prop :=
| MEmpty : Matches Empty []
| MClass p c : p c = true -> Matches (Class p) [c]
| MSeq a b s1 s2 : Matches a s1 -> Matches b s2 -> Matches (Seq a b) (s1 ++ s2)
| MAltL a b s : Matches a s -> Matches (Alt a b) s
| MAltR a b s : Matches b s -> Matches (Alt a b) s
| MStarNil a : Matches (Star a) []
| MStarCons a s1 s2 :
    Matches a s1 -> Matches (Star a) s2 -> Matches (Star a) (s1 ++ s2).

End Regex.

(** ** Contact form and notifications *)

Module Page.

(** An [input] or [textarea] of the contact form, with the state of the
    [.form-group] around it: the [error] class and the text of its
    [.error-message] element, when it has one. *)
Record field := mkField {
  f_name : jsstring;
  f_type : jsstring;
  f_required : bool;
  f_value : jsstring;
  f_default : jsstring;
  group_error : bool;
  error_message : option jsstring
}.

(** The submit button: [disabled], the text of [.btn-text], the [loading]
    class. *)
Record button := mkButton {
  disabled : bool;
  btn_text : jsstring;
  loading : bool
}.

(** The element made by [showNotification]. *)
Record notification := mkNotification {
  className : jsstring;
  text : jsstring;
  background : jsstring;
  borderLeftColor : jsstring;
  opacity : jsstring;
  transform : jsstring;
  attached : bool                (* [parentNode] is not null *)
}.

(** What is handed to the mail client: the parts of the [mailto:] link,
    before percent-encoding. *)
Record mail := mkMail {
  recipient : jsstring;
  subject : jsstring;
  body : jsstring
}.

(** The closures handed to [setTimeout]. *)
Inductive callback :=
| SlideIn (n : nat)                      (* after 100 ms *)
| Dismiss (n : nat)                      (* after 5000 ms *)
| Remove (n : nat)                       (* 300 ms after a dismissal *)
| Submitted (originalText : jsstring)    (* 2000 ms after a valid submit *)
| PulseEnd.                              (* 500 ms after that *)

Record state := mkState {
  fields : list field;
  submitBtn : button;
  form_animation : jsstring;
  location : option mail;
  notifications : list notification;
  timers : Timers.queue callback
}.

Definition with_timers (q : Timers.queue callback) (s : state) : state :=
  mkState (fields s) (submitBtn s) (form_animation s) (location s)
          (notifications s) q.

Definition with_notifications (l : list notification) (s : state) : state :=
  mkState (fields s) (submitBtn s) (form_animation s) (location s) l (timers s).

(** *** Validation *)

(** [[^\s@]] *)
Definition not_space_at (c : Z) : bool :=
  negb (JsString.is_whitespace c || (c =? 64)).

(** [/^[^\s@]+@[^\s@]+\.[^\s@]+$/] *)
Definition emailPattern : Regex.t :=
  Regex.Seq (Regex.Plus (Regex.Class not_space_at))
    (Regex.Seq (Regex.Class (Z.eqb 64))
       (Regex.Seq (Regex.Plus (Regex.Class not_space_at))
          (Regex.Seq (Regex.Class (Z.eqb 46))
             (Regex.Plus (Regex.Class not_space_at))))).

(** [isValid] and [errorMessage] at the end of the two checks. *)
Definition check (f : field) : bool * jsstring :=
  let '(isValid, errorMessage) :=
    if f_required f && negb (JsString.truthy (JsString.trim (f_value f)))
    then (false, js "This field is required")
    else (true, []) in
  if JsString.eqb (f_type f) (js "email") && JsString.truthy (f_value f) then
    if negb (Regex.test emailPattern (f_value f))
    then (false, js "Please enter a valid email address")
    else (isValid, errorMessage)
  else (isValid, errorMessage).

(** [showFieldError]: the message element is made if missing, its text set. *)
Definition showFieldError (message : jsstring) (f : field) : field :=
  mkField (f_name f) (f_type f) (f_required f) (f_value f) (f_default f)
          (group_error f) (Some message).

Definition hideFieldError (f : field) : field :=
  mkField (f_name f) (f_type f) (f_required f) (f_value f) (f_default f)
          (group_error f) None.

Definition set_error_class (b : bool) (f : field) : field :=
  mkField (f_name f) (f_type f) (f_required f) (f_value f) (f_default f)
          b (error_message f).

(** [validateField]: the result and the field as it leaves it. *)
Definition validateField (f : field) : bool * field :=
  let '(isValid, errorMessage) := check f in
  if negb isValid
  then (false, showFieldError errorMessage (set_error_class true f))
  else (true, hideFieldError (set_error_class false f)).

(** *** Notifications *)

Definition notification_colors (type : jsstring) : jsstring * jsstring :=
  if JsString.eqb type (js "success")
  then (js "linear-gradient(135deg, #00f5ff, #00d4ff)", js "#00f5ff")
  else if JsString.eqb type (js "error")
  then (js "linear-gradient(135deg, #fb5607, #ff006e)", js "#fb5607")
  else if JsString.eqb type (js "warning")
  then (js "linear-gradient(135deg, #ffbe0b, #fb8500)", js "#ffbe0b")
  else (js "linear-gradient(135deg, #8338ec, #3a86ff)", js "#8338ec").

(** [showNotification(message, type)]; the new element is the last of
    [notifications]. *)
Definition showNotification (message type : jsstring) (s : state) : state :=
  let n := length (notifications s) in
  let '(bg, border) := notification_colors type in
  let el := mkNotification (js "notification notification-" ++ type) message
                           bg border (js "0") (js "translateX(100%)") true in
  let '(_, q) := Timers.setTimeout (SlideIn n) 100 (timers s) in
  let '(_, q) := Timers.setTimeout (Dismiss n) 5000 q in
  mkState (fields s) (submitBtn s) (form_animation s) (location s)
          (notifications s ++ [el]) q.

Definition set_style (o t : jsstring) (x : notification) : notification :=
  mkNotification (className x) (text x) (background x) (borderLeftColor x)
                 o t (attached x).

Definition detach (x : notification) : notification :=
  mkNotification (className x) (text x) (background x) (borderLeftColor x)
                 (opacity x) (transform x) false.

(** The fade-out shared by the 5000 ms timeout and the click listener:
    hide, and remove 300 ms later. *)
Definition dismiss (n : nat) (s : state) : state :=
  let l := alter (set_style (js "0") (js "translateX(100%)")) n (notifications s) in
  let '(_, q) := Timers.setTimeout (Remove n) 300 (timers s) in
  with_timers q (with_notifications l s).

(** The click listener of notification [n]. *)
Definition click (n : nat) (s : state) : state := dismiss n s.

(** *** Submission *)

(** [formData.get(name)], shown as the template literal shows it. *)
Definition form_value (name : jsstring) (l : list field) : jsstring :=
  match List.find (fun f => JsString.eqb (f_name f) name) l with
  | Some f => f_value f
  | None => js "null"
  end.

Definition reset_field (f : field) : field :=
  mkField (f_name f) (f_type f) (f_required f) (f_default f) (f_default f)
          (group_error f) (error_message f).

Definition newline : jsstring := [10].

(** The callback of the 2000 ms timeout of [handleFormSubmit]. *)
Definition submitted (originalText : jsstring) (s : state) : state :=
  let name := form_value (js "name") (fields s) in
  let email := form_value (js "email") (fields s) in
  let subject := form_value (js "subject") (fields s) in
  let message := form_value (js "message") (fields s) in
  let link :=
    mkMail (js "22bce139@nirmauni.ac.in") subject
           (js "Name: " ++ name ++ newline ++ js "Email: " ++ email ++ newline
               ++ newline ++ js "Message:" ++ newline ++ message) in
  let s :=
    mkState (List.map reset_field (fields s))
            (mkButton false originalText false)
            (form_animation s) (Some link) (notifications s) (timers s) in
  let s :=
    showNotification
      (js "Message sent successfully! Your email client should open shortly.")
      (js "success") s in
  let '(_, q) := Timers.setTimeout PulseEnd 500 (timers s) in
  mkState (fields s) (submitBtn s) (js "pulse 0.5s ease") (location s)
          (notifications s) q.

(** [formInputs.forEach(input => if (!validateField(input)) isFormValid = false)] *)
Definition validate_all (l : list field) : bool * list field :=
  (forallb (fun f => fst (validateField f)) l,
   List.map (fun f => snd (validateField f)) l).

Definition handleFormSubmit (s : state) : state :=
  let '(isFormValid, fs) := validate_all (fields s) in
  let s := mkState fs (submitBtn s) (form_animation s) (location s)
                   (notifications s) (timers s) in
  if negb isFormValid then
    showNotification (js "Please correct the errors above") (js "error") s
  else
    let originalText := btn_text (submitBtn s) in
    let '(_, q) := Timers.setTimeout (Submitted originalText) 2000 (timers s) in
    mkState (fields s) (mkButton true (js "Sending...") true)
            (form_animation s) (location s) (notifications s) q.

(** *** The event loop *)

Definition fire (cb : callback) (s : state) : state :=
  match cb with
  | SlideIn n =>
      with_notifications
        (alter (set_style (js "1") (js "translateX(0)")) n (notifications s)) s
  | Dismiss n => dismiss n s
  | Remove n =>
      (* [if (notification.parentNode) notification.remove()] *)
      with_notifications (alter detach n (notifications s)) s
  | Submitted originalText => submitted originalText s
  | PulseEnd =>
      mkState (fields s) (submitBtn s) [] (location s) (notifications s) (timers s)
  end.

(** The next timer runs, if it is due by [T]. *)
Definition turn (T : Z) (s : state) : option state :=
  match Timers.take (timers s) with
  | Some (tm, q) =>
      if Timers.due tm <=? T
      then Some (fire (Timers.callback tm) (with_timers q s))
      else None
  | None => None
  end.

Fixpoint turns (fuel : nat) (T : Z) (s : state) : state :=
  match fuel with
  | O => s
  | S k => match turn T s with Some s' => turns k T s' | None => s end
  end.

(** How many timers a callback stands for: itself and those it sets. *)
Definition weight (cb : callback) : nat :=
  match cb with
  | Dismiss _ => 2
  | Submitted _ => 5
  | _ => 1
  end.

Definition load (s : state) : nat :=
  list_sum (List.map (fun tm => weight (Timers.callback tm))
                     (Timers.pending (timers s))).

(** The page at time [T]: every timer due by then has run. *)
Definition run_until (T : Z) (s : state) : state :=
  let s := turns (load s) T s in
  with_timers (Timers.at_time T (timers s)) s.

(** A page without notifications or timers, at time [t]. *)
Definition fresh (t : Z) (l : list field) (b : button) : state :=
  mkState l b [] None [] (Timers.empty t).

(** No timer of the page is due by [T]. *)
Definition settled (T : Z) (s : state) : Prop :=
  Forall (fun tm => T < Timers.due tm) (Timers.pending (timers s)).

(** The notification a callback works on. *)
Definition target (cb : callback) : option nat :=
  match cb with
  | SlideIn n | Dismiss n | Remove n => Some n
  | Submitted _ | PulseEnd => None
  end.

(** The timers of a page in order: none is periodic, none is overdue, and
    each is about a notification that exists. *)
Definition well_formed (s : state) : Prop :=
  Forall (fun tm =>
            Timers.every tm = None /\
            Timers.now (timers s) <= Timers.due tm /\
            forall n, target (Timers.callback tm) = Some n ->
                      (n < length (notifications s))%nat)
         (Timers.pending (timers s)).

(** What a callback does to notification [n]. *)
Definition update (cb : callback) (n : nat) (x : notification) : notification :=
  match cb with
  | SlideIn m => if decide (m = n) then set_style (js "1") (js "translateX(0)") x else x
  | Dismiss m => if decide (m = n) then set_style (js "0") (js "translateX(100%)") x else x
  | Remove m => if decide (m = n) then detach x else x
  | Submitted _ | PulseEnd => x
  end.

(** The timers a callback sets when it runs at time [t] on a page with
    [len] notifications. *)
Definition sets (cb : callback) (t : Z) (len : nat) (tm : Timers.timer callback) : Prop :=
  Timers.every tm = None /\
  match cb with
  | Dismiss m => Timers.callback tm = Remove m /\ Timers.due tm = t + 300
  | Submitted _ =>
      (Timers.callback tm = SlideIn len /\ Timers.due tm = t + 100) \/
      (Timers.callback tm = Dismiss len /\ Timers.due tm = t + 5000) \/
      (Timers.callback tm = PulseEnd /\ Timers.due tm = t + 500)
  | SlideIn _ | Remove _ | PulseEnd => False
  end.

Definition attached_at (n : nat) (s : state) : Prop :=
  exists x, notifications s !! n = Some x /\ attached x = true.

Definition detached_at (n : nat) (s : state) : Prop :=
  exists x, notifications s !! n = Some x /\ attached x = false.

(** Faded out and moved off the page. *)
Definition hidden_at (n : nat) (s : state) : Prop :=
  exists x, notifications s !! n = Some x /\
            opacity x = js "0" /\ transform x = js "translateX(100%)".

(** Slid in. *)
Definition visible_at (n : nat) (s : state) : Prop :=
  exists x, notifications s !! n = Some x /\
            opacity x = js "1" /\ transform x = js "translateX(0)".

(** Notification [n] stays in the page until [D]: it is attached, and no
    timer removes it before. *)
Definition keeps (D : Z) (n : nat) (s : state) : Prop :=
  attached_at n s /\
  forall tm, In tm (Timers.pending (timers s)) ->
    (Timers.callback tm = Remove n -> D <= Timers.due tm) /\
    (Timers.callback tm = Dismiss n -> D <= Timers.due tm + 300).

(** Notification [n] is out of the page by [D]: it is detached, or a
    timer removes it by then. *)
Definition goes (D : Z) (n : nat) (s : state) : Prop :=
  exists x, notifications s !! n = Some x /\
    (attached x = false \/
     (exists tm, In tm (Timers.pending (timers s)) /\
                 Timers.callback tm = Remove n /\ Timers.due tm <= D) \/
     (exists tm, In tm (Timers.pending (timers s)) /\
                 Timers.callback tm = Dismiss n /\ Timers.due tm + 300 <= D)).

(** Notification [n] is hidden by [D] and stays so: it is hidden with no
    slide-in to come, or its dismissal is pending, after any slide-in. *)
Definition fades (D : Z) (n : nat) (s : state) : Prop :=
  exists x, notifications s !! n = Some x /\
    ((opacity x = js "0" /\ transform x = js "translateX(100%)" /\
      forall tm, In tm (Timers.pending (timers s)) ->
                 Timers.callback tm <> SlideIn n) \/
     (exists tm, In tm (Timers.pending (timers s)) /\
                 Timers.callback tm = Dismiss n /\ Timers.due tm <= D /\
                 forall u, In u (Timers.pending (timers s)) ->
                           Timers.callback u = SlideIn n ->
                           Timers.due u < Timers.due tm)).

(** Notification [n] is visible from [D1] until [D2]: no dismissal before
    [D2], and it has slid in or will by [D1]. *)
Definition shows (D1 D2 : Z) (n : nat) (s : state) : Prop :=
  exists x, notifications s !! n = Some x /\
    (forall tm, In tm (Timers.pending (timers s)) ->
                Timers.callback tm = Dismiss n -> D2 <= Timers.due tm) /\
    ((opacity x = js "1" /\ transform x = js "translateX(0)") \/
     (exists tm, In tm (Timers.pending (timers s)) /\
                 Timers.callback tm = SlideIn n /\ Timers.due tm <= D1)).

End Page.


(** ** Theme toggle *)

Module ThemeToggle.

(** The closure of the 300 ms timeout of [toggleTheme]. *)
Inductive callback := TransitionEnd.

(** The theme page with what [toggleTheme] touches besides: the
    [transition] style of the body, the [themeChanged] events dispatched
    (their [detail]), and the timers. *)
Record state := mkState {
  page : Theme.page;
  body_transition : jsstring;
  dispatched : list jsstring;
  timers : Timers.queue callback
}.

Inductive completion := Normal (s : state) | Throw (s : state).

Definition after (c : completion) : state :=
  match c with Normal s | Throw s => s end.

Definition toggleTheme (s : state) : completion :=
  let p := page s in
  let theme := if JsString.eqb (Theme.currentTheme p) (js "dark")
               then js "light" else js "dark" in
  let p := Theme.mkPage (Theme.stored p) (Theme.os_dark p) (Theme.themeSwitcher p)
                        theme (Theme.data_theme p)
                        (Theme.click_listeners p) (Theme.media_listeners p) in
  let p := Theme.setAttribute theme p in
  (* [localStorage.setItem('theme', currentTheme)] *)
  let p := Theme.mkPage (Some theme) (Theme.os_dark p) (Theme.themeSwitcher p)
                        (Theme.currentTheme p) (Theme.data_theme p)
                        (Theme.click_listeners p) (Theme.media_listeners p) in
  match Theme.updateThemeSwitcher p with
  | Theme.Throw p => Throw (mkState p (body_transition s) (dispatched s) (timers s))
  | Theme.Normal p =>
      let '(_, q) := Timers.setTimeout TransitionEnd 300 (timers s) in
      Normal (mkState p (js "all 0.3s ease") (dispatched s ++ [theme]) q)
  end.

(** The [change] event of the media query, on the whole state. *)
Definition systemThemeChange (matches : bool) (s : state) : completion :=
  match Theme.handleSystemThemeChange matches (page s) with
  | Theme.Throw p => Throw (mkState p (body_transition s) (dispatched s) (timers s))
  | Theme.Normal p => Normal (mkState p (body_transition s) (dispatched s) (timers s))
  end.

Definition fire (cb : callback) (s : state) : state :=
  match cb with
  | TransitionEnd => mkState (page s) [] (dispatched s) (timers s)
  end.

(** What the user and the system do to the theme. *)
Inductive event := Toggle | SystemChange (matches : bool).

(** The handler of an event, called on the state whether or not a
    listener for it was registered. *)
Definition handle (s : state) (e : event) : state :=
  match e with
  | Toggle => after (toggleTheme s)
  | SystemChange m => after (systemThemeChange m s)
  end.

(** The event as the page receives it: a handler runs once for every
    listener that [initializeTheme] registered, [toggleTheme] for a click
    on the switch and [handleSystemThemeChange] for a change of the media
    query.  A listener that throws does not stop the next one.  Where
    start-up threw before [addEventListener], or [window.matchMedia] is
    absent, no handler runs. *)
Definition deliver (s : state) (e : event) : state :=
  match e with
  | Toggle => Nat.iter (Theme.click_listeners (page s)) (fun s => handle s Toggle) s
  | SystemChange m =>
      Nat.iter (Theme.media_listeners (page s)) (fun s => handle s (SystemChange m)) s
  end.

(** The page after start-up at time [t], whether or not start-up threw. *)
Definition started (t : Z) (st : option jsstring) (os : option bool)
           (sw : option (option jsstring)) : state :=
  mkState (Theme.state (Theme.startup st os sw)) [] [] (Timers.empty t).

(** The attribute of the document root and the thumb of the switch agree
    with the current theme. *)
Definition consistent (p : Theme.page) : Prop :=
  Theme.data_theme p = Some (Theme.currentTheme p) /\
  forall t, Theme.themeSwitcher p = Some (Some t) ->
            t = if JsString.eqb (Theme.currentTheme p) (js "dark")
                then js "translateX(30px)" else js "translateX(0)".

End ThemeToggle.

(** ** throttle *)

Module Throttle.
Section Throttled.
Context {A W : Type}.
(** The function throttled, as what it does to the state it works on. *)
Variable func : A -> W -> W.
Variable limit : Z.

Inductive callback := Release.

(** The closure of [throttle(func, limit)] and the world [func] works on. *)
Record state := mkState {
  inThrottle : bool;            (* [undefined] counts as [false] *)
  world : W;
  timers : Timers.queue callback
}.

(** The function [throttle] returns. *)
Definition call (a : A) (s : state) : state :=
  if inThrottle s then s
  else
    let '(_, q) := Timers.setTimeout Release limit (timers s) in
    mkState true (func a (world s)) q.

Definition fire (cb : callback) (s : state) : state :=
  match cb with Release => mkState false (world s) (timers s) end.

Definition turn (T : Z) (s : state) : option state :=
  match Timers.take (timers s) with
  | Some (tm, q) =>
      if Timers.due tm <=? T
      then Some (fire (Timers.callback tm) (mkState (inThrottle s) (world s) q))
      else None
  | None => None
  end.

Fixpoint turns (fuel : nat) (T : Z) (s : state) : state :=
  match fuel with
  | O => s
  | S k => match turn T s with Some s' => turns k T s' | None => s end
  end.

(** The state at time [T]: the timers due by then have run. *)
Definition run_until (T : Z) (s : state) : state :=
  let s := turns (length (Timers.pending (timers s))) T s in
  mkState (inThrottle s) (world s) (Timers.at_time T (timers s)).

(** Calls at given times, in order. *)
Fixpoint play (calls : list (Z * A)) (s : state) : state :=
  match calls with
  | [] => s
  | (t, a) :: r => play r (call a (run_until t s))
  end.

Definition fresh (t : Z) (w : W) : state := mkState false w (Timers.empty t).

(** The calls that get through: each at least [limit] ms after the one
    before it that got through ([last], when there is one). *)
Fixpoint passing (last : option Z) (calls : list (Z * A)) : list (Z * A) :=
  match calls with
  | [] => []
  | (t, a) :: r =>
      match last with
      | Some l =>
          if l + Z.max 0 limit <=? t then (t, a) :: passing (Some t) r
          else passing last r
      | None => (t, a) :: passing (Some t) r
      end
  end.

(** Times in order, none before [t0]. *)
Fixpoint ascending (t0 : Z) (calls : list (Z * A)) : Prop :=
  match calls with
  | [] => True
  | (t, _) :: r => t0 <= t /\ ascending t r
  end.

(** The closure between calls: open, or closed since the call at [l]
    with its release pending. *)
Definition phase (last : option Z) (s : state) : Prop :=
  match last with
  | None => inThrottle s = false /\ Timers.pending (timers s) = []
  | Some l =>
      (inThrottle s = true /\
       exists tm, Timers.pending (timers s) = [tm] /\
                  Timers.due tm = l + Z.max 0 limit /\ Timers.every tm = None) \/
      (inThrottle s = false /\ Timers.pending (timers s) = [] /\
       l + Z.max 0 limit <= Timers.now (timers s))
  end.

End Throttled.
Arguments state : clear implicits.
End Throttle.

(** ** debounce *)

Module Debounce.
Section Debounced.
Context {A W : Type}.
Variable func : A -> W -> W.
Variable wait : Z.
Variable immediate : bool.

(** [later] closes over the arguments of the call that made it. *)
Inductive callback := Later (args : A).

(** The closure of [debounce(func, wait, immediate)] and the world
    [func] works on. *)
Record state := mkState {
  timeout : option nat;         (* [None] for [undefined] and [null] *)
  world : W;
  timers : Timers.queue callback
}.

(** A timer handle as a condition: 0 is falsy. *)
Definition truthy (h : option nat) : bool :=
  match h with Some (S _) => true | _ => false end.

(** [later] *)
Definition later (args : A) (s : state) : state :=
  mkState None (if immediate then world s else func args (world s)) (timers s).

(** The function [debounce] returns. *)
Definition call (args : A) (s : state) : state :=
  let callNow := immediate && negb (truthy (timeout s)) in
  let q := match timeout s with
           | Some h => Timers.clear h (timers s)
           | None => timers s
           end in
  let '(h, q) := Timers.setTimeout (Later args) wait q in
  mkState (Some h) (if callNow then func args (world s) else world s) q.

Definition fire (cb : callback) (s : state) : state :=
  match cb with Later args => later args s end.

Definition turn (T : Z) (s : state) : option state :=
  match Timers.take (timers s) with
  | Some (tm, q) =>
      if Timers.due tm <=? T
      then Some (fire (Timers.callback tm) (mkState (timeout s) (world s) q))
      else None
  | None => None
  end.

Fixpoint turns (fuel : nat) (T : Z) (s : state) : state :=
  match fuel with
  | O => s
  | S k => match turn T s with Some s' => turns k T s' | None => s end
  end.

Definition run_until (T : Z) (s : state) : state :=
  let s := turns (length (Timers.pending (timers s))) T s in
  mkState (timeout s) (world s) (Timers.at_time T (timers s)).

(** Calls at given times with given arguments, in order. *)
Fixpoint play (calls : list (Z * A)) (s : state) : state :=
  match calls with
  | [] => s
  | c :: r => play r (call (snd c) (run_until (fst c) s))
  end.

Definition fresh (t : Z) (w : W) : state := mkState None w (Timers.empty t).

(** A burst: times in order from [t0] on, each less than [wait] after the
    one before. *)
Fixpoint burst (t0 : Z) (calls : list (Z * A)) : Prop :=
  match calls with
  | [] => True
  | c :: r => t0 <= fst c < t0 + wait /\ burst (fst c) r
  end.

(** The closure after a call at time [t] with arguments [a]: one timer,
    due [wait] ms later, and [timeout] holding its handle; [x] is the
    world. *)
Definition armed (t : Z) (a : A) (x : W) (s : state) : Prop :=
  exists h tm,
    timeout s = Some (S h) /\ Timers.pending (timers s) = [tm] /\
    Timers.handle tm = S h /\ Timers.due tm = t + wait /\
    Timers.every tm = None /\ Timers.callback tm = Later a /\
    Timers.now (timers s) = t /\ world s = x /\
    (0 < Timers.next_handle (timers s))%nat.

End Debounced.
Arguments state : clear implicits.
End Debounce.

(** ** The typing animation over a whole text *)

Module TypingCycle.

(** The frames of typing [text] out: its prefixes of length 1 up to the
    whole text, 100 ms apart, with 2000 ms after the whole text. *)
Definition growing (text : jsstring) (from n : nat) : list (jsstring * Z) :=
  List.map (fun k => (firstn k text,
                      if (k =? length text)%nat then 2000 else 100))
           (seq (S from) n).

(** The frames of deleting it: the prefixes of length [n - 1] down to 0,
    50 ms apart, with 500 ms after the empty text. *)
Definition shrinking (text : jsstring) (n : nat) : list (jsstring * Z) :=
  List.map (fun k => (firstn k text, if (k =? 0)%nat then 500 else 50))
           (rev (seq 0 n)).

Definition cycle (text : jsstring) : list (jsstring * Z) :=
  growing text 0 (length text) ++ shrinking text (length text).

(** The time a list of frames takes. *)
Definition total (frames : list (jsstring * Z)) : Z :=
  fold_right Z.add 0 (List.map snd frames).

(** The number of calls of [typeText] that go through the playlist once. *)
Definition period (playlist : list jsstring) : nat :=
  list_sum (List.map (fun text => 2 * length text)%nat playlist).

End TypingCycle.

(** ** The timers of the matrix background *)

Module MatrixTimers.
Import Matrix.

Definition is_frame (tm : Timers.timer callback) : nat :=
  match Timers.callback tm with DrawMatrix => 1 | ResizeLater => 0 end.

Definition is_resize (tm : Timers.timer callback) : nat :=
  match Timers.callback tm with DrawMatrix => 0 | ResizeLater => 1 end.

(** How many calls of [drawMatrix] and of the debounced [resizeCanvas]
    are pending. *)
Definition frames_pending (s : state) : nat :=
  list_sum (List.map is_frame (Timers.pending (timers s))).

Definition resizes_pending (s : state) : nat :=
  list_sum (List.map is_resize (Timers.pending (timers s))).

(** The timers as the two closures keep them: the interval of
    [drawMatrix] has the first handle, a pending [later] is the one
    [timeout] names. *)
Definition owned (s : state) (tm : Timers.timer callback) : Prop :=
  match Timers.callback tm with
  | DrawMatrix => Timers.every tm = Some 50 /\ Timers.handle tm = 1%nat
  | ResizeLater => Timers.every tm = None /\ resize_timeout s = Some (Timers.handle tm)
  end.

Definition steady (s : state) : Prop :=
  frames_pending s = 1%nat /\
  (resizes_pending s <= 1)%nat /\
  Forall (owned s) (Timers.pending (timers s)) /\
  (forall h, resize_timeout s = Some h -> (2 <= h)%nat) /\
  (2 <= Timers.next_handle (timers s))%nat /\
  (resizes_pending s = 0%nat ->
   canvas_width s = innerWidth s /\ canvas_height s = innerHeight s).

(** The columns of a frame: where the glyphs are painted. *)
Definition positions (s : state) : list (Z * Z) :=
  List.map (fun g => (g_x g, g_y g)) (painted s).

End MatrixTimers.

(** ** Navigation

    The page has the navbar, the hamburger and the menu.  A click runs the
    listener of its target and then, as the event bubbles, the listener
    of the document. *)

Module Nav.

Record link := mkLink {
  href : option jsstring;        (* [getAttribute('href')] *)
  active : bool
}.

(** A [section] element with an [id]. *)
Record section := mkSection {
  id : jsstring;
  offsetTop : Z;
  offsetHeight : Z
}.

Record state := mkState {
  hamburger : bool;                       (* the hamburger has class [active] *)
  navMenu : bool;                         (* the menu has class [active] *)
  overflow : jsstring;                    (* [document.body.style.overflow] *)
  scrolled : bool;                        (* the navbar has class [scrolled] *)
  navLinks : list link;
  sections : list section;
  querySelector : jsstring -> option Z;   (* [offsetTop] of the element found *)
  scrollY : number;
  innerWidth : Z;
  scrolledTo : option Z                   (* [top] of the last [scrollTo] *)
}.

Definition set_menu (h m : bool) (o : jsstring) (s : state) : state :=
  mkState h m o (scrolled s) (navLinks s) (sections s) (querySelector s)
          (scrollY s) (innerWidth s) (scrolledTo s).

Definition toggleMobileMenu (s : state) : state :=
  let h := negb (hamburger s) in
  let m := negb (navMenu s) in
  set_menu h m (if m then js "hidden" else []) s.

(** The three statements that close the menu. *)
Definition close (s : state) : state := set_menu false false [] s.

Definition deactivate (l : link) : link := mkLink (href l) false.

(** The selector a link's [href] stands for in [querySelector]. *)
Definition selector (l : link) : jsstring :=
  match href l with Some h => h | None => js "null" end.

(** [handleNavLinkClick]; [closest] is the index of the nearest
    [.nav-link], when there is one.  Without one, reading [getAttribute]
    of [null] throws and the listener ends there. *)
Definition handleNavLinkClick (closest : option nat) (s : state) : state :=
  match closest with
  | None => s
  | Some i =>
      match navLinks s !! i with
      | None => s
      | Some l =>
          match querySelector s (selector l) with
          | None => s
          | Some top =>
              let s := close s in
              mkState (hamburger s) (navMenu s) (overflow s) (scrolled s)
                      (alter (fun l => mkLink (href l) true) i
                             (List.map deactivate (navLinks s)))
                      (sections s) (querySelector s) (scrollY s) (innerWidth s)
                      (Some (top - 100))
          end
      end
  end.

(** [handleOutsideClick]; [inside] is [navbar.contains(e.target)]. *)
Definition handleOutsideClick (inside : bool) (s : state) : state :=
  if negb inside && navMenu s then close s else s.

(** What was clicked: the hamburger, a link with class [nav-link], a
    footer link without it, or something else. *)
Inductive target := Hamburger | NavLink (i : nat) | FooterLink | Other.

Definition click (tg : target) (inside : bool) (s : state) : state :=
  handleOutsideClick inside
    match tg with
    | Hamburger => toggleMobileMenu s
    | NavLink i => handleNavLinkClick (Some i) s
    | FooterLink => handleNavLinkClick None s
    | Other => s
    end.

(** [handleKeyboardNavigation]; [focus] is the focused element when it
    has class [nav-link]: its index, and whether the navbar contains
    it. *)
Definition handleKeyboardNavigation (key : jsstring) (focus : option (nat * bool))
           (s : state) : state :=
  let s := if JsString.eqb key (js "Escape") && navMenu s
           then toggleMobileMenu s else s in
  if JsString.eqb key (js "Enter") then
    match focus with
    | Some (i, inside) => click (NavLink i) inside s
    | None => s
    end
  else s.

Definition updateNavbarOnScroll (s : state) : state :=
  mkState (hamburger s) (navMenu s) (overflow s)
          (JsNumber.gt (scrollY s) (JsNumber.of_Z 100))
          (navLinks s) (sections s) (querySelector s) (scrollY s) (innerWidth s)
          (scrolledTo s).

(** The test of the loop over the sections. *)
Definition holds (y : number) (sec : section) : bool :=
  let sectionTop := offsetTop sec - 150 in
  let sectionHeight := offsetHeight sec in
  JsNumber.ge y (JsNumber.of_Z sectionTop) &&
  JsNumber.gt (JsNumber.of_Z (sectionTop + sectionHeight)) y.

(** [current] after the loop. *)
Definition current (y : number) (l : list section) : jsstring :=
  fold_left (fun cur sec => if holds y sec then id sec else cur) l [].

Definition updateActiveNavLink (s : state) : state :=
  let cur := current (scrollY s) (sections s) in
  mkState (hamburger s) (navMenu s) (overflow s) (scrolled s)
          (List.map (fun l =>
                       mkLink (href l)
                              (match href l with
                               | Some h => JsString.eqb h ([35] ++ cur)
                               | None => false
                               end))
                    (navLinks s))
          (sections s) (querySelector s) (scrollY s) (innerWidth s) (scrolledTo s).

(** The function debounced in [optimizeResizeEvents]. *)
Definition resized (s : state) : state :=
  if (768 <? innerWidth s) && navMenu s then close s else s.

Inductive event :=
| Click (tg : target) (inside : bool)
| Keydown (key : jsstring) (focus : option (nat * bool))
| Scroll (y : number)                 (* the page is scrolled *)
| NavbarOnScroll                      (* a throttled scroll listener runs *)
| ActiveNavLink
| Resize (w : Z)                      (* the window is resized *)
| Resized.                            (* the debounced listener runs *)

Definition handle (e : event) (s : state) : state :=
  match e with
  | Click tg inside => click tg inside s
  | Keydown key focus => handleKeyboardNavigation key focus s
  | Scroll y =>
      mkState (hamburger s) (navMenu s) (overflow s) (scrolled s) (navLinks s)
              (sections s) (querySelector s) y (innerWidth s) (scrolledTo s)
  | NavbarOnScroll => updateNavbarOnScroll s
  | ActiveNavLink => updateActiveNavLink s
  | Resize w =>
      mkState (hamburger s) (navMenu s) (overflow s) (scrolled s) (navLinks s)
              (sections s) (querySelector s) (scrollY s) w (scrolledTo s)
  | Resized => resized s
  end.

(** The page scrolls behind the menu exactly when the menu is closed. *)
Definition locked (s : state) : Prop :=
  hamburger s = navMenu s /\
  overflow s = (if navMenu s then js "hidden" else []).

Definition closed (s : state) : Prop :=
  hamburger s = false /\ navMenu s = false /\ overflow s = [].

End Nav.

(** ** The Konami code

    Key codes are unsigned integers; as elements of an array that is
    joined they are shown in decimal. *)

Module Konami.

Definition konamiSequence : list N := [38; 38; 40; 40; 37; 39; 37; 39; 66; 65]%N.

Definition show (k : N) : jsstring := JsNumber.decimal (Z.of_N k).

(** [codes.join(',')] *)
Fixpoint join (codes : list N) : jsstring :=
  match codes with
  | [] => []
  | [k] => show k
  | k :: r => show k ++ [44] ++ join r
  end.

Record state := mkState {
  konamiCode : list N;
  eggs : nat                     (* the calls of [triggerEasterEgg] so far *)
}.

Definition initial : state := mkState [] 0.

(** [push], then [shift] when the array has outgrown the sequence. *)
Definition pushed (code : list N) (k : N) : list N :=
  let code := code ++ [k] in
  if (length konamiSequence <? length code)%nat then tl code else code.

(** The [keydown] listener. *)
Definition keydown (k : N) (s : state) : state :=
  let code := pushed (konamiCode s) k in
  if JsString.eqb (join code) (join konamiSequence)
  then mkState [] (S (eggs s))
  else mkState code (eggs s).

Definition keys (l : list N) (s : state) : state :=
  fold_left (fun s k => keydown k s) l s.

(** The last ten elements. *)
Definition recent (l : list N) : list N := skipn (length l - 10) l.

End Konami.

(** ** What else happens on the page while a notification is shown *)

Module Stack.
Import Page.

Inductive action :=
| Show (message type : jsstring)      (* [showNotification] *)
| ClickOn (m : nat)                   (* a click on notification [m] *)
| Submit.                             (* the form is submitted *)

(** Only a notification that was made has a click listener. *)
Definition act (a : action) (s : state) : state :=
  match a with
  | Show message type => showNotification message type s
  | ClickOn m => if (m <? length (notifications s))%nat then click m s else s
  | Submit => handleFormSubmit s
  end.

(** The actions at their times, the due timers running in between. *)
Fixpoint play (events : list (Z * action)) (s : state) : state :=
  match events with
  | [] => s
  | e :: r => play r (act (snd e) (run_until (fst e) s))
  end.

Fixpoint in_order (t : Z) (events : list (Z * action)) : Prop :=
  match events with
  | [] => True
  | e :: r => t <= fst e /\ in_order (fst e) r
  end.

Definition end_time (t : Z) (events : list (Z * action)) : Z :=
  List.last (List.map fst events) t.

(** Notification [n], shown at [t0], is on its way: each stage of its
    life is still ahead, or done. *)
Definition on_course (t0 : Z) (n : nat) (s : state) : Prop :=
  well_formed s /\
  goes (t0 + 5300) n s /\ fades (t0 + 5000) n s /\
  (Timers.now (timers s) < t0 + 5300 -> keeps (t0 + 5300) n s) /\
  (Timers.now (timers s) < t0 + 5000 -> shows (t0 + 100) (t0 + 5000) n s).

End Stack.

(** ** The shape of an accepted email address *)

Module Email.

(** A non-empty run of characters that are neither white space nor [@]. *)
Definition word (s : jsstring) : Prop :=
  s <> [] /\ Forall (fun c => Page.not_space_at c = true) s.

(** How many [@] a string has. *)
Definition ats (s : jsstring) : nat := length (List.filter (Z.eqb 64) s).

End Email.

(** ** Scroll progress and scroll frames *)

Module ScrollProgress.

(** [(scrollY / (scrollHeight - innerHeight)) * 100]; the two heights
    are integers. *)
Definition scrollPercent (scrollY : number) (scrollHeight innerHeight : Z) : number :=
  JsNumber.mul (JsNumber.div scrollY (JsNumber.of_Z (scrollHeight - innerHeight)))
               (JsNumber.of_Z 100).

(** The text assigned to [progressBar.style.width]. *)
Definition width (scrollY : number) (scrollHeight innerHeight : Z) : jsstring :=
  JsNumber.toString (scrollPercent scrollY scrollHeight innerHeight) ++ js "%".

End ScrollProgress.

Module ScrollFrames.

(** The closure of [optimizeScrollEvents], the callbacks waiting for the
    next animation frame, and the navigation they update. *)
Record state := mkState {
  ticking : bool;
  requested : nat;               (* callbacks given to [requestAnimationFrame] *)
  nav : Nav.state;
  updates : nat                  (* the calls of [updateOnScroll] so far *)
}.

Definition updateOnScroll (s : state) : state :=
  mkState false (requested s)
          (Nav.updateActiveNavLink (Nav.updateNavbarOnScroll (nav s)))
          (S (updates s)).

(** The [scroll] listener. *)
Definition on_scroll (s : state) : state :=
  if ticking s then s
  else mkState true (S (requested s)) (nav s) (updates s).

(** The page is scrolled to [y]. *)
Definition scroll (y : number) (s : state) : state :=
  on_scroll (mkState (ticking s) (requested s)
                     (Nav.handle (Nav.Scroll y) (nav s)) (updates s)).

(** An animation frame: the callbacks requested before it run. *)
Definition frame (s : state) : state :=
  Nat.iter (requested s) updateOnScroll
           (mkState (ticking s) 0 (nav s) (updates s)).

Inductive event := Scrolled (y : number) | Frame.

Definition handle (s : state) (e : event) : state :=
  match e with
  | Scrolled y => scroll y s
  | Frame => frame s
  end.

Definition idle (n : Nav.state) : state := mkState false 0 n 0.

(** One callback is waiting exactly while [ticking] is set. *)
Definition coalesced (s : state) : Prop :=
  requested s = (if ticking s then 1 else 0)%nat.

End ScrollFrames.

(** ** Floating particles *)

Module Particles.

Definition sub (x y : number) : number := SFsub prec emax x y.

(** [random(min, max)] on the value [r] of [Math.random()] *)
Definition random_between (r min max : number) : number :=
  JsNumber.add (JsNumber.mul r (sub max min)) min.

(** The delay of a timer as the browser takes it: a Number converted
    to a 32-bit integer. *)
Definition to_long (x : number) : Z :=
  match x with
  | S754_finite s m e =>
      let mag := if 0 <=? e then Z.pos m * 2 ^ e else Z.pos m / 2 ^ (- e) in
      let z := if s then - mag else mag in
      let w := z mod 2 ^ 32 in
      if 2 ^ 31 <=? w then w - 2 ^ 32 else w
  | _ => 0
  end.

Record particle := mkParticle {
  size : number;
  left : number;
  top : number;
  duration : number;
  opacity : number;
  attached : bool                 (* [parentNode] is the container *)
}.

(** The closure of the timeout of particle [i]. *)
Inductive callback := Expire (i : nat).

Record state := mkState {
  innerWidth : Z;
  innerHeight : Z;
  particles : list particle;      (* every particle made, in order *)
  styles : nat;                   (* elements with id [particle-styles] *)
  random : nat -> number;         (* what Math.random() returns *)
  drawn : nat;                    (* how many values were taken *)
  timers : Timers.queue callback
}.

Definition createParticle (s : state) : state :=
  let r := random s in
  let k := drawn s in
  let size := random_between (r k) (JsNumber.of_Z 2) (JsNumber.of_Z 6) in
  let x := random_between (r (k + 1)%nat) (JsNumber.of_Z 0)
                          (JsNumber.of_Z (innerWidth s)) in
  let y := random_between (r (k + 2)%nat) (JsNumber.of_Z 0)
                          (JsNumber.of_Z (innerHeight s)) in
  let duration := random_between (r (k + 3)%nat) (JsNumber.of_Z 10)
                                 (JsNumber.of_Z 30) in
  let opacity := random_between (r (k + 4)%nat) (JsNumber.nearest false 1 10)
                                (JsNumber.nearest false 1 2) in
  let styles := if (styles s =? 0)%nat then 1%nat else styles s in
  let i := length (particles s) in
  let '(_, q) :=
    Timers.setTimeout (Expire i)
                      (to_long (JsNumber.mul duration (JsNumber.of_Z 1000)))
                      (timers s) in
  mkState (innerWidth s) (innerHeight s)
          (particles s ++ [mkParticle size x y duration opacity true])
          styles r (k + 5)%nat q.

Definition detach (p : particle) : particle :=
  mkParticle (size p) (left p) (top p) (duration p) (opacity p) false.

(** The callback of the timeout: a particle still in the container is
    removed and replaced. *)
Definition expire (i : nat) (s : state) : state :=
  match particles s !! i with
  | Some p =>
      if attached p then
        createParticle
          (mkState (innerWidth s) (innerHeight s) (alter detach i (particles s))
                   (styles s) (random s) (drawn s) (timers s))
      else s
  | None => s
  end.

(** [createFloatingParticles] at time [t] in a window of [w] by [h]. *)
Definition createFloatingParticles (t w h : Z) (rnd : nat -> number) : state :=
  Nat.iter 50 createParticle (mkState w h [] 0 rnd 0 (Timers.empty t)).

Definition fire (cb : callback) (s : state) : state :=
  match cb with Expire i => expire i s end.

Definition with_timers (q : Timers.queue callback) (s : state) : state :=
  mkState (innerWidth s) (innerHeight s) (particles s) (styles s) (random s)
          (drawn s) q.

(** Run the next [n] timers. *)
Fixpoint run (n : nat) (s : state) : state :=
  match n with
  | O => s
  | S k =>
      match Timers.take (timers s) with
      | Some (tm, q) => run k (fire (Timers.callback tm) (with_timers q s))
      | None => s
      end
  end.

(** The particles in the container. *)
Definition live (l : list particle) : nat :=
  list_sum (List.map (fun p => if attached p then 1 else 0)%nat l).

(** The pending timers of particle [i]. *)
Definition waiting (i : nat) (tm : Timers.timer callback) : nat :=
  match Timers.callback tm with Expire j => if (j =? i)%nat then 1 else 0 end%nat.

(** [k] particles float, each with its one timer. *)
Definition floating (k : nat) (s : state) : Prop :=
  live (particles s) = k /\
  length (Timers.pending (timers s)) = k /\
  Forall (fun tm => Timers.every tm = None) (Timers.pending (timers s)) /\
  forall i, list_sum (List.map (waiting i) (Timers.pending (timers s)))
            = match particles s !! i with
              | Some p => if attached p then 1%nat else 0%nat
              | None => 0%nat
              end.

End Particles.

(** ** Project cards: the technology tags on hover *)

Module Hover.

Record tag := mkTag {
  transform : jsstring;
  boxShadow : jsstring
}.

Record card := mkCard {
  card_transform : jsstring;
  overlay : option jsstring;      (* the opacity of [.project-overlay], if any *)
  tags : list tag
}.

(** The closure of the timeout of tag [k]. *)
Inductive callback := Raise (k : nat).

Record state := mkState {
  element : card;
  timers : Timers.queue callback
}.

Definition raised : tag :=
  mkTag (js "translateY(-2px)") (js "0 4px 15px rgba(0, 212, 255, 0.3)").

Definition lowered : tag := mkTag (js "translateY(0)") (js "none").

(** The [mouseenter] listener. *)
Definition mouseenter (s : state) : state :=
  let c := element s in
  let q := fold_left
             (fun q tagIndex =>
                snd (Timers.setTimeout (Raise tagIndex) (Z.of_nat tagIndex * 50) q))
             (seq 0 (length (tags c))) (timers s) in
  mkState (mkCard (js "translateY(-15px) rotateX(5deg)")
                  (match overlay c with Some _ => Some (js "0.1") | None => None end)
                  (tags c))
          q.

(** The [mouseleave] listener. *)
Definition mouseleave (s : state) : state :=
  let c := element s in
  mkState (mkCard (js "translateY(0) rotateX(0)")
                  (match overlay c with Some _ => Some (js "0") | None => None end)
                  (List.map (fun _ => lowered) (tags c)))
          (timers s).

Definition fire (cb : callback) (s : state) : state :=
  match cb with
  | Raise k =>
      let c := element s in
      mkState (mkCard (card_transform c) (overlay c)
                      (alter (fun _ => raised) k (tags c)))
              (timers s)
  end.

Definition turn (T : Z) (s : state) : option state :=
  match Timers.take (timers s) with
  | Some (tm, q) =>
      if Timers.due tm <=? T
      then Some (fire (Timers.callback tm) (mkState (element s) q))
      else None
  | None => None
  end.

Fixpoint turns (fuel : nat) (T : Z) (s : state) : state :=
  match fuel with
  | O => s
  | S k => match turn T s with Some s' => turns k T s' | None => s end
  end.

(** The card at time [T]: the timers due by then have run. *)
Definition run_until (T : Z) (s : state) : state :=
  let s := turns (length (Timers.pending (timers s))) T s in
  mkState (element s) (Timers.at_time T (timers s)).

(** A card at rest, at time [t]. *)
Definition resting (t : Z) (c : card) : state := mkState c (Timers.empty t).

(** Is a timer of tag [k] among [p] due by [T]? *)
Definition due_by (T : Z) (k : nat) (p : list (Timers.timer callback)) : bool :=
  existsb (fun tm => match Timers.callback tm with
                     | Raise j => (j =? k)%nat && (Timers.due tm <=? T)
                     end) p.

(** The tag [k] once the timers of [p] due by [T] have run on [tg]. *)
Definition outcome (T : Z) (k : nat) (p : list (Timers.timer callback))
           (tg : list tag) : option tag :=
  (if due_by T k p then fun _ => raised else fun t => t) <$> tg !! k.

End Hover.

(** ** Glitch effect *)

Module Glitch.

(** The closure of the timeout of the [n]-th call of [triggerGlitch]. *)
Inductive callback := EndGlitch (n : nat).

(** The element, with its clones named by the call that made them. *)
Record state := mkState {
  glitching : bool;               (* the element has class [glitching] *)
  position : jsstring;            (* [element.style.position] *)
  clones : list nat;
  styles : nat;                   (* elements with id [glitch-styles] *)
  calls : nat;                    (* the calls of [triggerGlitch] so far *)
  timers : Timers.queue callback
}.

Definition triggerGlitch (s : state) : state :=
  let n := calls s in
  let '(_, q) := Timers.setTimeout (EndGlitch n) 300 (timers s) in
  mkState true (js "relative") (clones s ++ [n; n])
          (if (styles s =? 0)%nat then 1%nat else styles s)
          (S n) q.

Definition fire (cb : callback) (s : state) : state :=
  match cb with
  | EndGlitch n =>
      mkState false (position s)
              (List.filter (fun c => negb (c =? n)%nat) (clones s))
              (styles s) (calls s) (timers s)
  end.

Definition with_timers (q : Timers.queue callback) (s : state) : state :=
  mkState (glitching s) (position s) (clones s) (styles s) (calls s) q.

Definition turn (T : Z) (s : state) : option state :=
  match Timers.take (timers s) with
  | Some (tm, q) =>
      if Timers.due tm <=? T
      then Some (fire (Timers.callback tm) (with_timers q s))
      else None
  | None => None
  end.

Fixpoint turns (fuel : nat) (T : Z) (s : state) : state :=
  match fuel with
  | O => s
  | S k => match turn T s with Some s' => turns k T s' | None => s end
  end.

(** The element at time [T]: the timers due by then have run. *)
Definition run_until (T : Z) (s : state) : state :=
  let s := turns (length (Timers.pending (timers s))) T s in
  with_timers (Timers.at_time T (timers s)) s.

(** An element that has not glitched yet, at time [t]. *)
Definition still (t : Z) : state := mkState false [] [] 0 0 (Timers.empty t).

(** Has the timeout of call [n] run, among [p], by [T]? *)
Definition ended (T : Z) (n : nat) (p : list (Timers.timer callback)) : bool :=
  existsb (fun tm => match Timers.callback tm with
                     | EndGlitch m => (m =? n)%nat && (Timers.due tm <=? T)
                     end) p.

(** Has any timeout run by [T]? *)
Definition any_ended (T : Z) (p : list (Timers.timer callback)) : bool :=
  existsb (fun tm => Timers.due tm <=? T) p.

End Glitch.

(** ** Ripples and mouse particles

    [createRippleEffect] and [createMouseParticle] append an element,
    add their keyframes if the document has none yet, and remove the
    element after a fixed time. *)

Module Transient.
Section Lifetime.
(** What an element is made with: its inline style. *)
Context {A : Type}.
(** 600 ms for a ripple, 1000 ms for a mouse particle. *)
Variable life : Z.

(** The closure of the timeout of element [i]. *)
Inductive callback := Remove (i : nat).

Record state := mkState {
  attached : list (A * bool);     (* every element made: is it in the page? *)
  styles : nat;                   (* style elements with the effect's id *)
  timers : Timers.queue callback
}.

Definition create (a : A) (s : state) : state :=
  let i := length (attached s) in
  let '(_, q) := Timers.setTimeout (Remove i) life (timers s) in
  mkState (attached s ++ [(a, true)])
          (if (styles s =? 0)%nat then 1%nat else styles s) q.

Definition fire (cb : callback) (s : state) : state :=
  match cb with
  | Remove i =>
      mkState (alter (fun e => (fst e, false)) i (attached s)) (styles s) (timers s)
  end.

Definition turn (T : Z) (s : state) : option state :=
  match Timers.take (timers s) with
  | Some (tm, q) =>
      if Timers.due tm <=? T
      then Some (fire (Timers.callback tm) (mkState (attached s) (styles s) q))
      else None
  | None => None
  end.

Fixpoint turns (fuel : nat) (T : Z) (s : state) : state :=
  match fuel with
  | O => s
  | S k => match turn T s with Some s' => turns k T s' | None => s end
  end.

Definition run_until (T : Z) (s : state) : state :=
  let s := turns (length (Timers.pending (timers s))) T s in
  mkState (attached s) (styles s) (Timers.at_time T (timers s)).

(** Elements made at the given times, in order. *)
Fixpoint play (made : list (Z * A)) (s : state) : state :=
  match made with
  | [] => s
  | e :: r => play r (create (snd e) (run_until (fst e) s))
  end.

Definition fresh (t : Z) : state := mkState [] 0 (Timers.empty t).

Fixpoint ascending (t0 : Z) (made : list (Z * A)) : Prop :=
  match made with
  | [] => True
  | e :: r => t0 <= fst e /\ ascending (fst e) r
  end.

(** Has the timeout of element [i] run, among [p], by [T]? *)
Definition removed (T : Z) (i : nat) (p : list (Timers.timer callback)) : bool :=
  existsb (fun tm => match Timers.callback tm with
                     | Remove j => (j =? i)%nat && (Timers.due tm <=? T)
                     end) p.

(** The timers of the elements made at [times], the first having index
    and handle from [i]. *)
Fixpoint scheduled (i : nat) (made : list (Z * A)) : list (Timers.timer callback) :=
  match made with
  | [] => []
  | e :: r => Timers.mkTimer (S i) (fst e + life) None (Remove i) :: scheduled (S i) r
  end.

(** The page at time [t], [times] being the elements made so far. *)
Definition at_time (t : Z) (made : list (Z * A)) (s : state) : Prop :=
  Timers.now (timers s) = t /\
  Timers.next_handle (timers s) = S (length made) /\
  Timers.pending (timers s)
  = List.filter (fun tm => t <? Timers.due tm) (scheduled 0 made) /\
  attached s = List.map (fun e => (snd e, t <? fst e + life)) made /\
  styles s = (if (length made =? 0)%nat then 0%nat else 1%nat).

End Lifetime.
Arguments state : clear implicits.
End Transient.

(** ** One-shot observers, by batches

    The browser calls the callback of an [IntersectionObserver] with the
    entries queued since the last call.  They are entries of targets the
    observer observed when they were queued, and still does when the call
    starts, as the script calls [unobserve] from the callback only.  One
    target can have several entries in a batch, and [unobserve] does not
    take the later ones out of the batch the callback is going through. *)

Module ObserverBatches.
Import Observer.

Section Batches.
Context {E : Type}.
Variable effect : E -> E.

(** The entries of a batch that the observer can hold when the callback
    is called in state [s]. *)
Definition reported (s : state E) (batch : list entry) : list entry :=
  filter (fun e => target e ∈ observed s) batch.

(** One call of the callback. *)
Definition report (s : state E) (batch : list entry) : state E :=
  callback effect (reported s batch) s.

Definition reports (batches : list (list entry)) (s : state E) : state E :=
  foldl report s batches.

(** The intersecting entries of [el] in a batch. *)
Definition hits (el : nat) (batch : list entry) : nat :=
  length (filter (fun e => target e = el /\ isIntersecting e = true) batch).

(** The intersecting entries of [el] in the first batch that has one. *)
Fixpoint first_hits (el : nat) (batches : list (list entry)) : nat :=
  match batches with
  | [] => O
  | b :: r => match hits el b with O => first_hits el r | S n => S n end
  end.

End Batches.

End ObserverBatches.

(** * Properties *)

(** ** Theme system *)

Section ThemeFacts.
Import Theme.

Lemma updateThemeSwitcher_keeps p :
  currentTheme (state (updateThemeSwitcher p)) = currentTheme p /\
  data_theme (state (updateThemeSwitcher p)) = data_theme p.
Proof.
  unfold updateThemeSwitcher.
  destruct (themeSwitcher p) as [[t|]|]; simpl; auto.
Qed.

Lemma initializeTheme_applies p :
  currentTheme (state (initializeTheme p)) = currentTheme p /\
  data_theme (state (initializeTheme p)) = Some (currentTheme p).
Proof.
  unfold initializeTheme.
  destruct (updateThemeSwitcher_keeps (setAttribute (currentTheme p) p)) as [Hc Hd].
  destruct (updateThemeSwitcher (setAttribute (currentTheme p) p)) as [q|q];
    simpl in *; [|auto].
  destruct (themeSwitcher q), (os_dark q); simpl; auto.
Qed.

(** C1, as the code has it: at start-up the active theme is the stored
    preference when there is a non-empty one, else dark, whatever the OS
    preference is; it is written to the [data-theme] attribute of the
    document root, also when the switch has no thumb and the call throws.
    In particular, with nothing stored the theme is dark. *)
Theorem theme_startup_stored_else_dark
  (st : option jsstring) (os : option bool) (sw : option (option jsstring)) :
  let p := state (startup st os sw) in
  currentTheme p = or_else st (js "dark") /\
  data_theme p = Some (currentTheme p) /\
  (st = None \/ st = Some [] ->
   currentTheme p = js "dark" /\ data_theme p = Some (js "dark")).
Proof.
  intros p. subst p. unfold startup.
  destruct (initializeTheme_applies (load (fresh st os sw))) as [Hc Hd].
  rewrite Hd, Hc. simpl. split; [reflexivity|]. split; [reflexivity|].
  intros [-> | ->]; simpl; auto.
Qed.

(** C1, where the stated precedence fails: with nothing stored and an OS
    preference for light, start-up yields dark, not the OS preference. *)
Lemma theme_startup_ignores_os_preference :
  currentTheme (state (startup None (Some false) None)) = js "dark" /\
  spec_theme None (Some false) = js "light" /\
  currentTheme (state (startup None (Some false) None))
    <> spec_theme None (Some false).
Proof. repeat split; try reflexivity. vm_compute. discriminate. Qed.

(** The OS preference is followed only later, when it changes while
    nothing is stored. *)
Lemma system_change_followed_when_nothing_stored os sw matches :
  let p := state (startup None os sw) in
  currentTheme (state (handleSystemThemeChange matches p))
  = (if matches then js "dark" else js "light").
Proof.
  intros p. subst p. unfold handleSystemThemeChange.
  assert (Hs : stored (state (startup None os sw)) = None).
  { unfold startup, initializeTheme.
    destruct sw as [[t|]|], os; reflexivity. }
  rewrite Hs.
  match goal with |- currentTheme (state (updateThemeSwitcher ?q)) = _ =>
    destruct (updateThemeSwitcher_keeps q) as [-> _] end.
  reflexivity.
Qed.

End ThemeFacts.


(** ** Typing animation *)

Section TypingFacts.
Import Typing.

(** C4: [typeText] as a state machine.  While typing, the text grows by
    one character, and when [charIndex] reaches the length of the current
    text the next delay is 2000 ms and the machine turns to deleting,
    otherwise the delay is 100 ms.  While deleting, the text shrinks by
    one character, and when [charIndex] reaches 0 the machine turns to
    typing, [textIndex] advances modulo the length of the playlist and the
    delay is 500 ms, otherwise the delay is 50 ms.  For the playlist
    ["AB"] the texts shown are "A", "AB", "A", "", "A", with [textIndex]
    back at 0, and the calls happen 1000, 1100, 3100, 3150 and 3650 ms
    after initialization. *)
Theorem typing_state_machine :
  (forall (playlist : list jsstring) (c : closure) (currentText : jsstring),
      playlist !! textIndex c = Some currentText ->
      exists t, typeText playlist c = Some t /\
        (isDeleting c = false ->
           shown t = JsString.substring0 currentText (charIndex c + 1) /\
           charIndex (next t) = charIndex c + 1 /\
           textIndex (next t) = textIndex c /\
           (charIndex c + 1 = Z.of_nat (length currentText) ->
              typeSpeed t = 2000 /\ isDeleting (next t) = true) /\
           (charIndex c + 1 <> Z.of_nat (length currentText) ->
              typeSpeed t = 100 /\ isDeleting (next t) = false)) /\
        (isDeleting c = true ->
           shown t = JsString.substring0 currentText (charIndex c - 1) /\
           charIndex (next t) = charIndex c - 1 /\
           (charIndex c - 1 = 0 ->
              typeSpeed t = 500 /\ isDeleting (next t) = false /\
              textIndex (next t) = ((textIndex c + 1) mod length playlist)%nat) /\
           (charIndex c - 1 <> 0 ->
              typeSpeed t = 50 /\ isDeleting (next t) = true /\
              textIndex (next t) = textIndex c))) /\
  ticks [js "AB"] 5 initial
    = [(js "A", 100); (js "AB", 2000); (js "A", 50); ([], 500); (js "A", 100)] /\
  after [js "AB"] 4 initial = Some (mkClosure 0 0 false) /\
  fst (run [js "AB"] 5 (initializeTypingAnimation (fresh 0 (Some []))))
    = [(1000, Some (js "A")); (1100, Some (js "AB")); (3100, Some (js "A"));
       (3150, Some []); (3650, Some (js "A"))].
Proof.
  split; [|repeat split; vm_compute; reflexivity].
  intros playlist c currentText Hcur. unfold typeText. rewrite Hcur.
  destruct (isDeleting c) eqn:Hdel; simpl.
  - destruct (Z.eqb_spec (charIndex c - 1) 0) as [Hz | Hz];
      eexists; (split; [reflexivity|]); simpl;
      (split; [discriminate|]); intros _; repeat split; auto; intros; lia.
  - destruct (Z.eqb_spec (charIndex c + 1) (Z.of_nat (length currentText))) as [Hz | Hz];
      eexists; (split; [reflexivity|]); simpl;
      (split; [|discriminate]); intros _; repeat split; auto; intros; lia.
Qed.

(** The machine on the first entry of the playlist of the page. *)
Example typing_first_text :
  List.map fst (ticks texts 3 initial) = [js "F"; js "Fu"; js "Ful"].
Proof. vm_compute. reflexivity. Qed.

(** *** The running flag *)

Lemma take_single {A} (q q' : Timers.queue A) tm :
  (length (Timers.pending q) <= 1)%nat ->
  Forall (fun tm => Timers.every tm = None) (Timers.pending q) ->
  Timers.take q = Some (tm, q') ->
  Timers.pending q = [tm] /\ Timers.pending q' = [].
Proof.
  intros Hlen Hev. unfold Timers.take.
  destruct (Timers.pending q) as [|t [|u r]] eqn:Hp; simpl in *; try lia.
  - discriminate.
  - inversion Hev as [|? ? Ht _]; subst. rewrite Ht.
    intros [= <- <-]. simpl. auto.
Qed.

Lemma initialize_single_chain s :
  single_chain s -> single_chain (initializeTypingAnimation s).
Proof.
  intros [(Hr & Hc & Hp) | (Hr & Hc & Hl & Hf)]; unfold initializeTypingAnimation.
  - rewrite Hr. destruct (typingText s); simpl.
    + right. rewrite Hc, Hp. simpl. repeat split; auto.
    + left. auto.
  - rewrite Hr, orb_true_r. right. auto.
Qed.

Lemma fire_single_chain playlist s tm q :
  single_chain s -> Timers.take (timers s) = Some (tm, q) ->
  single_chain (fire playlist (Timers.callback tm) (with_timers q s)).
Proof.
  intros [(Hr & Hc & Hp) | (Hr & Hc & Hl & Hf)] Htake.
  - unfold Timers.take in Htake. rewrite Hp in Htake. discriminate.
  - destruct (take_single _ _ _ Hl (Forall_impl _ _ _ Hf (fun _ H => proj1 H)) Htake)
      as [Hp Hq].
    rewrite Hp in Hf. inversion Hf as [|? ? [_ Hcb] _]; subst.
    rewrite Hcb. unfold fire, with_timers; simpl.
    destruct (closures s) as [|c [|c' r]] eqn:Hcl; simpl in Hc; try lia.
    simpl. destruct (typeText playlist c) as [t|]; simpl.
    + right. rewrite Hq. simpl. repeat split; auto.
    + right. simpl. rewrite Hq. repeat split; auto.
Qed.

Lemma reachable_single_chain playlist s s' :
  single_chain s -> rtc (step playlist) s s' -> single_chain s'.
Proof.
  intros Hs Hrtc. induction Hrtc as [|s1 s2 s3 Hstep _ IH]; [assumption|].
  apply IH. destruct Hstep.
  - eapply fire_single_chain; eauto.
  - apply initialize_single_chain; assumption.
Qed.

(** C8: [initializeTypingAnimation] is idempotent.  While the flag is set
    a call changes nothing, so calling twice is calling once; and whatever
    timers run and however often the function is called again, there is
    one closure at most and one pending timer at most: no second chain. *)
Theorem typing_initialize_idempotent (playlist : list jsstring) :
  (forall s, typingAnimationRunning s = true ->
             initializeTypingAnimation s = s) /\
  (forall s, initializeTypingAnimation (initializeTypingAnimation s)
             = initializeTypingAnimation s) /\
  (forall t el s, rtc (step playlist) (fresh t el) s ->
     (length (closures s) <= 1)%nat /\
     (length (Timers.pending (timers s)) <= 1)%nat).
Proof.
  assert (Hnoop : forall s, typingAnimationRunning s = true ->
                            initializeTypingAnimation s = s).
  { intros s Hr. unfold initializeTypingAnimation. rewrite Hr, orb_true_r.
    reflexivity. }
  split; [exact Hnoop|]. split.
  - intros s.
    assert (Hcases : typingAnimationRunning (initializeTypingAnimation s) = true \/
                     initializeTypingAnimation s = s).
    { unfold initializeTypingAnimation.
      destruct (typingText s), (typingAnimationRunning s); simpl; auto. }
    destruct Hcases as [Hr | Hid].
    + apply Hnoop. assumption.
    + rewrite Hid. assumption.
  - intros t el s Hreach.
    assert (Hs : single_chain s).
    { eapply reachable_single_chain; [|exact Hreach]. left. simpl. auto. }
    destruct Hs as [(Hr & Hc & Hp) | (Hr & Hc & Hl & Hf)].
    + rewrite Hc, Hp. simpl. lia.
    + lia.
Qed.

End TypingFacts.

(** ** One-shot viewport observers *)

Section ObserverFacts.
Import Observer.
Context {E : Type} (effect : E -> E).

Lemma invocations_app el (s : state E) (l : list nat) :
  length (filter (fun x => x = el) (invoked s ++ l))
  = (invocations el s + length (filter (fun x => x = el) l))%nat.
Proof. unfold invocations. rewrite filter_app. rewrite length_app. reflexivity. Qed.

(** A crossing of an element that is not observed does nothing; a
    crossing of another element leaves [el] as it is. *)
Lemma crossing_unobserved (s : state E) (e : entry) (el : nat) :
  el ∉ observed s ->
  (el ∉ observed (crossing effect s e)) /\
  invocations el (crossing effect s e) = invocations el s /\
  elements (crossing effect s e) !! el = elements s !! el.
Proof.
  intros Hel. unfold crossing.
  destruct (bool_decide (target e ∈ observed s)) eqn:Hobs; [|auto].
  apply bool_decide_eq_true in Hobs.
  assert (Hne : target e <> el) by (intros Heq; rewrite Heq in Hobs; contradiction).
  unfold callback; simpl. unfold on_entry.
  destruct (isIntersecting e); [|auto]. simpl.
  split; [intros [Hin _]%elem_of_difference; contradiction|]. split.
  - unfold invocations at 1; simpl. rewrite invocations_app. simpl.
    rewrite filter_cons_False, filter_nil by assumption. simpl. lia.
  - rewrite lookup_alter_ne by assumption. reflexivity.
Qed.

Lemma crossings_unobserved (l : list entry) (s : state E) (el : nat) :
  el ∉ observed s ->
  (el ∉ observed (crossings effect l s)) /\
  invocations el (crossings effect l s) = invocations el s /\
  elements (crossings effect l s) !! el = elements s !! el.
Proof.
  revert s. induction l as [|e l IH]; intros s Hel; [simpl; auto|].
  destruct (crossing_unobserved s e el Hel) as (H1 & H2 & H3).
  destruct (IH _ H1) as (K1 & K2 & K3).
  unfold crossings in *; simpl. rewrite <- H2, <- H3. auto.
Qed.

(** C9: a one-shot subscription fires once.  When an observed element
    first crosses into view the callback acts on it once and unobserves
    it; after that, whatever crossings follow, of this element or of
    others, the callback never acts on it again and the element stays as
    the first call left it. *)
Theorem once_subscription_fires_once
  (s : state E) (el : nat) (later : list entry) :
  el ∈ observed s ->
  let s1 := crossing effect s (mkEntry el true) in
  invocations el s1 = S (invocations el s) /\
  elements s1 !! el = effect <$> elements s !! el /\
  (el ∉ observed s1) /\
  invocations el (crossings effect later s1) = invocations el s1 /\
  elements (crossings effect later s1) !! el = elements s1 !! el /\
  el ∉ observed (crossings effect later s1).
Proof.
  intros Hel s1.
  assert (H1 : invocations el s1 = S (invocations el s) /\
               elements s1 !! el = effect <$> elements s !! el /\
               (el ∉ observed s1)).
  { subst s1. unfold crossing. rewrite bool_decide_eq_true_2 by assumption.
    unfold callback; simpl. unfold on_entry; simpl. split; [|split].
    - unfold invocations at 1; simpl. rewrite invocations_app. simpl.
      rewrite filter_cons_True, filter_nil by reflexivity. simpl. lia.
    - apply lookup_alter_eq.
    - intros [_ Hnot]%elem_of_difference. apply Hnot, elem_of_singleton. reflexivity. }
  destruct H1 as (Ha & Hb & Hc).
  destruct (crossings_unobserved later s1 el Hc) as (K1 & K2 & K3).
  repeat split; assumption.
Qed.

End ObserverFacts.

(** The theorem at the two observers of the script: a stat value entering
    the viewport twice is animated once, and an image is loaded once. *)
Lemma once_subscription_fires_once_witness :
  let stats := Observer.setup {[ 0%nat := Counter.element 0 (js "42+") ]} in
  let s1 := Observer.crossing Counter.animateStatValue stats (Observer.mkEntry 0 true) in
  let again := [Observer.mkEntry 0 false; Observer.mkEntry 0 true] in
  (0%nat ∈ Observer.observed stats) /\
  Observer.invocations 0 s1 = 1%nat /\
  Observer.invocations 0 (Observer.stats_crossings again s1) = 1%nat.
Proof.
  assert (Hobs : 0%nat ∈ Observer.observed
            (Observer.setup {[ 0%nat := Counter.element 0 (js "42+") ]})).
  { unfold Observer.setup; simpl. set_solver. }
  pose proof (once_subscription_fires_once Counter.animateStatValue _ 0%nat
                [Observer.mkEntry 0 false; Observer.mkEntry 0 true] Hobs)
    as (H1 & _ & _ & H4 & _).
  split; [exact Hobs|]. split; [exact H1|].
  unfold Observer.stats_crossings. rewrite H4. exact H1.
Defined.


(** ** Matrix background *)

Section MatrixFacts.
Import Matrix.

Lemma draw_columns_length height rnd ds : forall k i,
  length (snd (fst (draw_columns height rnd k i ds))) = length ds.
Proof.
  induction ds as [|d r IH]; intros k i; simpl; [reflexivity|].
  destruct (draw_column height rnd k i d) as [[g d'] k'].
  specialize (IH k' (i + 1)).
  destruct (draw_columns height rnd k' (i + 1) r) as [[gs r'] k''].
  simpl in *. congruence.
Qed.

Lemma drawMatrix_columns s : length (drops (drawMatrix s)) = length (drops s).
Proof.
  unfold drawMatrix.
  pose proof (draw_columns_length (canvas_height s) (random s) (drops s) (drawn s) 0) as H.
  destruct (draw_columns (canvas_height s) (random s) (drawn s) 0 (drops s))
    as [[gs ds] k]. exact H.
Qed.

Lemma fire_columns cb s : length (drops (fire cb s)) = length (drops s).
Proof. destruct cb; simpl; [apply drawMatrix_columns | reflexivity]. Qed.

Lemma on_resize_columns t w h s : drops (on_resize t w h s) = drops s.
Proof.
  unfold on_resize, debounced_resize; simpl.
  destruct (resize_timeout s); reflexivity.
Qed.

Lemma step_columns s s' : step s s' -> length (drops s') = length (drops s).
Proof.
  intros [s0 tm q _ | s0 t w h _ _ _ _].
  - rewrite fire_columns. reflexivity.
  - rewrite on_resize_columns. reflexivity.
Qed.

Lemma steps_columns s s' : rtc step s s' -> length (drops s') = length (drops s).
Proof.
  induction 1 as [|s1 s2 s3 Hstep _ IH]; [reflexivity|].
  rewrite IH. apply step_columns. exact Hstep.
Qed.

Lemma initialize_columns t w h rnd :
  drops (initializeMatrixBackground t w h rnd) = repeat 0 (Z.to_nat (columns_of w)) /\
  canvas_width (initializeMatrixBackground t w h rnd) = w.
Proof. split; reflexivity. Qed.

Lemma run_steps n : forall s, rtc step s (run n s).
Proof.
  induction n as [|n IH]; intros s; simpl; [apply rtc_refl|].
  destruct (Timers.take (timers s)) as [[tm q]|] eqn:Htake; [|apply rtc_refl].
  eapply rtc_l; [apply step_timer; exact Htake | apply IH].
Qed.

Lemma widened_reachable : reachable 0 400 300 (fun _ => half) widened.
Proof.
  unfold reachable, widened.
  eapply rtc_l; [|apply run_steps].
  apply step_resize; [vm_compute; discriminate | reflexivity | lia | lia].
Qed.

(** The columns are computed once.  When the background is initialized
    the column count is the floor of the first canvas width over 20, with
    every row at 0.  The debounced resize gives the canvas the size of
    the window and touches neither the number of columns nor any row: in
    every state the page can reach, the column count is still the one
    computed from the first width, whatever the canvas width is by
    then. *)
Theorem matrix_columns_fixed_at_initialization
  (t w h : Z) (rnd : nat -> number) (s : state) :
  0 <= w -> reachable t w h rnd s ->
  columns_match_width (initializeMatrixBackground t w h rnd) /\
  Forall (fun d => d = 0) (drops (initializeMatrixBackground t w h rnd)) /\
  Z.of_nat (length (drops s)) = columns_of w /\
  drops (later s) = drops s /\
  canvas_width (later s) = innerWidth s /\
  canvas_height (later s) = innerHeight s.
Proof.
  intros Hw Hreach.
  destruct (initialize_columns t w h rnd) as [Hd Hc].
  assert (Hcols : 0 <= columns_of w) by (unfold columns_of; apply Z.div_pos; lia).
  assert (Hinit : Z.of_nat (length (drops (initializeMatrixBackground t w h rnd)))
                  = columns_of w).
  { rewrite Hd, repeat_length. lia. }
  split; [unfold columns_match_width; rewrite Hc; exact Hinit|].
  split; [rewrite Hd; apply List.Forall_forall; intros d Hin;
          apply repeat_spec in Hin; exact Hin|].
  split; [|repeat split; reflexivity].
  unfold reachable in Hreach. rewrite <- Hinit. f_equal.
  apply steps_columns. exact Hreach.
Qed.

(** C2, where the stated invariant fails: the window was 400 pixels wide
    and is widened to 800; once the debounced handler has run the canvas
    is 800 wide and there are still 20 columns, not 40, and the rows were
    not reset. *)
Lemma matrix_resize_keeps_columns :
  reachable 0 400 300 (fun _ => half) widened /\
  canvas_width widened = 800 /\
  length (drops widened) = 20%nat /\
  drops widened = repeat 5 20 /\
  ~ columns_match_width widened.
Proof.
  split; [exact widened_reachable|].
  repeat split; try (vm_compute; reflexivity).
  unfold columns_match_width. vm_compute. discriminate.
Qed.

Lemma matrix_columns_fixed_at_initialization_witness :
  0 <= 400 /\ reachable 0 400 300 (fun _ => half) widened /\
  Z.of_nat (length (drops widened)) = columns_of 400.
Proof.
  split; [lia|]. split; [exact widened_reachable|].
  apply (matrix_columns_fixed_at_initialization 0 400 300 (fun _ => half) widened);
    [lia | exact widened_reachable].
Defined.

(** The frame drawn next on the widened canvas: twenty glyphs, none right
    of x = 380 on a canvas 800 wide. *)
Lemma matrix_widened_paints_left_half :
  canvas_width (run 1 widened) = 800 /\
  length (painted (run 1 widened)) = 20%nat /\
  forallb (fun g => g_x g <=? 380) (painted (run 1 widened)) = true.
Proof. split; [|split]; vm_compute; reflexivity. Qed.

End MatrixFacts.


(** ** Count-up animation *)

Section CounterFacts.
Import Counter.

(** Once no timer is left, running longer changes nothing. *)
Lemma run_finished n : forall s k,
  Timers.take (timers (snd (run n s))) = None -> run (n + k) s = run n s.
Proof.
  induction n as [|n IH]; intros s k Hdone; simpl in *.
  - destruct k; simpl; [reflexivity|]. rewrite Hdone. reflexivity.
  - destruct (Timers.take (timers s)) as [[tm q]|] eqn:Htake; [|reflexivity].
    specialize (IH (fire (Timers.callback tm) (with_timers q s)) k).
    destruct (run n (fire (Timers.callback tm) (with_timers q s))) as [l s''].
    simpl in *. rewrite IH by assumption. reflexivity.
Qed.

(** C3, as the code has it: for the text "42+" the animation has exactly
    50 frames, 40 ms apart, the last at 2000 ms; each shows the floor of
    the running value followed by "+"; the first is "0+" and the last is
    "42+"; the values shown never decrease, and the timer is cleared at
    the last frame, so nothing is shown afterwards. *)
Theorem counter_42_plus_frames :
  let fs := frames 50 (js "42+") in
  length fs = 50%nat /\
  List.map fst fs = List.map (fun k => stepTime * Z.of_nat k) (seq 1 50) /\
  List.map snd fs = List.map (fun v => JsNumber.decimal v ++ js "+") shown_42 /\
  head fs = Some (40, js "0+") /\
  last fs = Some (2000, js "42+") /\
  nondecreasing (values fs) = true /\
  Timers.pending (timers (shown_after 50 (js "42+"))) = [] /\
  (forall k, frames (50 + k) (js "42+") = fs).
Proof.
  intros fs. subst fs.
  do 7 (split; [vm_compute; reflexivity|]).
  intros k. unfold frames. rewrite run_finished; [reflexivity|].
  vm_compute. reflexivity.
Qed.

(** C3, where the stated property fails: the values shown for "42+" are
    not strictly increasing; the sixth and the seventh frame both show
    "5+" (the running value is 5.04, then 5.88). *)
Lemma counter_42_plus_repeats :
  strictly_increasing (values (frames 50 (js "42+"))) = false /\
  frames 50 (js "42+") !! 5%nat = Some (240, js "5+") /\
  frames 50 (js "42+") !! 6%nat = Some (280, js "5+").
Proof. repeat split; vm_compute; reflexivity. Qed.

End CounterFacts.

(** ** The text of a number never ends in a plus sign *)

Section NumberFacts.
Import JsNumber.

Lemma plain_end_last s : JsString.plain_end s -> last s <> Some 43.
Proof.
  intros (p & q & -> & Hq & Hall).
  destruct (exists_last Hq) as (q' & c & ->).
  rewrite app_assoc, last_snoc.
  apply Forall_app in Hall as [_ Hc]. inversion Hc; subst. congruence.
Qed.

Lemma plain_end_prefix p s : JsString.plain_end s -> JsString.plain_end (p ++ s).
Proof.
  intros (p' & q & -> & Hq & Hall). exists (p ++ p'), q.
  rewrite app_assoc. auto.
Qed.

Lemma plain_end_suffix p q :
  q <> [] -> Forall (fun c => c <> 43) q -> JsString.plain_end (p ++ q).
Proof. intros Hq Hall. exists p, q. auto. Qed.

Lemma plain_end_whole q :
  q <> [] -> Forall (fun c => c <> 43) q -> JsString.plain_end q.
Proof. intros Hq Hall. exists [], q. auto. Qed.

Lemma digit_char_plain n : digit_char (n mod 10) <> 43.
Proof.
  unfold digit_char. pose proof (Z.mod_pos_bound n 10 ltac:(lia)). lia.
Qed.

Lemma digits_acc_plain fuel : forall n acc,
  Forall (fun c => c <> 43) acc ->
  Forall (fun c => c <> 43) (digits_acc fuel n acc) /\ digits_acc fuel n acc <> [].
Proof.
  induction fuel as [|f IH]; intros n acc Hacc; simpl.
  - split; [constructor; [apply digit_char_plain | assumption] | discriminate].
  - destruct (n <? 10).
    + split; [constructor; [apply digit_char_plain | assumption] | discriminate].
    + apply IH. constructor; [apply digit_char_plain | assumption].
Qed.

Lemma decimal_plain n :
  Forall (fun c => c <> 43) (decimal n) /\ decimal n <> [].
Proof. apply digits_acc_plain. constructor. Qed.

Lemma zeros_plain n : Forall (fun c => c <> 43) (zeros n).
Proof.
  unfold zeros. apply List.Forall_forall. intros c Hin.
  apply repeat_spec in Hin. subst. discriminate.
Qed.

Lemma plain_app a b :
  Forall (fun c : Z => c <> 43) a -> Forall (fun c : Z => c <> 43) b ->
  Forall (fun c : Z => c <> 43) (a ++ b).
Proof. intros Ha Hb. apply Forall_app. auto. Qed.

Lemma plain_dot : Forall (fun c : Z => c <> 43) (js ".").
Proof. repeat constructor; discriminate. Qed.

Lemma plain_zero_dot : Forall (fun c : Z => c <> 43) (js "0.").
Proof. repeat constructor; discriminate. Qed.

Lemma plain_skipn n (l : jsstring) :
  Forall (fun c => c <> 43) l -> Forall (fun c => c <> 43) (skipn n l).
Proof. intros H. apply Forall_drop. exact H. Qed.

Lemma exponent_text_plain_end p e : JsString.plain_end (p ++ exponent_text e).
Proof.
  unfold exponent_text. rewrite app_assoc.
  destruct (decimal_plain (Z.abs e)). apply plain_end_suffix; assumption.
Qed.

Lemma positive_toString_plain_end m e : JsString.plain_end (positive_toString m e).
Proof.
  unfold positive_toString.
  destruct (fraction m e) as [p q].
  destruct (shortest 20 (S754_finite false m e) p q (decimal_exponent p q) 1) as [s0 k].
  destruct (if s0 =? 10 ^ k then (10 ^ (k - 1), decimal_exponent p q + 1)
            else (s0, decimal_exponent p q)) as [s n].
  destruct (decimal_plain s) as [Hds Hne].
  repeat match goal with |- context [if ?b then _ else _] => destruct b end.
  - apply plain_end_whole.
    + destruct (decimal s); [contradiction | discriminate].
    + apply plain_app; [assumption | apply zeros_plain].
  - apply plain_end_suffix; [discriminate|].
    apply plain_app; [apply plain_dot | apply plain_skipn; assumption].
  - apply plain_end_whole; [discriminate|].
    apply plain_app; [apply plain_zero_dot|].
    apply plain_app; [apply zeros_plain | assumption].
  - rewrite app_assoc. apply exponent_text_plain_end.
  - rewrite !app_assoc. apply exponent_text_plain_end.
Qed.

Lemma toString_plain_end x : JsString.plain_end (toString x).
Proof.
  destruct x as [s| s | |s m e]; simpl.
  - apply plain_end_whole; [discriminate | repeat constructor; discriminate].
  - apply plain_end_prefix, plain_end_whole;
      [discriminate | repeat constructor; discriminate].
  - apply plain_end_whole; [discriminate | repeat constructor; discriminate].
  - apply plain_end_prefix, positive_toString_plain_end.
Qed.

(** [toFixed] ends in a digit or a letter, never in a plus sign. *)
Lemma toFixed_plain_end x : JsString.plain_end (toFixed x 2).
Proof.
  destruct x as [s| s | |s m e].
  - apply plain_end_whole; [discriminate | repeat constructor; discriminate].
  - apply (toString_plain_end (S754_infinity s)).
  - apply (toString_plain_end S754_nan).
  - unfold toFixed. destruct (fraction m e) as [p q].
    destruct (10 ^ 21 * q <=? p);
      [apply plain_end_prefix, positive_toString_plain_end|].
    apply plain_end_prefix.
    set (n := (2 * p * 10 ^ 2 + q) / (2 * q)).
    set (ds0 := if n =? 0 then js "0" else decimal n).
    assert (Hds0 : Forall (fun c => c <> 43) ds0).
    { subst ds0. destruct (n =? 0); [repeat constructor; discriminate|].
      apply decimal_plain. }
    set (ds := if Z.of_nat (length ds0) <=? 2
               then zeros (2 + 1 - Z.of_nat (length ds0)) ++ ds0 else ds0).
    assert (Hds : Forall (fun c => c <> 43) ds).
    { subst ds. destruct (Z.of_nat (length ds0) <=? 2); [|assumption].
      apply plain_app; [apply zeros_plain | assumption]. }
    change (2 =? 0) with false. cbv iota.
    apply plain_end_suffix; [discriminate|].
    apply plain_app; [apply plain_dot | apply plain_skipn; assumption].
Qed.

Lemma toFixed_not_plus_ended x (text : jsstring) :
  last text = Some 43 -> toFixed x 2 <> text.
Proof.
  intros Hlast Heq. apply (plain_end_last _ (toFixed_plain_end x)).
  rewrite Heq. exact Hlast.
Qed.

End NumberFacts.

(** ** Count-up animation: the format of the frames *)

Section CounterFormat.
Import Counter.
Variable text : jsstring.
Hypothesis has_point : JsString.includes text 46 = true.

Lemma render_fixed cv : render text cv = JsNumber.toFixed cv 2.
Proof. unfold render. rewrite has_point. reflexivity. Qed.

(** The animation just started: one closure and its interval timer. *)
Lemma animateStatValue_started :
  JsNumber.isNaN (JsNumber.parseFloat text) = false ->
  exists c tm,
    closures (animateStatValue (element 0 text)) = [c] /\ finalValue c = text /\
    Timers.pending (timers (animateStatValue (element 0 text))) = [tm] /\
    Timers.callback tm = Tick 0.
Proof.
  intros Hnum. unfold animateStatValue; simpl. rewrite Hnum. simpl.
  eexists; eexists; repeat split.
Qed.

Lemma extract_In {A} (l : list (Timers.timer A)) : forall t r,
  Timers.extract l = Some (t, r) ->
  In t l /\ (forall x, In x r -> In x l).
Proof.
  induction l as [|a l IH]; intros t r He; simpl in He; [discriminate|].
  destruct (Timers.extract l) as [[u r']|].
  - destruct (IH u r' eq_refl) as [Hu Hr'].
    destruct (Timers.due u <? Timers.due a); inversion He; subst; simpl.
    + split; [right; exact Hu|]. intros x [-> | Hx]; auto.
    + split; [left; reflexivity|]. auto.
  - inversion He; subst. simpl. auto.
Qed.

Lemma take_callback {A} (P : A -> Prop) (q q' : Timers.queue A) tm :
  Forall (fun t => P (Timers.callback t)) (Timers.pending q) ->
  Timers.take q = Some (tm, q') ->
  P (Timers.callback tm) /\
  Forall (fun t => P (Timers.callback t)) (Timers.pending q').
Proof.
  intros Hall. unfold Timers.take.
  destruct (Timers.extract (Timers.pending q)) as [[t r]|] eqn:He; [|discriminate].
  destruct (extract_In _ _ _ He) as [Hin Hr].
  rewrite List.Forall_forall in Hall.
  assert (Ht : P (Timers.callback t)) by (apply Hall; exact Hin).
  intros [= <- <-]. split; [exact Ht|]. simpl.
  assert (Hrest : Forall (fun t0 => P (Timers.callback t0)) r).
  { rewrite List.Forall_forall. intros x Hx. apply Hall, Hr, Hx. }
  destruct (Timers.every t); [|exact Hrest].
  apply Forall_app. split; [exact Hrest|]. repeat constructor. exact Ht.
Qed.

(** A tick of a started animation shows the running value with two
    decimals. *)
Lemma tick_shows_fixed s c tm q :
  closures s = [c] -> finalValue c = text ->
  Forall (fun t => Timers.callback t = Tick 0) (Timers.pending (timers s)) ->
  Timers.take (timers s) = Some (tm, q) ->
  showing_fixed text (fire (Timers.callback tm) (with_timers q s)).
Proof.
  intros Hc Hf Hall Htake.
  destruct (take_callback (fun cb => cb = Tick 0) _ _ _ Hall Htake) as [Hcb Hq].
  rewrite Hcb. unfold fire, tick, with_timers; simpl. rewrite Hc. simpl.
  eexists. split; [reflexivity|]. simpl. split; [exact Hf|]. split.
  - rewrite Hf. apply render_fixed.
  - destruct (JsNumber.ge _ _); [|exact Hq].
    unfold Timers.clear; simpl. rewrite List.Forall_forall in *.
    intros x Hx. apply List.filter_In in Hx as [Hx _]. auto.
Qed.

Lemma run_showing_fixed n : forall s,
  showing_fixed text s ->
  showing_fixed text (snd (run n s)) /\
  Forall (fun f => exists cv, snd f = JsNumber.toFixed cv 2) (fst (run n s)).
Proof.
  induction n as [|n IH]; intros s Hs; simpl; [split; [assumption | constructor]|].
  destruct (Timers.take (timers s)) as [[tm q]|] eqn:Htake;
    [|split; [assumption | constructor]].
  destruct Hs as (c & Hc & Hf & _ & Hall).
  pose proof (tick_shows_fixed s c tm q Hc Hf Hall Htake) as Hs'.
  destruct (IH _ Hs') as [Hend Hfr].
  destruct (run n (fire (Timers.callback tm) (with_timers q s))) as [l s''].
  simpl in *. split; [assumption|]. constructor; [|assumption].
  destruct Hs' as (c' & _ & _ & Htext & _). simpl. eauto.
Qed.

(** From the first tick on the element shows a two-decimal text. *)
Lemma started_showing_fixed n :
  JsNumber.isNaN (JsNumber.parseFloat text) = false ->
  showing_fixed text (shown_after (S n) text) /\
  Forall (fun f => exists cv, snd f = JsNumber.toFixed cv 2) (frames (S n) text) /\
  frames (S n) text <> [].
Proof.
  intros Hnum. unfold shown_after, frames.
  destruct (animateStatValue_started Hnum) as (c & tm & Hc & Hf & Hp & Hcb).
  set (s0 := animateStatValue (element 0 text)) in *.
  assert (Hall : Forall (fun t => Timers.callback t = Tick 0)
                        (Timers.pending (timers s0))).
  { rewrite Hp. repeat constructor. exact Hcb. }
  simpl. destruct (Timers.take (timers s0)) as [[tm' q]|] eqn:Htake.
  - pose proof (tick_shows_fixed s0 c tm' q Hc Hf Hall Htake) as Hs'.
    destruct (run_showing_fixed n _ Hs') as [Hend Hfr].
    destruct (run n (fire (Timers.callback tm') (with_timers q s0))) as [l s''].
    simpl in *. split; [assumption|]. split; [|discriminate].
    constructor; [|assumption].
    destruct Hs' as (c' & _ & _ & Htext & _). simpl. eauto.
  - unfold Timers.take in Htake. rewrite Hp in Htake. simpl in Htake.
    destruct (Timers.every tm); discriminate.
Qed.

Lemma frames_fixed n :
  Forall (fun f => exists cv, snd f = JsNumber.toFixed cv 2) (frames n text).
Proof.
  destruct (JsNumber.isNaN (JsNumber.parseFloat text)) eqn:Hnum.
  - unfold frames, animateStatValue; simpl. rewrite Hnum.
    destruct n; simpl; constructor.
  - destruct n; [constructor|]. apply started_showing_fixed. exact Hnum.
Qed.

End CounterFormat.

(** C10, as the code has it: when the text of a stat element has a point,
    the point decides the format, whether or not a plus sign follows:
    every frame is the running value with two decimals.  When the text
    also ends in a plus sign and reads as a number, the animation shows at
    least one frame, and from the first frame on the element shows the
    two-decimal text of its running value, which never is the original
    text. *)
Theorem counter_point_before_plus (text : jsstring) (n : nat) :
  JsString.includes text 46 = true ->
  (forall cv, Counter.render text cv = JsNumber.toFixed cv 2) /\
  Forall (fun f => exists cv, snd f = JsNumber.toFixed cv 2)
         (Counter.frames n text) /\
  (last text = Some 43 ->
   Forall (fun f => snd f <> text) (Counter.frames n text) /\
   (JsNumber.isNaN (JsNumber.parseFloat text) = false ->
    Counter.frames (S n) text <> [] /\
    Counter.showing_fixed text (Counter.shown_after (S n) text) /\
    Counter.textContent (Counter.shown_after (S n) text) <> text)).
Proof.
  intros Hpoint. split; [apply render_fixed; exact Hpoint|].
  split; [apply frames_fixed; exact Hpoint|].
  intros Hplus. split.
  - eapply Forall_impl; [apply frames_fixed; exact Hpoint|].
    intros f (cv & ->). simpl. apply toFixed_not_plus_ended. exact Hplus.
  - intros Hnum.
    destruct (started_showing_fixed text Hpoint n Hnum) as (Hs & _ & Hne).
    split; [exact Hne|]. split; [exact Hs|].
    destruct Hs as (c & _ & _ & -> & _).
    apply toFixed_not_plus_ended. exact Hplus.
Qed.

(** The theorem at "3.5+": every frame has two decimals and no plus sign,
    and the last one, "3.50", is not the original text. *)
Lemma counter_point_before_plus_witness :
  JsString.includes (js "3.5+") 46 = true /\
  last (js "3.5+") = Some 43 /\
  JsNumber.isNaN (JsNumber.parseFloat (js "3.5+")) = false /\
  Counter.textContent (Counter.shown_after 51 (js "3.5+")) = js "3.50" /\
  Counter.textContent (Counter.shown_after 51 (js "3.5+")) <> js "3.5+".
Proof.
  split; [reflexivity|]. split; [reflexivity|]. split; [reflexivity|].
  split; [vm_compute; reflexivity|].
  apply (counter_point_before_plus (js "3.5+") 50 eq_refl); reflexivity.
Defined.

(** C10, where the stated property fails: ".+" has a point and ends in a
    plus sign, but it is not a number: no timer is set, no frame is shown,
    and the text stays the original one. *)
Lemma counter_unparsed_text_unchanged :
  JsString.includes (js ".+") 46 = true /\
  last (js ".+") = Some 43 /\
  Counter.animateStatValue (Counter.element 0 (js ".+")) = Counter.element 0 (js ".+") /\
  Counter.frames 50 (js ".+") = [] /\
  Counter.textContent (Counter.shown_after 50 (js ".+")) = js ".+".
Proof. repeat split; vm_compute; reflexivity. Qed.

(** ** Regular expressions: the matcher decides the language *)

Section RegexFacts.
Import Regex.

Lemma nullable_Matches r : nullable r = true <-> Matches r [].
Proof.
  split.
  - induction r as [| |p|a IHa b IHb|a IHa b IHb|a IHa]; simpl; intros H;
      try discriminate.
    + constructor.
    + apply andb_true_iff in H as [Ha Hb].
      change (@nil Z) with (@nil Z ++ []). constructor; auto.
    + apply orb_true_iff in H as [Ha | Hb];
        [apply MAltL | apply MAltR]; auto.
    + constructor.
  - remember [] as s eqn:Hs. intros H.
    induction H as [|p c Hp|a b s1 s2 H1 IH1 H2 IH2|a b s H IH|a b s H IH|a
                    |a s1 s2 H1 IH1 H2 IH2]; simpl; try reflexivity.
    + discriminate.
    + apply app_eq_nil in Hs as [-> ->]. rewrite IH1, IH2; reflexivity.
    + rewrite IH by assumption. reflexivity.
    + rewrite IH by assumption. apply orb_true_r.
Qed.

Lemma deriv_sound c r : forall s, Matches (deriv c r) s -> Matches r (c :: s).
Proof.
  induction r as [| |p|a IHa b IHb|a IHa b IHb|a IHa]; simpl; intros s H.
  - inversion H.
  - inversion H.
  - destruct (p c) eqn:Hp; inversion H; subst. constructor. exact Hp.
  - destruct (nullable a) eqn:Hn.
    + inversion H as [| | | ? ? ? H' | ? ? ? H' | |]; subst.
      * inversion H' as [| |? ? s1 s2 H1 H2| | | |]; subst.
        change (c :: s1 ++ s2) with ((c :: s1) ++ s2). constructor; auto.
      * change (c :: s) with ([] ++ c :: s). constructor; auto.
        apply nullable_Matches. exact Hn.
    + inversion H as [| |? ? s1 s2 H1 H2| | | |]; subst.
      change (c :: s1 ++ s2) with ((c :: s1) ++ s2). constructor; auto.
  - inversion H; subst; [apply MAltL | apply MAltR]; auto.
  - inversion H as [| |? ? s1 s2 H1 H2| | | |]; subst.
    change (c :: s1 ++ s2) with ((c :: s1) ++ s2). constructor; auto.
Qed.

Lemma deriv_complete c r s0 :
  Matches r s0 -> forall s, s0 = c :: s -> Matches (deriv c r) s.
Proof.
  intros H.
  induction H as [|p d Hp|a b s1 s2 H1 IH1 H2 IH2|a b s' H IH|a b s' H IH|a
                  |a s1 s2 H1 IH1 H2 IH2]; intros s Hs; simpl.
  - discriminate.
  - inversion Hs; subst. rewrite Hp. constructor.
  - destruct s1 as [|x s1'].
    + simpl in Hs. subst s2.
      apply nullable_Matches in H1. rewrite H1. apply MAltR. apply IH2. reflexivity.
    + simpl in Hs. inversion Hs; subst.
      destruct (nullable a); [apply MAltL|]; constructor; auto.
  - apply MAltL. auto.
  - apply MAltR. auto.
  - discriminate.
  - destruct s1 as [|x s1'].
    + simpl in Hs. apply IH2. exact Hs.
    + simpl in Hs. inversion Hs; subst. constructor; auto.
Qed.

Theorem test_Matches r s : test r s = true <-> Matches r s.
Proof.
  revert r. induction s as [|c s IH]; intros r; simpl.
  - apply nullable_Matches.
  - rewrite IH. split; [apply deriv_sound|].
    intros H. eapply deriv_complete; eauto.
Qed.

(** A string matched by [p+...] starts with a character of [p]. *)
Lemma Matches_Plus_first p r s :
  Matches (Seq (Plus (Class p)) r) s -> exists c s', s = c :: s' /\ p c = true.
Proof.
  intros H. inversion H as [| |? ? s1 s2 H1 H2| | | |]; subst.
  inversion H1 as [| |? ? s3 s4 H3 H4| | | |]; subst.
  inversion H3; subst. simpl. eauto.
Qed.

End RegexFacts.

(** ** Form validation *)

Section ValidationFacts.
Import Page.

Lemma trimStart_keeps_last l c :
  JsString.is_whitespace c = false -> JsString.trimStart (l ++ [c]) <> [].
Proof.
  intros Hc. induction l as [|x l IH]; simpl.
  - rewrite Hc. discriminate.
  - destruct (JsString.is_whitespace x); [exact IH | discriminate].
Qed.

(** What the pattern accepts has something left after trimming. *)
Lemma email_not_blank v :
  Regex.test emailPattern v = true -> JsString.trim v <> [].
Proof.
  intros H. apply test_Matches in H.
  apply Matches_Plus_first in H as (c & s & -> & Hc).
  assert (Hws : JsString.is_whitespace c = false).
  { unfold not_space_at in Hc. apply negb_true_iff, orb_false_iff in Hc. tauto. }
  unfold JsString.trim. simpl. rewrite Hws.
  unfold JsString.trimEnd. simpl. intros Hnil.
  apply (f_equal (@rev Z)) in Hnil. rewrite rev_involutive in Hnil. simpl in Hnil.
  revert Hnil. apply trimStart_keeps_last. exact Hws.
Qed.

Lemma truthy_false (v : jsstring) : v = [] -> JsString.truthy v = false.
Proof. intros ->. reflexivity. Qed.

Lemma truthy_true (v : jsstring) : v <> [] -> JsString.truthy v = true.
Proof. destruct v; [contradiction | reflexivity]. Qed.

Lemma validateField_check f :
  fst (validateField f) = fst (check f) /\
  f_value (snd (validateField f)) = f_value f /\
  group_error (snd (validateField f)) = negb (fst (check f)) /\
  error_message (snd (validateField f))
  = (if fst (check f) then None else Some (snd (check f))).
Proof.
  unfold validateField. destruct (check f) as [[|] msg]; simpl; auto.
Qed.

(** C5, as the code has it.  A required field whose value is empty after
    trimming is invalid; its message is "This field is required", unless
    the field is an email field with a non-empty (all-blank) value, where
    the later email check replaces the message.  An email field with a
    non-empty value is invalid exactly when the value fails the pattern;
    "a@b" is invalid and "a@b.com" is valid.  An invalid field gets the
    [error] class and the message, a valid one loses both. *)
Theorem validateField_required_and_email (f : field) :
  (f_required f = true -> JsString.trim (f_value f) = [] ->
   fst (validateField f) = false /\
   error_message (snd (validateField f))
   = Some (if JsString.eqb (f_type f) (js "email") && JsString.truthy (f_value f)
           then js "Please enter a valid email address"
           else js "This field is required")) /\
  (f_type f = js "email" -> f_value f <> [] ->
   (fst (validateField f) = false <-> Regex.test emailPattern (f_value f) = false)) /\
  (fst (validateField f) = false ->
   group_error (snd (validateField f)) = true /\
   exists message, error_message (snd (validateField f)) = Some message) /\
  (fst (validateField f) = true ->
   group_error (snd (validateField f)) = false /\
   error_message (snd (validateField f)) = None) /\
  (forall name req dflt err msg,
     fst (validateField (mkField name (js "email") req (js "a@b") dflt err msg)) = false /\
     fst (validateField (mkField name (js "email") req (js "a@b.com") dflt err msg)) = true).
Proof.
  destruct (validateField_check f) as (Hfst & _ & Hcls & Hmsg).
  rewrite Hfst, Hcls, Hmsg.
  split; [|split; [|split; [|split]]].
  - intros Hreq Hblank. unfold check. rewrite Hreq, (truthy_false _ Hblank). simpl.
    destruct (JsString.eqb (f_type f) (js "email") && JsString.truthy (f_value f));
      [|split; reflexivity].
    destruct (Regex.test emailPattern (f_value f)) eqn:Ht; [|split; reflexivity].
    apply email_not_blank in Ht. contradiction.
  - intros Hty Hv. unfold check. rewrite Hty, (truthy_true _ Hv).
    change (JsString.eqb (js "email") (js "email")) with true.
    destruct (f_required f && negb (JsString.truthy (JsString.trim (f_value f))))
      eqn:Hreq; simpl.
    + destruct (Regex.test emailPattern (f_value f)) eqn:Ht; simpl;
        [|split; reflexivity].
      pose proof (email_not_blank _ Ht) as Hne.
      rewrite (truthy_true _ Hne), andb_false_r in Hreq. discriminate.
    + destruct (Regex.test emailPattern (f_value f)) eqn:Ht; simpl;
        split; auto.
  - intros Hinv. rewrite Hinv. simpl. eauto.
  - intros Hval. rewrite Hval. simpl. auto.
  - intros name req dflt err msg. destruct req; split; vm_compute; reflexivity.
Qed.

(** C5, where the stated message fails: a required email field holding a
    single no-break space is empty after trimming, and its message is the
    one of the email check. *)
Lemma validateField_blank_email_message :
  let f := mkField (js "email") (js "email") true [160] [] false None in
  JsString.trim (f_value f) = [] /\
  fst (validateField f) = false /\
  error_message (snd (validateField f))
  = Some (js "Please enter a valid email address") /\
  error_message (snd (validateField f)) <> Some (js "This field is required").
Proof. repeat split; try (vm_compute; reflexivity). vm_compute. discriminate. Qed.

End ValidationFacts.

(** ** Timers: the next timer *)

Section TimerFacts.
Context {A : Type}.

Lemma extract_None (l : list (Timers.timer A)) :
  Timers.extract l = None -> l = [].
Proof.
  destruct l as [|a l]; [reflexivity|]. simpl.
  destruct (Timers.extract l) as [[u r']|]; [destruct (Timers.due u <? Timers.due a)|];
    discriminate.
Qed.

Lemma extract_spec (l : list (Timers.timer A)) : forall t r,
  Timers.extract l = Some (t, r) ->
  (forall x, In x l <-> x = t \/ In x r) /\
  Forall (fun u => Timers.due t <= Timers.due u) r /\
  forall w : Timers.timer A -> nat,
    list_sum (List.map w l) = (w t + list_sum (List.map w r))%nat.
Proof.
  induction l as [|a l IH]; intros t r He; simpl in He; [discriminate|].
  destruct (Timers.extract l) as [[u r']|] eqn:Hl.
  - destruct (IH u r' eq_refl) as (Hin & Hle & Hsum).
    destruct (Z.ltb_spec (Timers.due u) (Timers.due a)) as [Hlt | Hge];
      inversion He; subst; clear He.
    + split; [|split].
      * intros x. simpl. rewrite Hin. tauto.
      * constructor; [lia | exact Hle].
      * intros w. simpl. rewrite Hsum. lia.
    + split; [|split].
      * intros x. simpl. split; (intros [Hx | Hx]; [left; congruence | right; exact Hx]).
      * apply List.Forall_forall. intros x Hx. apply Hin in Hx as [-> | Hx]; [lia|].
        rewrite List.Forall_forall in Hle. specialize (Hle x Hx). lia.
      * intros w. reflexivity.
  - inversion He; subst; clear He. apply extract_None in Hl. subst r.
    split; [|split]; [|constructor|reflexivity].
    intros x. simpl. split; (intros [Hx | Hx]; [left; congruence | right; exact Hx]).
Qed.

End TimerFacts.

(** ** Notifications and the event loop of the page *)

Section PageFacts.
Import Page.

Lemma showNotification_effect message type s :
  exists el a b,
    notifications (showNotification message type s) = notifications s ++ [el] /\
    text el = message /\
    className el = js "notification notification-" ++ type /\
    opacity el = js "0" /\ transform el = js "translateX(100%)" /\
    attached el = true /\
    Timers.pending (timers (showNotification message type s))
    = Timers.pending (timers s) ++ [a; b] /\
    Timers.callback a = SlideIn (length (notifications s)) /\
    Timers.due a = Timers.now (timers s) + 100 /\ Timers.every a = None /\
    Timers.callback b = Dismiss (length (notifications s)) /\
    Timers.due b = Timers.now (timers s) + 5000 /\ Timers.every b = None /\
    Timers.now (timers (showNotification message type s)) = Timers.now (timers s) /\
    fields (showNotification message type s) = fields s /\
    submitBtn (showNotification message type s) = submitBtn s /\
    location (showNotification message type s) = location s /\
    form_animation (showNotification message type s) = form_animation s.
Proof.
  unfold showNotification. destruct (notification_colors type) as [bg border].
  simpl. do 3 eexists. do 6 (split; [reflexivity|]).
  split; [rewrite <- app_assoc; reflexivity|]. repeat split.
Qed.

(** What running a callback changes: the notifications that were there
    are updated in place, the timers it sets are added, the clock stays. *)
Lemma fire_effect cb s :
  exists added,
    Timers.pending (timers (fire cb s)) = Timers.pending (timers s) ++ added /\
    Forall (sets cb (Timers.now (timers s)) (length (notifications s))) added /\
    (list_sum (List.map (fun tm => weight (Timers.callback tm)) added) < weight cb)%nat /\
    Timers.now (timers (fire cb s)) = Timers.now (timers s) /\
    (length (notifications s) <= length (notifications (fire cb s)))%nat /\
    ((forall m, target cb = Some m -> (m < length (notifications s))%nat) ->
     Forall (fun tm => forall m, target (Timers.callback tm) = Some m ->
                                 (m < length (notifications (fire cb s)))%nat) added) /\
    (forall m, cb = Dismiss m ->
               exists u, In u added /\ Timers.callback u = Remove m /\
                         Timers.due u = Timers.now (timers s) + 300) /\
    forall n, (n < length (notifications s))%nat ->
              notifications (fire cb s) !! n = update cb n <$> notifications s !! n.
Proof.
  assert (Halter : forall f m n,
    alter f m (notifications s) !! n
    = (if decide (m = n) then f else fun x => x) <$> notifications s !! n).
  { intros f m n. rewrite list_lookup_alter.
    destruct (decide (m = n)) as [->|]; destruct (notifications s !! n); reflexivity. }
  destruct cb as [m|m|m|o|]; cbn [fire].
  - exists []. cbn. rewrite app_nil_r, length_alter.
    split; [reflexivity|]. split; [constructor|]. split; [cbn; lia|].
    split; [reflexivity|]. split; [lia|]. split; [constructor|].
    split; [discriminate|].
    intros n _. rewrite Halter. unfold update. destruct (decide (m = n)); reflexivity.
  - unfold dismiss. cbn. eexists. split; [reflexivity|]. rewrite length_alter.
    split; [repeat constructor|]. split; [cbn; lia|].
    split; [reflexivity|]. split; [lia|]. split; [|split].
    + intros Hm. repeat constructor. cbn. intros k [= <-]. apply Hm. reflexivity.
    + intros k [= <-]. eexists. split; [left; reflexivity|]. cbn. split; [reflexivity|lia].
    + intros n _. rewrite Halter. unfold update. destruct (decide (m = n)); reflexivity.
  - exists []. cbn. rewrite app_nil_r, length_alter.
    split; [reflexivity|]. split; [constructor|]. split; [cbn; lia|].
    split; [reflexivity|]. split; [lia|]. split; [constructor|].
    split; [discriminate|].
    intros n _. rewrite Halter. unfold update. destruct (decide (m = n)); reflexivity.
  - unfold submitted.
    match goal with |- context [showNotification ?msg ?ty ?s0] =>
      destruct (showNotification_effect msg ty s0)
        as (el & a & b & Hn & _ & _ & _ & _ & _ & Hp & Ha & Hda & Hea & Hb & Hdb & Heb
            & Hnow & _);
      set (s1 := showNotification msg ty s0) in *
    end.
    cbn in *. rewrite Hp, Hn, Hnow.
    eexists. rewrite <- app_assoc. split; [reflexivity|].
    rewrite length_app. split; [|split; [|split; [|split; [|split; [|split]]]]].
    + constructor; [|constructor; [|constructor; [|constructor]]];
        (split; [assumption || reflexivity|]).
      * left. auto.
      * right; left. auto.
      * right; right. split; [reflexivity|]. cbn. lia.
    + cbn. rewrite Ha, Hb. cbn. lia.
    + reflexivity.
    + cbn. lia.
    + intros _. repeat constructor; cbn; intros k Hk.
      * rewrite Ha in Hk. injection Hk as <-. lia.
      * rewrite Hb in Hk. injection Hk as <-. lia.
      * discriminate.
    + discriminate.
    + intros n Hlt. rewrite lookup_app_l by exact Hlt.
      destruct (notifications s !! n); reflexivity.
  - exists []. cbn. rewrite app_nil_r.
    split; [reflexivity|]. split; [constructor|]. split; [cbn; lia|].
    split; [reflexivity|]. split; [lia|]. split; [constructor|].
    split; [discriminate|].
    intros n _. destruct (notifications s !! n); reflexivity.
Qed.

(** One turn of the loop on a well-formed page. *)
Lemma turn_step T s s' :
  well_formed s -> turn T s = Some s' ->
  exists tm rest added,
    (forall x, In x (Timers.pending (timers s)) <-> x = tm \/ In x rest) /\
    Forall (fun u => Timers.due tm <= Timers.due u) rest /\
    load s = (weight (Timers.callback tm)
              + list_sum (List.map (fun u => weight (Timers.callback u)) rest))%nat /\
    Timers.due tm <= T /\
    Timers.now (timers s) <= Timers.due tm /\
    Timers.now (timers s') = Timers.due tm /\
    Timers.pending (timers s') = rest ++ added /\
    Forall (sets (Timers.callback tm) (Timers.due tm) (length (notifications s))) added /\
    (list_sum (List.map (fun u => weight (Timers.callback u)) added)
     < weight (Timers.callback tm))%nat /\
    (length (notifications s) <= length (notifications s'))%nat /\
    Forall (fun u => forall m, target (Timers.callback u) = Some m ->
                               (m < length (notifications s'))%nat) added /\
    (forall m, Timers.callback tm = Dismiss m ->
               exists u, In u added /\ Timers.callback u = Remove m /\
                         Timers.due u = Timers.due tm + 300) /\
    forall n, (n < length (notifications s))%nat ->
              notifications s' !! n
              = update (Timers.callback tm) n <$> notifications s !! n.
Proof.
  intros Hwf. unfold turn, Timers.take.
  destruct (Timers.extract (Timers.pending (timers s))) as [[tm rest]|] eqn:He;
    [|discriminate].
  destruct (extract_spec _ _ _ He) as (Hin & Hle & Hsum).
  unfold well_formed in Hwf. rewrite List.Forall_forall in Hwf.
  destruct (Hwf tm) as (Hev & Hdue & Htg); [apply Hin; left; reflexivity|].
  rewrite Hev. destruct (Z.leb_spec (Timers.due tm) T) as [HT|]; [|discriminate].
  intros [= <-].
  set (s0 := with_timers _ s).
  destruct (fire_effect (Timers.callback tm) s0)
    as (added & Hp & Hsets & Hw & Hnow & Hlen & Hnew & Hrem & Hupd).
  exists tm, rest, added. subst s0. simpl in *.
  replace (Z.max (Timers.now (timers s)) (Timers.due tm)) with (Timers.due tm) in * by lia.
  split; [exact Hin|]. split; [exact Hle|]. split; [apply Hsum|].
  split; [exact HT|]. split; [exact Hdue|]. split; [exact Hnow|].
  split; [exact Hp|]. split; [exact Hsets|]. split; [exact Hw|].
  split; [exact Hlen|]. split; [apply Hnew; exact Htg|].
  split; [exact Hrem|]. exact Hupd.
Qed.

End PageFacts.

Section LoopFacts.
Import Page.

Lemma turn_well_formed T s s' :
  well_formed s -> turn T s = Some s' ->
  well_formed s' /\ (load s' < load s)%nat /\
  (Timers.now (timers s) <= T -> Timers.now (timers s') <= T) /\
  (length (notifications s) <= length (notifications s'))%nat.
Proof.
  intros Hwf Hturn.
  destruct (turn_step T s s' Hwf Hturn)
    as (tm & rest & added & Hin & Hle & Hload & HT & Hdue & Hnow & Hp & Hsets
        & Hw & Hlen & Hnew & _ & _).
  unfold well_formed in *. rewrite List.Forall_forall in Hwf.
  split; [|split; [|split]].
  - rewrite Hp, Hnow. apply Forall_app. split.
    + apply List.Forall_forall. intros x Hx.
      destruct (Hwf x) as (Hev & _ & Htg); [apply Hin; right; exact Hx|].
      rewrite List.Forall_forall in Hle. specialize (Hle x Hx).
      split; [exact Hev|]. split; [exact Hle|].
      intros n Hn. specialize (Htg n Hn). lia.
    + rewrite List.Forall_forall in Hsets, Hnew. apply List.Forall_forall.
      intros x Hx. destruct (Hsets x Hx) as [Hev Hcase].
      split; [exact Hev|]. split; [|apply Hnew; exact Hx].
      destruct (Timers.callback tm); try contradiction; [lia|].
      destruct Hcase as [[_ ?]|[[_ ?]|[_ ?]]]; lia.
  - unfold load. rewrite Hp, List.map_app, list_sum_app.
    unfold load in Hload. rewrite Hload. lia.
  - lia.
  - exact Hlen.
Qed.

Lemma turn_None_settled T s : turn T s = None -> settled T s.
Proof.
  unfold turn, Timers.take, settled.
  destruct (Timers.extract (Timers.pending (timers s))) as [[tm rest]|] eqn:He.
  - destruct (extract_spec _ _ _ He) as (Hin & Hle & _).
    destruct (Z.leb_spec (Timers.due tm) T) as [|HT]; [discriminate|]. intros _.
    apply List.Forall_forall. intros x Hx. apply Hin in Hx as [-> | Hx]; [lia|].
    rewrite List.Forall_forall in Hle. specialize (Hle x Hx). lia.
  - apply extract_None in He. rewrite He. constructor.
Qed.

(** What holds before the loop and is kept by each turn holds after it;
    with fuel for every pending timer the loop ends with no timer due. *)
Lemma turns_invariant (I : state -> Prop) T :
  (forall s s', well_formed s -> I s -> turn T s = Some s' -> I s') ->
  forall fuel s, well_formed s -> I s -> (load s <= fuel)%nat ->
    I (turns fuel T s) /\ well_formed (turns fuel T s) /\
    settled T (turns fuel T s) /\
    (Timers.now (timers s) <= T -> Timers.now (timers (turns fuel T s)) <= T).
Proof.
  intros Hkeep fuel. induction fuel as [|fuel IH]; intros s Hwf HI Hfuel.
  - simpl. split; [exact HI|]. split; [exact Hwf|]. split; [|auto].
    destruct (turn T s) as [s'|] eqn:Hturn; [|apply turn_None_settled; exact Hturn].
    destruct (turn_well_formed T s s' Hwf Hturn) as (_ & Hlt & _). lia.
  - simpl. destruct (turn T s) as [s'|] eqn:Hturn.
    + destruct (turn_well_formed T s s' Hwf Hturn) as (Hwf' & Hlt & Hnow & _).
      destruct (IH s' Hwf' (Hkeep s s' Hwf HI Hturn) ltac:(lia))
        as (H1 & H2 & H3 & H4).
      split; [exact H1|]. split; [exact H2|]. split; [exact H3|]. auto.
    + split; [exact HI|]. split; [exact Hwf|].
      split; [apply turn_None_settled; exact Hturn | auto].
Qed.

(** The same for the page at time [T], for properties of the notifications
    and the pending timers. *)
Lemma run_until_invariant (I : state -> Prop) T s :
  (forall s s', well_formed s -> I s -> turn T s = Some s' -> I s') ->
  (forall s q, Timers.pending q = Timers.pending (timers s) ->
               I s -> I (with_timers q s)) ->
  well_formed s -> I s ->
  I (run_until T s) /\ well_formed (run_until T s) /\ settled T (run_until T s) /\
  (Timers.now (timers s) <= T -> Timers.now (timers (run_until T s)) = T).
Proof.
  intros Hkeep Hclock Hwf HI.
  destruct (turns_invariant I T Hkeep (load s) s Hwf HI (Nat.le_refl _))
    as (H1 & H2 & H3 & H4).
  unfold run_until. set (s' := turns (load s) T s) in *.
  split; [apply Hclock; [reflexivity | exact H1]|].
  split; [|split].
  - unfold well_formed in *. cbn. unfold settled in H3.
    rewrite List.Forall_forall in *. intros x Hx.
    destruct (H2 x Hx) as (Hev & Hd & Htg). specialize (H3 x Hx).
    split; [exact Hev|]. split; [lia | exact Htg].
  - exact H3.
  - intros Hnow. cbn. specialize (H4 Hnow). lia.
Qed.

End LoopFacts.

Section DismissalFacts.
Import Page.

Lemma sets_Remove cb t len x n :
  sets cb t len x -> Timers.callback x = Remove n ->
  cb = Dismiss n /\ Timers.due x = t + 300.
Proof.
  intros [_ H] Hx. destruct cb; try contradiction.
  - destruct H as [H1 H2]. rewrite H1 in Hx. injection Hx as ->. auto.
  - destruct H as [[H1 _]|[[H1 _]|[H1 _]]]; congruence.
Qed.

Lemma sets_new_target cb t len x n :
  sets cb t len x ->
  Timers.callback x = Dismiss n \/ Timers.callback x = SlideIn n -> n = len.
Proof.
  intros [_ H] Hx. destruct cb; try contradiction.
  - destruct H as [H1 _]. destruct Hx; congruence.
  - destruct H as [[H1 _]|[[H1 _]|[H1 _]]]; destruct Hx; congruence.
Qed.

Lemma update_attached cb n x :
  attached x = false -> attached (update cb n x) = false.
Proof.
  intros H. destruct cb as [m|m|m|o|]; simpl; try exact H;
    destruct (decide (m = n)); simpl; auto.
Qed.

Lemma update_keeps_attached cb n x :
  cb <> Remove n -> attached (update cb n x) = attached x.
Proof.
  intros H. destruct cb as [m|m|m|o|]; simpl; try reflexivity;
    destruct (decide (m = n)); simpl; try reflexivity.
  subst. contradiction.
Qed.

Ltac turn_facts T s s' :=
  match goal with
  | Hwf : well_formed s, Hturn : turn T s = Some s' |- _ =>
      destruct (turn_step T s s' Hwf Hturn)
        as (tm & rest & added & Hin & Hle & _ & HT & Hdue & Hnow & Hp & Hsets
            & _ & Hlen & _ & Hrem & Hupd);
      rewrite List.Forall_forall in Hle, Hsets
  end.

Lemma keeps_turn D n T s s' :
  T < D -> well_formed s -> keeps D n s -> turn T s = Some s' -> keeps D n s'.
Proof.
  intros HTD Hwf [(x & Hx & Hatt) Hpend] Hturn. turn_facts T s s'.
  assert (Hn : (n < length (notifications s))%nat)
    by (eapply lookup_lt_Some; exact Hx).
  assert (Hcb : Timers.callback tm <> Remove n).
  { intros Hc. destruct (Hpend tm) as [H1 _]; [apply Hin; left; reflexivity|].
    specialize (H1 Hc). lia. }
  split.
  - exists (update (Timers.callback tm) n x). rewrite Hupd, Hx by exact Hn.
    split; [reflexivity|]. rewrite update_keeps_attached by exact Hcb. exact Hatt.
  - intros u Hu. rewrite Hp in Hu. apply in_app_or in Hu as [Hu | Hu].
    + apply Hpend, Hin. right. exact Hu.
    + specialize (Hsets u Hu). split; intros Hc.
      * destruct (sets_Remove _ _ _ _ _ Hsets Hc) as [Hd ->].
        destruct (Hpend tm) as [_ H2]; [apply Hin; left; reflexivity|].
        specialize (H2 Hd). lia.
      * pose proof (sets_new_target _ _ _ _ n Hsets (or_introl Hc)). lia.
Qed.

Lemma goes_turn D n T s s' :
  well_formed s -> goes D n s -> turn T s = Some s' -> goes D n s'.
Proof.
  intros Hwf (x & Hx & Hcase) Hturn. turn_facts T s s'.
  assert (Hn : (n < length (notifications s))%nat)
    by (eapply lookup_lt_Some; exact Hx).
  exists (update (Timers.callback tm) n x). rewrite Hupd, Hx by exact Hn.
  split; [reflexivity|].
  destruct Hcase as [Hdet | [(tm0 & H0 & Hc0 & Hd0) | (tm0 & H0 & Hc0 & Hd0)]].
  - left. apply update_attached. exact Hdet.
  - apply Hin in H0 as [-> | H0].
    + left. rewrite Hc0. simpl. destruct (decide (n = n)); [reflexivity | contradiction].
    + right; left. exists tm0. rewrite Hp. split; [apply in_or_app; left; exact H0 | auto].
  - apply Hin in H0 as [-> | H0].
    + right; left. destruct (Hrem n Hc0) as (u & Hu & Hcu & Hdu).
      exists u. rewrite Hp. split; [apply in_or_app; right; exact Hu|].
      split; [exact Hcu | lia].
    + right; right. exists tm0. rewrite Hp.
      split; [apply in_or_app; left; exact H0 | auto].
Qed.

Lemma fades_turn D n T s s' :
  well_formed s -> fades D n s -> turn T s = Some s' -> fades D n s'.
Proof.
  intros Hwf (x & Hx & Hcase) Hturn. turn_facts T s s'.
  assert (Hn : (n < length (notifications s))%nat)
    by (eapply lookup_lt_Some; exact Hx).
  assert (Hnew : forall u, In u added -> Timers.callback u <> SlideIn n).
  { intros u Hu Hc.
    pose proof (sets_new_target _ _ _ _ n (Hsets u Hu) (or_intror Hc)). lia. }
  exists (update (Timers.callback tm) n x). rewrite Hupd, Hx by exact Hn.
  split; [reflexivity|].
  destruct Hcase as [(Ho & Ht & Hno) | (tm0 & H0 & Hc0 & Hd0 & Hbefore)].
  - left.
    assert (Hcb : Timers.callback tm <> SlideIn n)
      by (apply Hno, Hin; left; reflexivity).
    split; [|split].
    + destruct (Timers.callback tm) as [m|m|m|o|]; simpl; try exact Ho;
        destruct (decide (m = n)); simpl; try exact Ho; try reflexivity.
      subst. contradiction.
    + destruct (Timers.callback tm) as [m|m|m|o|]; simpl; try exact Ht;
        destruct (decide (m = n)); simpl; try exact Ht; try reflexivity.
      subst. contradiction.
    + intros u Hu. rewrite Hp in Hu. apply in_app_or in Hu as [Hu | Hu].
      * apply Hno, Hin. right. exact Hu.
      * apply Hnew. exact Hu.
  - apply Hin in H0 as [-> | H0].
    + left. rewrite Hc0. simpl.
      destruct (decide (n = n)); [|contradiction].
      split; [reflexivity|]. split; [reflexivity|].
      intros u Hu. rewrite Hp in Hu. apply in_app_or in Hu as [Hu | Hu].
      * intros Hc. specialize (Hle u Hu).
        specialize (Hbefore u ltac:(apply Hin; right; exact Hu) Hc). lia.
      * apply Hnew. exact Hu.
    + right. exists tm0. rewrite Hp.
      split; [apply in_or_app; left; exact H0|].
      split; [exact Hc0|]. split; [exact Hd0|].
      intros u Hu Hc. apply in_app_or in Hu as [Hu | Hu].
      * apply Hbefore; [apply Hin; right; exact Hu | exact Hc].
      * exfalso. exact (Hnew u Hu Hc).
Qed.

Lemma shows_turn D1 D2 n T s s' :
  T < D2 -> well_formed s -> shows D1 D2 n s -> turn T s = Some s' ->
  shows D1 D2 n s'.
Proof.
  intros HTD Hwf (x & Hx & Hdis & Hcase) Hturn. turn_facts T s s'.
  assert (Hn : (n < length (notifications s))%nat)
    by (eapply lookup_lt_Some; exact Hx).
  assert (Hcb : Timers.callback tm <> Dismiss n).
  { intros Hc. specialize (Hdis tm ltac:(apply Hin; left; reflexivity) Hc). lia. }
  exists (update (Timers.callback tm) n x). rewrite Hupd, Hx by exact Hn.
  split; [reflexivity|]. split.
  - intros u Hu Hc. rewrite Hp in Hu. apply in_app_or in Hu as [Hu | Hu].
    + apply Hdis; [apply Hin; right; exact Hu | exact Hc].
    + pose proof (sets_new_target _ _ _ _ n (Hsets u Hu) (or_introl Hc)). lia.
  - assert (Hvis : opacity x = js "1" /\ transform x = js "translateX(0)" \/
                   Timers.callback tm = SlideIn n ->
                   opacity (update (Timers.callback tm) n x) = js "1" /\
                   transform (update (Timers.callback tm) n x) = js "translateX(0)").
    { intros Hv. destruct (Timers.callback tm) as [m|m|m|o|]; simpl.
      - destruct (decide (m = n)); simpl; [auto|].
        destruct Hv as [Hv | Hv]; [exact Hv | congruence].
      - destruct (decide (m = n)); [subst; contradiction|].
        destruct Hv as [Hv | Hv]; [exact Hv | discriminate].
      - destruct (decide (m = n)); simpl;
          (destruct Hv as [Hv | Hv]; [exact Hv | discriminate]).
      - destruct Hv as [Hv | Hv]; [exact Hv | discriminate].
      - destruct Hv as [Hv | Hv]; [exact Hv | discriminate]. }
    destruct Hcase as [Hv | (tm0 & H0 & Hc0 & Hd0)].
    + left. apply Hvis. left. exact Hv.
    + apply Hin in H0 as [-> | H0].
      * left. apply Hvis. right. exact Hc0.
      * right. exists tm0. rewrite Hp.
        split; [apply in_or_app; left; exact H0 | auto].
Qed.

End DismissalFacts.

Section NotificationLife.
Import Page.

Lemma goes_settled D n T s :
  goes D n s -> settled T s -> D <= T -> detached_at n s.
Proof.
  intros (x & Hx & Hcase) Hset HD. unfold settled in Hset.
  rewrite List.Forall_forall in Hset. exists x. split; [exact Hx|].
  destruct Hcase as [Hdet | [(tm & Hin & _ & Hd) | (tm & Hin & _ & Hd)]];
    [exact Hdet | |]; specialize (Hset tm Hin); lia.
Qed.

Lemma fades_settled D n T s :
  fades D n s -> settled T s -> D <= T -> hidden_at n s.
Proof.
  intros (x & Hx & Hcase) Hset HD. unfold settled in Hset.
  rewrite List.Forall_forall in Hset. exists x. split; [exact Hx|].
  destruct Hcase as [(Ho & Ht & _) | (tm & Hin & _ & Hd & _)]; [auto|].
  specialize (Hset tm Hin). lia.
Qed.

Lemma shows_settled D1 D2 n T s :
  shows D1 D2 n s -> settled T s -> D1 <= T -> visible_at n s.
Proof.
  intros (x & Hx & _ & Hcase) Hset HD. unfold settled in Hset.
  rewrite List.Forall_forall in Hset. exists x. split; [exact Hx|].
  destruct Hcase as [Hv | (tm & Hin & _ & Hd)]; [exact Hv|].
  specialize (Hset tm Hin). lia.
Qed.

(** The page of [showNotification], with the new notification [n]. *)
Lemma shown_invariants message type s :
  well_formed s ->
  let n := length (notifications s) in
  let t0 := Timers.now (timers s) in
  let s1 := showNotification message type s in
  well_formed s1 /\ Timers.now (timers s1) = t0 /\
  keeps (t0 + 5300) n s1 /\ goes (t0 + 5300) n s1 /\
  fades (t0 + 5000) n s1 /\ shows (t0 + 100) (t0 + 5000) n s1.
Proof.
  intros Hwf n t0 s1.
  destruct (showNotification_effect message type s)
    as (el & a & b & Hn & _ & _ & Ho & Ht & Hatt & Hp & Ha & Hda & Hea & Hb & Hdb
        & Heb & Hnow & _).
  fold s1 in Hn, Hp, Hnow. fold n in Ha, Hb. fold t0 in Hda, Hdb, Hnow.
  assert (Hel : notifications s1 !! n = Some el).
  { rewrite Hn. apply list_lookup_middle. reflexivity. }
  unfold well_formed in Hwf. rewrite List.Forall_forall in Hwf.
  assert (Hold : forall u, In u (Timers.pending (timers s)) ->
                           target (Timers.callback u) <> Some n).
  { intros u Hu Hc. destruct (Hwf u Hu) as (_ & _ & Htg).
    specialize (Htg n Hc). fold n in Htg. lia. }
  assert (Hpend : forall u, In u (Timers.pending (timers s1)) ->
                            In u (Timers.pending (timers s)) \/ u = a \/ u = b).
  { intros u Hu. rewrite Hp in Hu. apply in_app_or in Hu as [Hu | Hu]; [auto|].
    simpl in Hu. intuition. }
  split; [|split; [exact Hnow|split; [|split; [|split]]]].
  - unfold well_formed. apply List.Forall_forall. intros u Hu.
    rewrite Hnow, Hn, length_app. simpl.
    destruct (Hpend u Hu) as [Hu' | [-> | ->]].
    + destruct (Hwf u Hu') as (Hev & Hd & Htg).
      split; [exact Hev|]. split; [exact Hd|]. intros m Hm. specialize (Htg m Hm). lia.
    + split; [exact Hea|]. split; [lia|]. rewrite Ha. intros m [= <-]. fold n. lia.
    + split; [exact Heb|]. split; [lia|]. rewrite Hb. intros m [= <-]. fold n. lia.
  - split; [exists el; auto|]. intros u Hu.
    destruct (Hpend u Hu) as [Hu' | [-> | ->]].
    + split; intros Hc; exfalso; apply (Hold u Hu'); rewrite Hc; reflexivity.
    + rewrite Ha. split; discriminate.
    + rewrite Hb, Hdb. split; [discriminate | lia].
  - exists el. split; [exact Hel|]. right; right. exists b.
    split; [rewrite Hp; apply in_or_app; right; simpl; auto|].
    split; [exact Hb | lia].
  - exists el. split; [exact Hel|]. right. exists b.
    split; [rewrite Hp; apply in_or_app; right; simpl; auto|].
    split; [exact Hb|]. split; [lia|].
    intros u Hu Hc. destruct (Hpend u Hu) as [Hu' | [-> | ->]].
    + exfalso. apply (Hold u Hu'). rewrite Hc. reflexivity.
    + lia.
    + congruence.
  - exists el. split; [exact Hel|]. split.
    + intros u Hu Hc. destruct (Hpend u Hu) as [Hu' | [-> | ->]].
      * exfalso. apply (Hold u Hu'). rewrite Hc. reflexivity.
      * congruence.
      * lia.
    + right. exists a. split; [rewrite Hp; apply in_or_app; right; simpl; auto|].
      split; [exact Ha | lia].
Qed.

(** A click on an attached notification [n] at time [tc]. *)
Lemma click_invariants D n s :
  well_formed s -> keeps D n s -> Timers.now (timers s) + 300 <= D ->
  well_formed (click n s) /\ hidden_at n (click n s) /\
  keeps (Timers.now (timers s) + 300) n (click n s) /\
  goes (Timers.now (timers s) + 300) n (click n s).
Proof.
  intros Hwf [(x & Hx & Hatt) Hpend] HD.
  assert (Hn : (n < length (notifications s))%nat)
    by (eapply lookup_lt_Some; exact Hx).
  unfold click, dismiss. cbn.
  set (tm := Timers.mkTimer _ _ _ _).
  assert (Hx' : alter (set_style (js "0") (js "translateX(100%)")) n (notifications s)
                !! n = Some (set_style (js "0") (js "translateX(100%)") x)).
  { rewrite list_lookup_alter_eq, Hx. reflexivity. }
  unfold well_formed in *. rewrite List.Forall_forall in Hwf.
  split; [|split; [|split]].
  - cbn. rewrite length_alter. apply Forall_app. split.
    + apply List.Forall_forall. exact Hwf.
    + repeat constructor; cbn; [lia|]. intros m [= <-]. exact Hn.
  - eexists. split; [exact Hx'|]. split; reflexivity.
  - split; [eexists; split; [exact Hx' | exact Hatt]|].
    cbn. intros u Hu. apply in_app_or in Hu as [Hu | [<- | []]].
    + destruct (Hpend u Hu) as [H1 H2]. split; intros Hc; [specialize (H1 Hc) | specialize (H2 Hc)]; lia.
    + cbn. split; [lia | discriminate].
  - eexists. split; [exact Hx'|]. right; left. exists tm. cbn.
    split; [apply in_or_app; right; left; reflexivity|]. split; [reflexivity | lia].
Qed.

Lemma keeps_clock D n s q :
  Timers.pending q = Timers.pending (timers s) -> keeps D n s ->
  keeps D n (with_timers q s).
Proof. intros Hq [H1 H2]. split; [exact H1|]. cbn. rewrite Hq. exact H2. Qed.

Lemma goes_clock D n s q :
  Timers.pending q = Timers.pending (timers s) -> goes D n s ->
  goes D n (with_timers q s).
Proof. intros Hq (x & Hx & H). exists x. cbn. rewrite Hq. auto. Qed.

Lemma fades_clock D n s q :
  Timers.pending q = Timers.pending (timers s) -> fades D n s ->
  fades D n (with_timers q s).
Proof. intros Hq (x & Hx & H). exists x. cbn. rewrite Hq. auto. Qed.

Lemma shows_clock D1 D2 n s q :
  Timers.pending q = Timers.pending (timers s) -> shows D1 D2 n s ->
  shows D1 D2 n (with_timers q s).
Proof. intros Hq (x & Hx & H). exists x. cbn. rewrite Hq. auto. Qed.

(** The page at time [T], seen through the invariants. *)
Lemma stays_until D n T s :
  T < D -> well_formed s -> keeps D n s ->
  keeps D n (run_until T s) /\ well_formed (run_until T s) /\
  (Timers.now (timers s) <= T -> Timers.now (timers (run_until T s)) = T).
Proof.
  intros HT Hwf Hk.
  destruct (run_until_invariant (keeps D n) T s) as (H1 & H2 & _ & H4); auto.
  - intros s0 s' Hwf0 Hk0 Hturn. eapply keeps_turn; eauto.
  - intros s0 q Hq Hk0. apply keeps_clock; assumption.
Qed.

Lemma gone_from D n T s :
  D <= T -> well_formed s -> goes D n s -> detached_at n (run_until T s).
Proof.
  intros HT Hwf Hg.
  destruct (run_until_invariant (goes D n) T s) as (H1 & _ & H3 & _); auto.
  - intros s0 s' Hwf0 Hg0 Hturn. eapply goes_turn; eauto.
  - intros s0 q Hq Hg0. apply goes_clock; assumption.
  - eapply goes_settled; eauto.
Qed.

Lemma hidden_from D n T s :
  D <= T -> well_formed s -> fades D n s -> hidden_at n (run_until T s).
Proof.
  intros HT Hwf Hf.
  destruct (run_until_invariant (fades D n) T s) as (H1 & _ & H3 & _); auto.
  - intros s0 s' Hwf0 Hf0 Hturn. eapply fades_turn; eauto.
  - intros s0 q Hq Hf0. apply fades_clock; assumption.
  - eapply fades_settled; eauto.
Qed.

Lemma visible_between D1 D2 n T s :
  D1 <= T < D2 -> well_formed s -> shows D1 D2 n s -> visible_at n (run_until T s).
Proof.
  intros HT Hwf Hs.
  destruct (run_until_invariant (shows D1 D2 n) T s) as (H1 & _ & H3 & _); auto.
  - intros s0 s' Hwf0 Hs0 Hturn. eapply shows_turn; eauto. lia.
  - intros s0 q Hq Hs0. apply shows_clock; assumption.
  - eapply shows_settled; eauto. lia.
Qed.

(** C7: the life of a notification.  On any well-formed page, let [n] be
    the notification made by [showNotification] at time [t0].
    Clicked [c] ms later, before the 5000 ms timeout: it is still in the
    page when clicked, the click hides it at once, it stays attached for
    the next 300 ms and is detached from [t0 + c + 300] on.
    Not clicked: it is visible from 100 ms to 5000 ms, hidden from
    5000 ms on, attached until 5300 ms and detached from then on. *)
Theorem notification_dismissal
  (s : state) (message type : jsstring) (c : Z) :
  well_formed s -> 0 <= c < 5000 ->
  let n := length (notifications s) in
  let t0 := Timers.now (timers s) in
  let shown := showNotification message type s in
  let clicked := click n (run_until (t0 + c) shown) in
  attached_at n (run_until (t0 + c) shown) /\
  hidden_at n clicked /\
  (forall T, t0 + c <= T < t0 + c + 300 -> attached_at n (run_until T clicked)) /\
  (forall T, t0 + c + 300 <= T -> detached_at n (run_until T clicked)) /\
  (forall T, t0 + 100 <= T < t0 + 5000 -> visible_at n (run_until T shown)) /\
  (forall T, t0 + 5000 <= T -> hidden_at n (run_until T shown)) /\
  (forall T, T < t0 + 5300 -> attached_at n (run_until T shown)) /\
  (forall T, t0 + 5300 <= T -> detached_at n (run_until T shown)).
Proof.
  intros Hwf Hc n t0 shown clicked.
  destruct (shown_invariants message type s Hwf)
    as (Hwf1 & Hnow1 & Hkeep & Hgo & Hfade & Hshow).
  fold n t0 shown in Hwf1, Hnow1, Hkeep, Hgo, Hfade, Hshow.
  destruct (stays_until (t0 + 5300) n (t0 + c) shown ltac:(lia) Hwf1 Hkeep)
    as (Hk2 & Hwf2 & Hnow2).
  specialize (Hnow2 ltac:(lia)).
  destruct (click_invariants (t0 + 5300) n _ Hwf2 Hk2 ltac:(lia))
    as (Hwf3 & Hhid & Hk3 & Hg3).
  fold clicked in Hwf3, Hhid, Hk3, Hg3. rewrite Hnow2 in Hk3, Hg3.
  split; [apply Hk2|]. split; [exact Hhid|]. split; [|split; [|split; [|split; [|split]]]].
  - intros T HT. apply (stays_until (t0 + c + 300) n T clicked); [lia | assumption..].
  - intros T HT. apply (gone_from (t0 + c + 300)); assumption.
  - intros T HT. apply (visible_between (t0 + 100) (t0 + 5000)); assumption.
  - intros T HT. apply (hidden_from (t0 + 5000)); assumption.
  - intros T HT. apply (stays_until (t0 + 5300) n T shown); assumption.
  - intros T HT. apply (gone_from (t0 + 5300)); assumption.
Qed.

End NotificationLife.

Section SubmitFacts.
Import Page.

Lemma validate_all_values l :
  List.map f_value (snd (validate_all l)) = List.map f_value l.
Proof.
  unfold validate_all. simpl. rewrite List.map_map. apply List.map_ext.
  intros f. apply validateField_check.
Qed.

Lemma validate_all_invalid l :
  Exists (fun f => fst (validateField f) = false) l ->
  fst (validate_all l) = false.
Proof.
  intros H. unfold validate_all. simpl.
  apply not_true_iff_false. intros Hall.
  rewrite forallb_forall in Hall. apply List.Exists_exists in H as (f & Hin & Hf).
  specialize (Hall f Hin). congruence.
Qed.

(** C6: a submit with an invalid field.  Every field is validated (the
    values stay, the invalid fields get their inline messages), one
    notification of kind [error] is added, with the two timers of its
    own, and nothing else happens: the submit button is as it was (not
    disabled, same label, no [loading] class), nothing is handed to the
    mail client, and no submission is pending. *)
Theorem submit_invalid_aborts (s : state) :
  Exists (fun f => fst (validateField f) = false) (fields s) ->
  let s' := handleFormSubmit s in
  submitBtn s' = submitBtn s /\
  location s' = location s /\
  form_animation s' = form_animation s /\
  List.map f_value (fields s') = List.map f_value (fields s) /\
  fields s' = List.map (fun f => snd (validateField f)) (fields s) /\
  (exists el a b,
      notifications s' = notifications s ++ [el] /\
      text el = js "Please correct the errors above" /\
      className el = js "notification notification-error" /\
      attached el = true /\
      Timers.pending (timers s') = Timers.pending (timers s) ++ [a; b] /\
      Timers.callback a = SlideIn (length (notifications s)) /\
      Timers.callback b = Dismiss (length (notifications s))) /\
  (forall tm o, In tm (Timers.pending (timers s')) ->
                Timers.callback tm = Submitted o ->
                In tm (Timers.pending (timers s))).
Proof.
  intros Hinv s'. subst s'. unfold handleFormSubmit.
  pose proof (validate_all_invalid _ Hinv) as Hfst.
  pose proof (validate_all_values (fields s)) as Hval.
  destruct (validate_all (fields s)) as [ok fs] eqn:Hva. simpl in Hfst, Hval.
  subst ok. cbn [negb].
  match goal with |- context [showNotification ?msg ?ty ?s0] =>
    destruct (showNotification_effect msg ty s0)
      as (el & a & b & Hn & Htext & Hcls & _ & _ & Hatt & Hp & Ha & _ & _ & Hb & _ & _
          & _ & Hf & Hbtn & Hloc & Hanim);
    set (s1 := showNotification msg ty s0) in *
  end.
  cbn in Hn, Hp, Ha, Hb, Hf, Hbtn, Hloc, Hanim.
  split; [exact Hbtn|]. split; [exact Hloc|]. split; [exact Hanim|].
  rewrite Hf. split; [exact Hval|]. split.
  - unfold validate_all in Hva. injection Hva as _ <-. reflexivity.
  - split.
    + exists el, a, b. rewrite Hn, Hp. repeat split; auto.
    + intros tm o Hin Hcb. rewrite Hp in Hin.
      apply in_app_or in Hin as [Hin | [<- | [<- | []]]]; [exact Hin | |]; congruence.
Qed.

(** The theorem on a form whose required name field is empty. *)
Lemma submit_invalid_aborts_witness :
  let f := mkField (js "name") (js "text") true [] [] false None in
  let s := fresh 0 [f] (mkButton false (js "Send Message") false) in
  Exists (fun f => fst (validateField f) = false) (fields s) /\
  submitBtn (handleFormSubmit s) = mkButton false (js "Send Message") false /\
  location (handleFormSubmit s) = None.
Proof.
  assert (H : Exists (fun f => fst (validateField f) = false)
                (fields (fresh 0 [mkField (js "name") (js "text") true [] [] false None]
                               (mkButton false (js "Send Message") false)))).
  { constructor. reflexivity. }
  split; [exact H|].
  destruct (submit_invalid_aborts _ H) as (H1 & H2 & _).
  split; [exact H1 | exact H2].
Defined.

End SubmitFacts.

Section NotificationWitness.
Import Page.

Lemma fresh_well_formed t l b : well_formed (fresh t l b).
Proof. constructor. Qed.

(** The theorem on a fresh page: an error shown at time 0 and clicked
    after 1000 ms is detached from 1300 ms on. *)
Lemma notification_dismissal_witness :
  let s := fresh 0 [] (mkButton false (js "Send") false) in
  let shown := showNotification (js "x") (js "error") s in
  well_formed s /\ 0 <= 1000 < 5000 /\
  attached_at 0 (run_until 1299 (click 0 (run_until 1000 shown))) /\
  detached_at 0 (run_until 1300 (click 0 (run_until 1000 shown))).
Proof.
  assert (Hwf : well_formed (fresh 0 [] (mkButton false (js "Send") false)))
    by apply fresh_well_formed.
  assert (Hc : 0 <= 1000 < 5000) by lia.
  split; [exact Hwf|]. split; [exact Hc|].
  destruct (notification_dismissal _ (js "x") (js "error") 1000 Hwf Hc)
    as (_ & _ & Hatt & Hdet & _).
  split; [apply (Hatt 1299); cbn; lia | apply (Hdet 1300); cbn; lia].
Defined.

End NotificationWitness.

(** ** The other paths, on examples *)

Section Examples.

(** Two resize events 90 ms apart leave one pending call of
    [resizeCanvas], 250 ms after the second. *)
Example debounce_restarts :
  let s0 := Matrix.initializeMatrixBackground 0 400 300 (fun _ => Matrix.half) in
  let s := Matrix.on_resize 100 800 600 (Matrix.run 1 (Matrix.on_resize 10 600 500 s0)) in
  List.map (fun tm => (Timers.callback tm, Timers.due tm))
           (Timers.pending (Matrix.timers s))
  = [(Matrix.DrawMatrix, 100); (Matrix.ResizeLater, 350)].
Proof. vm_compute. reflexivity. Qed.

(** A lazy image entering the viewport gets its source once; leaving and
    entering again changes nothing. *)
Example lazy_image_loaded_once :
  let img := Observer.mkImage [] (js "photo.jpg") true in
  let s := Observer.lazy_crossings
             [Observer.mkEntry 7 true; Observer.mkEntry 7 false; Observer.mkEntry 7 true]
             (Observer.setup {[ 7%nat := img ]}) in
  Observer.elements s !! 7%nat
    = Some (Observer.mkImage (js "photo.jpg") (js "photo.jpg") false) /\
  Observer.invoked s = [7%nat].
Proof. split; vm_compute; reflexivity. Qed.

(** A valid form: the submit button is disabled for 2000 ms, then the
    message is handed to the mail client, the form is reset and a success
    notification is shown. *)
Example submit_valid_hands_off :
  let form :=
    [Page.mkField (js "name") (js "text") true (js "Ann") [] false None;
     Page.mkField (js "email") (js "email") true (js "a@b.com") [] false None;
     Page.mkField (js "subject") (js "text") true (js "Hi") [] false None;
     Page.mkField (js "message") (js "textarea") true (js "Hello") [] false None] in
  let s := Page.handleFormSubmit
             (Page.fresh 0 form (Page.mkButton false (js "Send Message") false)) in
  Page.submitBtn s = Page.mkButton true (js "Sending...") true /\
  Page.location (Page.run_until 1999 s) = None /\
  Page.location (Page.run_until 2000 s)
    = Some (Page.mkMail (js "22bce139@nirmauni.ac.in") (js "Hi")
              (js "Name: Ann" ++ [10] ++ js "Email: a@b.com" ++ [10; 10]
                 ++ js "Message:" ++ [10] ++ js "Hello")) /\
  Page.submitBtn (Page.run_until 2000 s)
    = Page.mkButton false (js "Send Message") false /\
  List.map Page.f_value (Page.fields (Page.run_until 2000 s)) = [[]; []; []; []] /\
  List.map Page.text (Page.notifications (Page.run_until 2000 s))
    = [js "Message sent successfully! Your email client should open shortly."].
Proof. repeat split; vm_compute; reflexivity. Qed.

(** The page stays well formed through a submit. *)
Lemma handleFormSubmit_well_formed s :
  Page.well_formed s -> Page.well_formed (Page.handleFormSubmit s).
Proof.
  intros Hwf. unfold Page.handleFormSubmit.
  destruct (Page.validate_all (Page.fields s)) as [ok fs].
  destruct ok; cbn [negb].
  - unfold Page.well_formed in *. cbn. apply Forall_app. split.
    + exact Hwf.
    + repeat constructor; cbn; [lia | discriminate].
  - match goal with |- Page.well_formed (Page.showNotification ?m ?t ?s0) =>
      apply (shown_invariants m t s0) end.
    exact Hwf.
Qed.

End Examples.

(** ** Lists *)

Lemma last_cons_default {X : Type} (r : list X) : forall a d,
  List.last (a :: r) d = List.last r a.
Proof.
  induction r as [|b r IHr]; intros a d; [reflexivity|].
  change (List.last (b :: r) d = List.last (b :: r) a).
  rewrite (IHr b d), (IHr b a). reflexivity.
Qed.

(** ** Theme: toggling and following the system *)

Section ThemeToggleFacts.
Import ThemeToggle.

Lemma updateThemeSwitcher_frame p :
  Theme.stored (Theme.state (Theme.updateThemeSwitcher p)) = Theme.stored p /\
  Theme.currentTheme (Theme.state (Theme.updateThemeSwitcher p)) = Theme.currentTheme p /\
  Theme.data_theme (Theme.state (Theme.updateThemeSwitcher p)) = Theme.data_theme p.
Proof.
  unfold Theme.updateThemeSwitcher.
  destruct (Theme.themeSwitcher p) as [[t|]|]; cbn; auto.
Qed.

Lemma updateThemeSwitcher_consistent p :
  Theme.data_theme p = Some (Theme.currentTheme p) ->
  consistent (Theme.state (Theme.updateThemeSwitcher p)).
Proof.
  intros Hd. unfold consistent, Theme.updateThemeSwitcher.
  destruct (Theme.themeSwitcher p) as [[t|]|] eqn:Hsw; cbn.
  - split; [exact Hd|]. intros t' [= <-]. reflexivity.
  - split; [exact Hd|]. rewrite Hsw. discriminate.
  - split; [exact Hd|]. rewrite Hsw. discriminate.
Qed.

(** The page of a toggle, whether it returns or throws. *)
Lemma toggle_page s :
  exists p,
    page (after (toggleTheme s)) = Theme.state (Theme.updateThemeSwitcher p) /\
    Theme.currentTheme p
    = (if JsString.eqb (Theme.currentTheme (page s)) (js "dark")
       then js "light" else js "dark") /\
    Theme.stored p = Some (Theme.currentTheme p) /\
    Theme.data_theme p = Some (Theme.currentTheme p).
Proof.
  unfold toggleTheme. cbv zeta.
  match goal with |- context [Theme.updateThemeSwitcher ?q] => exists q end.
  split; [|cbn; auto].
  destruct (Theme.updateThemeSwitcher _) as [q|q]; [|reflexivity].
  cbn. reflexivity.
Qed.

Lemma toggle_theme s :
  Theme.currentTheme (page (after (toggleTheme s)))
  = (if JsString.eqb (Theme.currentTheme (page s)) (js "dark")
     then js "light" else js "dark") /\
  Theme.stored (page (after (toggleTheme s)))
  = Some (Theme.currentTheme (page (after (toggleTheme s)))) /\
  Theme.data_theme (page (after (toggleTheme s)))
  = Some (Theme.currentTheme (page (after (toggleTheme s)))).
Proof.
  destruct (toggle_page s) as (p & -> & Hc & Hs & Hd).
  destruct (updateThemeSwitcher_frame p) as (-> & -> & ->). auto.
Qed.

Lemma eqb_dark_cases (x : jsstring) :
  (x = js "dark" /\ JsString.eqb x (js "dark") = true) \/
  (x <> js "dark" /\ JsString.eqb x (js "dark") = false).
Proof.
  unfold JsString.eqb. destruct (decide (x = js "dark")) as [H | H].
  - left. split; [exact H|]. apply bool_decide_eq_true_2. exact H.
  - right. split; [exact H|]. apply bool_decide_eq_false_2. exact H.
Qed.

(** A toggle makes the theme light when it was dark and dark otherwise,
    stores it and writes it to the document root, also when the switch
    has no thumb and the call throws.  Two toggles give back a dark or a
    light theme; any other stored value, such as "blue", is lost: it
    becomes dark, then light. *)
Theorem toggle_flips_and_persists (s : state) :
  let s1 := after (toggleTheme s) in
  let s2 := after (toggleTheme s1) in
  (Theme.currentTheme (page s1) = js "light" \/
   Theme.currentTheme (page s1) = js "dark") /\
  (Theme.currentTheme (page s1) = js "light" <->
   Theme.currentTheme (page s) = js "dark") /\
  Theme.stored (page s1) = Some (Theme.currentTheme (page s1)) /\
  Theme.data_theme (page s1) = Some (Theme.currentTheme (page s1)) /\
  (Theme.currentTheme (page s) = js "dark" \/
   Theme.currentTheme (page s) = js "light" ->
   Theme.currentTheme (page s2) = Theme.currentTheme (page s)) /\
  (Theme.currentTheme (page s) <> js "dark" ->
   Theme.currentTheme (page s2) = js "light").
Proof.
  intros s1 s2.
  destruct (toggle_theme s) as (Hc1 & Hs1 & Hd1).
  destruct (toggle_theme s1) as (Hc2 & _ & _).
  fold s1 in Hc1, Hs1, Hd1. fold s2 in Hc2.
  assert (Hlight : JsString.eqb (js "light") (js "dark") = false) by reflexivity.
  assert (Hdark : JsString.eqb (js "dark") (js "dark") = true) by reflexivity.
  destruct (eqb_dark_cases (Theme.currentTheme (page s))) as [[He Hb] | [He Hb]];
    rewrite Hb in Hc1; rewrite Hc1 in Hc2.
  - rewrite Hlight in Hc2.
    split; [left; exact Hc1|]. split; [split; auto|].
    split; [exact Hs1|]. split; [exact Hd1|]. split.
    + intros _. congruence.
    + intros Hn. contradiction.
  - rewrite Hdark in Hc2.
    split; [right; exact Hc1|]. split.
    + rewrite Hc1. split; [discriminate | intros; contradiction].
    + split; [exact Hs1|]. split; [exact Hd1|]. split.
      * intros [Hx | Hx]; [contradiction | congruence].
      * intros _. exact Hc2.
Qed.

(** Events keep a stored preference in place. *)
Lemma handle_keeps_stored s e :
  (exists c r, Theme.stored (page s) = Some (c :: r)) ->
  exists c r, Theme.stored (page (handle s e)) = Some (c :: r).
Proof.
  intros (c & r & Hst). destruct e as [|m]; cbn [handle].
  - destruct (toggle_theme s) as (Hc & Hs & _). rewrite Hs, Hc.
    destruct (JsString.eqb _ _); cbv; eauto.
  - unfold systemThemeChange, Theme.handleSystemThemeChange. rewrite Hst. cbn. eauto.
Qed.

(** Once the user has toggled, a change of the OS preference changes
    nothing, now or after any further toggles and changes. *)
Theorem system_change_ignored_after_toggle
  (s : state) (events : list event) (matches : bool) :
  let s1 := foldl handle (after (toggleTheme s)) events in
  after (systemThemeChange matches s1) = s1.
Proof.
  intros s1.
  assert (Hst : exists c r, Theme.stored (page s1) = Some (c :: r)).
  { subst s1. generalize (after (toggleTheme s)) (toggle_theme s).
    intros s0 (Hc & Hs & _).
    assert (H0 : exists c r, Theme.stored (page s0) = Some (c :: r)).
    { rewrite Hs, Hc. destruct (JsString.eqb _ _); cbv; eauto. }
    clear Hc Hs. revert s0 H0.
    induction events as [|e l IH]; intros s0 H0; cbn; [exact H0|].
    apply IH. apply handle_keeps_stored. exact H0. }
  destruct Hst as (c & r & Hst).
  unfold systemThemeChange, Theme.handleSystemThemeChange. rewrite Hst. cbn.
  destruct s1; reflexivity.
Qed.

Lemma startup_consistent st os sw :
  consistent (Theme.state (Theme.startup st os sw)) /\
  Theme.stored (Theme.state (Theme.startup st os sw)) = st.
Proof.
  unfold Theme.startup, Theme.initializeTheme.
  set (p := Theme.setAttribute _ _).
  assert (Hd : Theme.data_theme p = Some (Theme.currentTheme p)) by reflexivity.
  pose proof (updateThemeSwitcher_consistent p Hd) as Hcons.
  pose proof (updateThemeSwitcher_frame p) as (Hst & _).
  destruct (Theme.updateThemeSwitcher p) as [q|q]; cbn in *; [|auto].
  destruct q as [qs qo qsw qc qd qk qm]. unfold consistent in *. cbn in *.
  destruct qsw, qo; cbn; auto.
Qed.

Lemma handle_consistent s e : consistent (page s) -> consistent (page (handle s e)).
Proof.
  intros Hcons. destruct e as [|m]; cbn [handle].
  - destruct (toggle_page s) as (p & -> & _ & _ & Hd).
    apply updateThemeSwitcher_consistent. exact Hd.
  - unfold systemThemeChange, Theme.handleSystemThemeChange.
    destruct (Theme.stored (page s)) as [[|c r]|];
      try (cbn; exact Hcons);
      match goal with |- context [Theme.updateThemeSwitcher ?q] =>
        pose proof (updateThemeSwitcher_consistent q eq_refl) as H;
        destruct (Theme.updateThemeSwitcher q); exact H
      end.
Qed.

(** Whatever the stored value, the OS preference and the switch, after
    start-up and any toggles and OS changes the [data-theme] attribute is
    the current theme and the thumb of the switch is at 30px exactly when
    the theme is dark. *)
Theorem theme_consistent_through_events
  (t : Z) (st : option jsstring) (os : option bool)
  (sw : option (option jsstring)) (events : list event) :
  consistent (page (foldl handle (started t st os sw) events)).
Proof.
  assert (H0 : consistent (page (started t st os sw)))
    by apply startup_consistent.
  revert H0. generalize (started t st os sw).
  induction events as [|e l IH]; intros s0 H0; cbn; [exact H0|].
  apply IH, handle_consistent, H0.
Qed.

Lemma system_change_nothing_stored s m :
  Theme.stored (page s) = None ->
  Theme.stored (page (handle s (SystemChange m))) = None /\
  Theme.currentTheme (page (handle s (SystemChange m)))
  = (if m then js "dark" else js "light").
Proof.
  intros Hst. cbn [handle]. unfold systemThemeChange, Theme.handleSystemThemeChange.
  rewrite Hst.
  match goal with |- context [Theme.updateThemeSwitcher ?q] =>
    pose proof (updateThemeSwitcher_frame q) as (H1 & H2 & _);
    destruct (Theme.updateThemeSwitcher q); cbn in *; rewrite H1, H2; auto
  end.
Qed.

Lemma system_change_listeners s m :
  Theme.media_listeners (page (handle s (SystemChange m)))
  = Theme.media_listeners (page s).
Proof.
  cbn [handle]. unfold systemThemeChange, Theme.handleSystemThemeChange.
  destruct (Theme.stored (page s)) as [[|c r]|]; try reflexivity;
    unfold Theme.updateThemeSwitcher; cbn;
    destruct (Theme.themeSwitcher (page s)) as [[x|]|]; reflexivity.
Qed.

(** A change of the OS preference on a page with one change listener and
    nothing stored. *)
Lemma deliver_change_listening s m :
  Theme.media_listeners (page s) = 1%nat -> Theme.stored (page s) = None ->
  Theme.media_listeners (page (deliver s (SystemChange m))) = 1%nat /\
  Theme.stored (page (deliver s (SystemChange m))) = None /\
  Theme.currentTheme (page (deliver s (SystemChange m)))
  = (if m then js "dark" else js "light").
Proof.
  intros Hl Hst.
  assert (Hd : deliver s (SystemChange m) = handle s (SystemChange m))
    by (cbn [deliver]; rewrite Hl; reflexivity).
  rewrite Hd.
  split; [rewrite system_change_listeners; exact Hl|].
  apply system_change_nothing_stored. exact Hst.
Qed.

(** Without a change listener the changes of the OS preference do not
    reach the script. *)
Lemma deliver_changes_unheard (changes : list bool) s :
  Theme.media_listeners (page s) = 0%nat ->
  foldl deliver s (List.map SystemChange changes) = s.
Proof.
  intros Hl. induction changes as [|m l IH]; [reflexivity|].
  cbn [List.map foldl].
  assert (Hd : deliver s (SystemChange m) = s)
    by (cbn [deliver]; rewrite Hl; reflexivity).
  rewrite Hd. exact IH.
Qed.

(** With nothing stored, OS changes alone never write the storage.  When
    start-up registered the change listener, that is when
    [window.matchMedia] exists and the switch, if the page has one, has
    its thumb, the theme is the one of the last change.  When it did not
    ([window.matchMedia] is absent, or [updateThemeSwitcher] threw at a
    switch without thumb before [addEventListener] was reached), no
    change reaches the script: the page stays as start-up left it, and
    dark. *)
Theorem system_changes_followed_until_toggle
  (t : Z) (os : option bool) (sw : option (option jsstring))
  (changes : list bool) (last : bool) :
  let s0 := started t None os sw in
  let s := foldl deliver s0 (List.map SystemChange (changes ++ [last])) in
  Theme.stored (page s) = None /\
  (os <> None -> sw <> Some None ->
   Theme.media_listeners (page s0) = 1%nat /\
   Theme.currentTheme (page s) = (if last then js "dark" else js "light")) /\
  (os = None \/ sw = Some None ->
   Theme.media_listeners (page s0) = 0%nat /\
   s = s0 /\
   Theme.currentTheme (page s) = js "dark").
Proof.
  intros s0 s.
  assert (H0 : Theme.stored (page s0) = None) by apply startup_consistent.
  assert (Hdark : Theme.currentTheme (page s0) = js "dark").
  { subst s0. destruct os as [b|], sw as [[x|]|]; reflexivity. }
  assert (Hheard : Theme.media_listeners (page s0) = 1%nat ->
                   Theme.stored (page s) = None /\
                   Theme.currentTheme (page s) = (if last then js "dark" else js "light")).
  { intros Hl. subst s. revert Hl H0. generalize s0. clear.
    induction changes as [|m l IH]; intros s1 Hl Hst; cbn [app List.map foldl].
    - destruct (deliver_change_listening s1 last Hl Hst) as (_ & H1 & H2). auto.
    - destruct (deliver_change_listening s1 m Hl Hst) as (K1 & K2 & _).
      apply IH; assumption. }
  assert (Hunheard : Theme.media_listeners (page s0) = 0%nat -> s = s0).
  { intros Hl. subst s. apply deliver_changes_unheard. exact Hl. }
  assert (Hcases : (os <> None /\ sw <> Some None /\
                    Theme.media_listeners (page s0) = 1%nat) \/
                   ((os = None \/ sw = Some None) /\
                    Theme.media_listeners (page s0) = 0%nat)).
  { subst s0. destruct os as [b|], sw as [[x|]|]; cbn;
      first [left; repeat split; congruence | right; split; [auto | reflexivity]]. }
  destruct Hcases as [(Hos & Hsw & Hl) | (Hno & Hl)].
  - destruct (Hheard Hl) as (K1 & K2).
    split; [exact K1|]. split; [intros _ _; auto|].
    intros [Ho | Hs]; contradiction.
  - pose proof (Hunheard Hl) as Hs.
    split; [rewrite Hs; exact H0|]. split.
    + intros Ho Hs'. destruct Hno; contradiction.
    + intros _. split; [exact Hl|]. split; [exact Hs|]. rewrite Hs. exact Hdark.
Qed.

End ThemeToggleFacts.

(** ** throttle *)

Section ThrottleFacts.
Import Throttle.
Context {A W : Type} (func : A -> W -> W) (limit : Z).

Lemma throttle_run_until last (s : state W) t :
  phase limit last s -> Timers.now (timers s) <= t ->
  world (run_until t s) = world s /\
  Timers.now (timers (run_until t s)) = t /\
  match last with
  | None => inThrottle (run_until t s) = false /\
            Timers.pending (timers (run_until t s)) = []
  | Some l =>
      if l + Z.max 0 limit <=? t
      then inThrottle (run_until t s) = false /\
           Timers.pending (timers (run_until t s)) = []
      else inThrottle (run_until t s) = true /\
           exists tm, Timers.pending (timers (run_until t s)) = [tm] /\
                      Timers.due tm = l + Z.max 0 limit /\ Timers.every tm = None
  end.
Proof.
  intros Hph Hnow. unfold run_until.
  destruct last as [l|]; cbn in Hph.
  - destruct Hph as [(Hin & tm & Hp & Hd & Hev) | (Hin & Hp & Hl)].
    + rewrite Hp. cbn [length turns]. unfold turn, Timers.take. rewrite Hp.
      cbn [Timers.extract]. rewrite Hev, Hd.
      destruct (Z.leb_spec (l + Z.max 0 limit) t) as [Hle | Hgt]; cbn.
      * destruct (Timers.callback tm). cbn.
        split; [reflexivity|]. split; [lia|]. auto.
      * rewrite Hp, Hin. split; [reflexivity|]. split; [lia|].
        split; [reflexivity|]. eauto.
    + rewrite Hp. cbn. rewrite Hp, Hin.
      split; [reflexivity|]. split; [lia|].
      destruct (Z.leb_spec (l + Z.max 0 limit) t); [auto | lia].
  - destruct Hph as [Hin Hp]. rewrite Hp. cbn. rewrite Hp, Hin.
    split; [reflexivity|]. split; [lia | auto].
Qed.

Lemma throttle_play calls : forall last (s : state W) t0,
  phase limit last s -> Timers.now (timers s) <= t0 ->
  match last with Some l => l <= t0 | None => True end ->
  ascending t0 calls ->
  world (play func limit calls s)
  = foldl (fun w c => func (snd c) w) (world s) (passing limit last calls).
Proof.
  induction calls as [|[t a] r IH]; intros last s t0 Hph Hnow Hlast Hasc;
    [reflexivity|].
  destruct Hasc as [Ht Hasc]. cbn [play passing].
  destruct (throttle_run_until last s t Hph ltac:(lia)) as (Hw & Hn & Hcase).
  remember (run_until t s) as s1 eqn:Hs1. clear Hs1.
  assert (Hopen : inThrottle s1 = false -> Timers.pending (timers s1) = [] ->
                  world (play func limit r (call func limit a s1))
                  = foldl (fun w c => func (snd c) w) (world s)
                          ((t, a) :: passing limit (Some t) r)).
  { intros Hin Hp. cbn [foldl snd]. rewrite <- Hw.
    rewrite (IH (Some t) (call func limit a s1) t); [| | | lia | exact Hasc].
    - unfold call. rewrite Hin. reflexivity.
    - unfold call. rewrite Hin. cbn. left. split; [reflexivity|].
      rewrite Hp. eexists. split; [reflexivity|]. cbn. rewrite Hn. auto.
    - unfold call. rewrite Hin. cbn. lia. }
  destruct last as [l|].
  - destruct (Z.leb_spec (l + Z.max 0 limit) t) as [Hle | Hgt].
    + destruct Hcase as [Hin Hp]. apply Hopen; assumption.
    + destruct Hcase as (Hin & tm & Hp & Hd & Hev).
      rewrite (IH (Some l) (call func limit a s1) t); [| | | lia | exact Hasc].
      * unfold call. rewrite Hin. rewrite Hw. reflexivity.
      * unfold call. rewrite Hin. left. split; [exact Hin | eauto].
      * unfold call. rewrite Hin. lia.
  - destruct Hcase as [Hin Hp]. apply Hopen; assumption.
Qed.

(** A throttled function runs on the first call and then on each call
    that comes at least [limit] ms after the last one that ran; the calls
    in between are dropped, with their arguments. *)
Theorem throttle_passes_spaced_calls (t0 : Z) (w : W) (calls : list (Z * A)) :
  ascending t0 calls ->
  world (play func limit calls (fresh t0 w))
  = foldl (fun w c => func (snd c) w) w (passing limit None calls).
Proof.
  intros Hasc.
  apply (throttle_play calls None (fresh t0 w) t0); cbn; auto. lia.
Qed.

End ThrottleFacts.

(** The navbar handler, throttled to 10 ms: of scroll events at 0, 4, 9,
    10 and 25 ms those at 0, 10 and 25 ms get through. *)
Lemma throttle_passes_spaced_calls_witness :
  Throttle.ascending 0 [(0, 1); (4, 2); (9, 3); (10, 4); (25, 5)] /\
  Throttle.world (Throttle.play (fun a w => w ++ [a]) 10
                   [(0, 1); (4, 2); (9, 3); (10, 4); (25, 5)]
                   (Throttle.fresh 0 []))
  = [1; 4; 5].
Proof.
  assert (H : Throttle.ascending 0 [(0, 1); (4, 2); (9, 3); (10, 4); (25, 5)])
    by (cbn; lia).
  split; [exact H|].
  rewrite (throttle_passes_spaced_calls (fun a w => w ++ [a]) 10 0 [] _ H).
  reflexivity.
Defined.

(** ** debounce *)

Section DebounceFacts.
Import Debounce.
Context {A W : Type} (func : A -> W -> W) (wait : Z) (immediate : bool).
Hypothesis wait_positive : 0 < wait.

Lemma debounce_waiting t a x (s : state A W) T :
  armed wait t a x s -> t <= T < t + wait ->
  run_until func immediate T s
  = mkState (timeout s) (world s)
            (Timers.mkQueue T (Timers.next_handle (timers s))
                            (Timers.pending (timers s))).
Proof.
  intros (h & tm & Hto & Hp & Hh & Hd & Hev & Hcb & Hnow & Hw & Hnh) HT.
  unfold run_until. rewrite Hp. cbn [length turns]. unfold turn, Timers.take.
  rewrite Hp. cbn [Timers.extract]. rewrite Hev, Hd.
  destruct (Z.leb_spec (t + wait) T); [lia|]. cbn.
  unfold Timers.at_time. rewrite Hp, Hnow. f_equal. f_equal. lia.
Qed.

Lemma debounce_fired t a x (s : state A W) T :
  armed wait t a x s -> t + wait <= T ->
  run_until func immediate T s
  = mkState None (if immediate then x else func a x)
            (Timers.mkQueue T (Timers.next_handle (timers s)) []).
Proof.
  intros (h & tm & Hto & Hp & Hh & Hd & Hev & Hcb & Hnow & Hw & Hnh) HT.
  unfold run_until. rewrite Hp. cbn [length turns]. unfold turn, Timers.take.
  rewrite Hp. cbn [Timers.extract]. rewrite Hev, Hd, Hcb.
  destruct (Z.leb_spec (t + wait) T); [|lia].
  cbn. rewrite Hw, Hnow.
  unfold Timers.at_time. cbn. f_equal. f_equal. lia.
Qed.

Lemma debounce_call_armed t a x (s : state A W) T b :
  armed wait t a x s -> t <= T < t + wait ->
  armed wait T b x (call func wait immediate b (run_until func immediate T s)).
Proof.
  intros Harm HT. rewrite (debounce_waiting t a x s T Harm HT).
  destruct Harm as (h & tm & Hto & Hp & Hh & Hd & Hev & Hcb & Hnow & Hw & Hnh).
  unfold call. cbn. rewrite Hto. cbn [truthy negb]. rewrite andb_false_r.
  unfold Timers.clear. cbn. rewrite Hp. cbn. rewrite Hh, Nat.eqb_refl. cbn.
  destruct (Timers.next_handle (timers s)) as [|k] eqn:Hk; [lia|].
  exists k. eexists. cbn. repeat split; try reflexivity; try lia.
  - cbn. lia.
  - exact Hw.
Qed.

Lemma debounce_first_call t0 w T a :
  t0 <= T ->
  armed wait T a (if immediate then func a w else w)
        (call func wait immediate a (run_until func immediate T (fresh t0 w))).
Proof.
  intros HT. unfold call, run_until, fresh. cbn.
  rewrite andb_true_r. exists 0%nat. eexists. cbn.
  repeat split; try reflexivity; try lia.
  cbn. lia.
Qed.

Lemma debounce_burst rest : forall t a x (s : state A W),
  armed wait t a x s -> burst wait t rest ->
  armed wait (fst (List.last rest (t, a))) (snd (List.last rest (t, a))) x
        (play func wait immediate rest s).
Proof.
  induction rest as [|[t' a'] r IH]; intros t a x s Harm Hb; [exact Harm|].
  destruct Hb as [Ht' Hb]. cbn [play fst snd] in *.
  pose proof (debounce_call_armed t a x s t' a' Harm Ht') as Harm'.
  specialize (IH t' a' x _ Harm' Hb).
  rewrite last_cons_default. exact IH.
Qed.

(** A burst of calls, each less than [wait] ms after the one before,
    runs the function once.  Without [immediate] it runs [wait] ms after
    the last call of the burst, with the arguments of that last call,
    and not before; with [immediate] it runs at the first call, with the
    arguments of the first call, and not again.  Once [wait] ms have
    passed since the last call the closure is back where it started: no
    timer pending and [timeout] cleared. *)
Theorem debounce_runs_once_per_burst
  (t0 : Z) (w : W) (first : Z * A) (rest : list (Z * A)) (T : Z) :
  t0 <= fst first -> burst wait (fst first) rest ->
  let final := List.last rest first in
  let s := play func wait immediate (first :: rest) (fresh t0 w) in
  (fst final <= T < fst final + wait ->
   world (run_until func immediate T s)
   = (if immediate then func (snd first) w else w)) /\
  (fst final + wait <= T ->
   world (run_until func immediate T s)
   = (if immediate then func (snd first) w else func (snd final) w) /\
   timeout (run_until func immediate T s) = None /\
   Timers.pending (timers (run_until func immediate T s)) = []).
Proof.
  destruct first as [t1 a1]. intros Ht1 Hb. cbv zeta. cbn [play fst snd] in *.
  pose proof (debounce_first_call t0 w t1 a1 Ht1) as Harm.
  pose proof (debounce_burst rest t1 a1 _ _ Harm Hb) as Hend.
  split; intros HT.
  - rewrite (debounce_waiting _ _ _ _ T Hend HT). cbn.
    destruct Hend as (h & tm & _ & _ & _ & _ & _ & _ & _ & Hw & _). exact Hw.
  - rewrite (debounce_fired _ _ _ _ T Hend HT). cbn.
    split; [destruct immediate; reflexivity | auto].
Qed.

End DebounceFacts.

(** Resize events at 0, 100 and 300 ms, debounced by 250 ms: the handler
    has not run at 549 ms and has run once, for the last event, at
    550 ms. *)
Lemma debounce_runs_once_per_burst_witness :
  let record := fun (a : nat) (w : list nat) => a :: w in
  let s := Debounce.play record 250 false [(0, 1%nat); (100, 2%nat); (300, 3%nat)]
             (Debounce.fresh 0 []) in
  0 < 250 /\ 0 <= 0 /\ Debounce.burst 250 0 [(100, 2%nat); (300, 3%nat)] /\
  Debounce.world (Debounce.run_until record false 549 s) = [] /\
  Debounce.world (Debounce.run_until record false 550 s) = [3%nat].
Proof.
  intros record s.
  assert (Hw : 0 < 250) by lia.
  assert (H0 : 0 <= 0) by lia.
  assert (Hb : Debounce.burst 250 0 [(100, 2%nat); (300, 3%nat)]) by (cbn; lia).
  split; [exact Hw|]. split; [exact H0|]. split; [exact Hb|].
  split.
  - apply (debounce_runs_once_per_burst record 250 false Hw 0 [] (0, 1%nat)
             [(100, 2%nat); (300, 3%nat)] 549 H0 Hb).
    cbn. lia.
  - apply (debounce_runs_once_per_burst record 250 false Hw 0 [] (0, 1%nat)
             [(100, 2%nat); (300, 3%nat)] 550 H0 Hb).
    cbn. lia.
Defined.

(** ** The typing animation over a whole text *)

Section TypingCycleFacts.
Import Typing TypingCycle.
Variable playlist : list jsstring.

Lemma ticks_app n : forall m c,
  ticks playlist (n + m) c
  = ticks playlist n c ++
    match after playlist n c with
    | Some c' => ticks playlist m c'
    | None => []
    end.
Proof.
  induction n as [|n IH]; intros m c; [reflexivity|].
  cbn [Nat.add ticks after]. destruct (typeText playlist c) as [t|]; [|reflexivity].
  rewrite IH. reflexivity.
Qed.

Lemma after_app n : forall m c,
  after playlist (n + m) c
  = match after playlist n c with
    | Some c' => after playlist m c'
    | None => None
    end.
Proof.
  induction n as [|n IH]; intros m c; [reflexivity|].
  cbn [Nat.add after]. destruct (typeText playlist c) as [t|]; [|reflexivity].
  apply IH.
Qed.

Lemma ticks_S k c :
  ticks playlist (S k) c
  = match typeText playlist c with
    | None => []
    | Some t => (shown t, typeSpeed t) :: ticks playlist k (next t)
    end.
Proof. reflexivity. Qed.

Lemma after_S k c :
  after playlist (S k) c
  = match typeText playlist c with
    | None => None
    | Some t => after playlist k (next t)
    end.
Proof. reflexivity. Qed.

Lemma typing_phase i text n : forall from,
  playlist !! i = Some text -> (from + S n = length text)%nat ->
  ticks playlist (S n) (mkClosure i (Z.of_nat from) false) = growing text from (S n) /\
  after playlist (S n) (mkClosure i (Z.of_nat from) false)
  = Some (mkClosure i (Z.of_nat (length text)) true).
Proof.
  induction n as [|n IH]; intros from Hi Hlen.
  - cbn [ticks after]. unfold typeText. cbn [textIndex isDeleting charIndex].
    rewrite Hi. cbn [negb andb].
    replace (Z.of_nat from + 1) with (Z.of_nat (length text)) by lia.
    rewrite Z.eqb_refl. cbn [shown typeSpeed next ticks after].
    unfold growing, JsString.substring0. cbn [seq List.map].
    rewrite Nat2Z.id. replace (S from) with (length text) by lia.
    rewrite Nat.eqb_refl. auto.
  - rewrite (ticks_S (S n)), (after_S (S n)).
    unfold typeText. cbn [textIndex isDeleting charIndex].
    rewrite Hi. cbn [negb andb].
    destruct (Z.eqb_spec (Z.of_nat from + 1) (Z.of_nat (length text))) as [He|He]; [lia|].
    cbn [shown typeSpeed next].
    replace (Z.of_nat from + 1) with (Z.of_nat (S from)) by lia.
    destruct (IH (S from) Hi ltac:(lia)) as [Ht Ha].
    rewrite Ht, Ha. split; [|reflexivity].
    unfold growing, JsString.substring0.
    change (seq (S from) (S (S n))) with (S from :: seq (S (S from)) (S n)).
    cbn [List.map]. rewrite Nat2Z.id.
    destruct (Nat.eqb_spec (S from) (length text)); [lia|]. reflexivity.
Qed.

Lemma rev_seq_S n : rev (seq 0 (S n)) = n :: rev (seq 0 n).
Proof. rewrite seq_S, rev_app_distr. reflexivity. Qed.

Lemma deleting_phase i text n :
  playlist !! i = Some text ->
  ticks playlist (S n) (mkClosure i (Z.of_nat (S n)) true) = shrinking text (S n) /\
  after playlist (S n) (mkClosure i (Z.of_nat (S n)) true)
  = Some (mkClosure ((i + 1) mod length playlist)%nat 0 false).
Proof.
  intros Hi. induction n as [|n IH].
  - cbn [ticks after]. unfold typeText. cbn [textIndex isDeleting charIndex].
    rewrite Hi. cbn. auto.
  - rewrite (ticks_S (S n)), (after_S (S n)).
    unfold typeText. cbn [textIndex isDeleting charIndex].
    rewrite Hi. cbn [negb andb].
    destruct (Z.eqb_spec (Z.of_nat (S (S n)) - 1) 0) as [He|He]; [lia|].
    cbn [shown typeSpeed next].
    replace (Z.of_nat (S (S n)) - 1) with (Z.of_nat (S n)) by lia.
    destruct IH as [Ht Ha]. rewrite Ht, Ha. split; [|reflexivity].
    unfold shrinking at 2. rewrite rev_seq_S. cbn [List.map].
    unfold JsString.substring0. rewrite Nat2Z.id. reflexivity.
Qed.

Lemma growing_total text n : forall from,
  (from + S n = length text)%nat ->
  total (growing text from (S n)) = 100 * Z.of_nat n + 2000.
Proof.
  unfold total. induction n as [|n IH]; intros from Hlen.
  - unfold growing. cbn [seq List.map fold_right snd].
    replace (S from) with (length text) by lia.
    rewrite Nat.eqb_refl. reflexivity.
  - unfold growing in *.
    change (seq (S from) (S (S n))) with (S from :: seq (S (S from)) (S n)).
    cbn [List.map fold_right snd].
    destruct (Nat.eqb_spec (S from) (length text)); [lia|].
    rewrite (IH (S from) ltac:(lia)). lia.
Qed.

Lemma shrinking_total text n :
  total (shrinking text (S n)) = 50 * Z.of_nat n + 500.
Proof.
  unfold total, shrinking. induction n as [|n IH]; [reflexivity|].
  rewrite rev_seq_S. cbn [List.map fold_right snd Nat.eqb].
  rewrite IH. lia.
Qed.

Lemma total_app a b : total (a ++ b) = total a + total b.
Proof.
  unfold total. induction a as [|x a IH]; cbn; [reflexivity|].
  cbn in IH. rewrite IH. lia.
Qed.

Lemma one_text_after (i : nat) (text : jsstring) :
  playlist !! i = Some text -> text <> [] ->
  after playlist (2 * length text) (mkClosure i 0 false)
  = Some (mkClosure ((i + 1) mod length playlist)%nat 0 false).
Proof.
  intros Hi Hne.
  destruct (length text) as [|n] eqn:Hlen; [destruct text; [congruence | discriminate]|].
  replace (2 * S n)%nat with (S n + S n)%nat by lia.
  destruct (typing_phase i text n 0 Hi ltac:(lia)) as [_ Ha].
  destruct (deleting_phase i text n Hi) as [_ Ha'].
  change (Z.of_nat 0) with 0 in Ha. rewrite Hlen in Ha.
  rewrite after_app, Ha. exact Ha'.
Qed.

(** One text from start to end.  From the start of a non-empty text of
    [L] characters, [2 * L] calls of [typeText] show its prefixes of
    length 1 up to [L] and then of length [L - 1] down to 0, taking
    [150 * L + 2350] ms in all, and leave the machine at the start of
    the next text of the playlist, or of the first after the last. *)
Theorem typing_one_text (i : nat) (text : jsstring) :
  playlist !! i = Some text -> text <> [] ->
  let start := mkClosure i 0 false in
  ticks playlist (2 * length text) start = cycle text /\
  after playlist (2 * length text) start
  = Some (mkClosure ((i + 1) mod length playlist)%nat 0 false) /\
  total (cycle text) = 150 * Z.of_nat (length text) + 2350.
Proof.
  intros Hi Hne start. subst start.
  destruct (length text) as [|n] eqn:Hlen; [destruct text; [congruence | discriminate]|].
  replace (2 * S n)%nat with (S n + S n)%nat by lia.
  destruct (typing_phase i text n 0 Hi ltac:(lia)) as [Ht Ha].
  destruct (deleting_phase i text n Hi) as [Ht' Ha'].
  change (Z.of_nat 0) with 0 in Ht, Ha. rewrite Hlen in Ha.
  rewrite ticks_app, after_app, Ha, Ht, Ht', Ha'.
  unfold cycle. rewrite Hlen. split; [reflexivity|]. split; [reflexivity|].
  rewrite total_app, (growing_total text n 0 ltac:(lia)), shrinking_total. lia.
Qed.

Lemma period_from suf : forall pre,
  playlist = pre ++ suf -> suf <> [] -> Forall (fun text => text <> []) suf ->
  after playlist (period suf) (mkClosure (length pre) 0 false) = Some initial.
Proof.
  induction suf as [|text suf IH]; intros pre Hp Hne Hall; [congruence|].
  pose proof (List.Forall_inv Hall) as Htext.
  pose proof (List.Forall_inv_tail Hall) as Hall'. cbv beta in Htext.
  change (period (text :: suf)) with (2 * length text + period suf)%nat.
  rewrite after_app.
  assert (Hi : playlist !! length pre = Some text)
    by (rewrite Hp; apply list_lookup_middle; reflexivity).
  pose proof (one_text_after (length pre) text Hi Htext) as Ha.
  rewrite Ha.
  assert (Hlen : length playlist = (length pre + S (length suf))%nat)
    by (rewrite Hp, length_app; reflexivity).
  rewrite Hlen.
  destruct suf as [|text' suf'].
  - cbn [length]. rewrite Nat.Div0.mod_same. reflexivity.
  - rewrite Nat.mod_small by (cbn [length]; lia).
    specialize (IH (pre ++ [text])).
    rewrite length_app in IH. cbn [length] in IH. apply IH.
    + rewrite <- app_assoc. exact Hp.
    + discriminate.
    + exact Hall'.
Qed.

(** The animation is periodic.  On a playlist of non-empty texts, the
    calls that go through every text once bring the machine back to its
    first state, so the frames repeat from there on. *)
Theorem typing_periodic :
  playlist <> [] -> Forall (fun text => text <> []) playlist ->
  after playlist (period playlist) initial = Some initial /\
  forall m, ticks playlist (period playlist + m) initial
            = ticks playlist (period playlist) initial ++ ticks playlist m initial.
Proof.
  intros Hne Hall.
  assert (Ha : after playlist (period playlist) initial = Some initial)
    by (apply (period_from playlist []); auto).
  split; [exact Ha|]. intros m. rewrite ticks_app, Ha. reflexivity.
Qed.

(** An empty text stalls the animation.  At an empty entry of the
    playlist [charIndex] is 1 after the first call and never equals the
    length 0, so the machine neither turns to deleting nor moves to the
    next text: every call shows the empty text, 100 ms after the one
    before. *)
Theorem typing_empty_text_stalls (i : nat) (n : nat) :
  playlist !! i = Some [] ->
  ticks playlist n (mkClosure i 0 false) = repeat ([], 100) n /\
  after playlist n (mkClosure i 0 false) = Some (mkClosure i (Z.of_nat n) false).
Proof.
  intros Hi.
  assert (H : forall n from,
             ticks playlist n (mkClosure i (Z.of_nat from) false) = repeat ([], 100) n /\
             after playlist n (mkClosure i (Z.of_nat from) false)
             = Some (mkClosure i (Z.of_nat (from + n)) false)).
  { clear n. induction n as [|n IH]; intros from.
    - cbn. rewrite Nat.add_0_r. auto.
    - rewrite ticks_S, after_S. unfold typeText. cbn [textIndex isDeleting charIndex].
      rewrite Hi. cbn [negb andb length].
      destruct (Z.eqb_spec (Z.of_nat from + 1) (Z.of_nat 0)) as [He|He]; [lia|].
      cbn [shown typeSpeed next].
      replace (Z.of_nat from + 1) with (Z.of_nat (S from)) by lia.
      destruct (IH (S from)) as [Ht Ha]. rewrite Ht, Ha.
      unfold JsString.substring0. rewrite firstn_nil.
      split; [reflexivity|]. do 2 f_equal. lia. }
  apply (H n 0%nat).
Qed.

End TypingCycleFacts.

(** The first text of the page's playlist: 40 calls, 5350 ms. *)
Lemma typing_one_text_witness :
  Typing.texts !! 0%nat = Some (js "Full-Stack Developer") /\
  js "Full-Stack Developer" <> [] /\
  Typing.after Typing.texts 40 (Typing.mkClosure 0 0 false)
  = Some (Typing.mkClosure 1 0 false) /\
  TypingCycle.total (TypingCycle.cycle (js "Full-Stack Developer")) = 5350.
Proof.
  assert (Hi : Typing.texts !! 0%nat = Some (js "Full-Stack Developer")) by reflexivity.
  assert (Hne : js "Full-Stack Developer" <> []) by discriminate.
  split; [exact Hi|]. split; [exact Hne|].
  destruct (typing_one_text Typing.texts 0 (js "Full-Stack Developer") Hi Hne)
    as (_ & Ha & Ht).
  split; [exact Ha | exact Ht].
Defined.

(** The page's playlist: 180 calls bring the animation back to its
    start. *)
Lemma typing_periodic_witness :
  Typing.texts <> [] /\ Forall (fun text => text <> []) Typing.texts /\
  Typing.after Typing.texts 180 Typing.initial = Some Typing.initial.
Proof.
  assert (Hne : Typing.texts <> []) by discriminate.
  assert (Hall : Forall (fun text : jsstring => text <> []) Typing.texts)
    by (repeat constructor; discriminate).
  split; [exact Hne|]. split; [exact Hall|].
  exact (proj1 (typing_periodic Typing.texts Hne Hall)).
Defined.

(** A playlist whose only text is empty. *)
Lemma typing_empty_text_stalls_witness :
  [[]] !! 0%nat = Some ([] : jsstring) /\
  Typing.after [[]] 3 (Typing.mkClosure 0 0 false)
  = Some (Typing.mkClosure 0 3 false).
Proof.
  assert (Hi : [[]] !! 0%nat = Some ([] : jsstring)) by reflexivity.
  split; [exact Hi|].
  exact (proj2 (typing_empty_text_stalls [[]] 0 3 Hi)).
Defined.

(** ** The timers of the matrix background *)

Section MatrixTimerFacts.
Import Matrix MatrixTimers.

Lemma sum_zero_none {A} (w : A -> nat) (l : list A) :
  list_sum (List.map w l) = 0%nat -> forall x, In x l -> w x = 0%nat.
Proof.
  induction l as [|a l IH]; intros Hs x Hx; [destruct Hx|].
  change (w a + list_sum (List.map w l) = 0)%nat in Hs.
  destruct Hx as [<- | Hx]; [lia|]. apply IH; [lia | exact Hx].
Qed.

Lemma sum_app {A} (w : A -> nat) (l1 l2 : list A) :
  list_sum (List.map w (l1 ++ l2))
  = (list_sum (List.map w l1) + list_sum (List.map w l2))%nat.
Proof. rewrite List.map_app, list_sum_app. reflexivity. Qed.

Lemma sum_filter_keep {A} (w : A -> nat) (p : A -> bool) (l : list A) :
  (forall x, In x l -> p x = false -> w x = 0%nat) ->
  list_sum (List.map w (List.filter p l)) = list_sum (List.map w l).
Proof.
  induction l as [|a l IH]; intros H; [reflexivity|]. cbn [List.filter].
  assert (IH' : list_sum (List.map w (List.filter p l)) = list_sum (List.map w l))
    by (apply IH; intros x Hx; apply H; right; exact Hx).
  change (list_sum (List.map w (a :: l))) with (w a + list_sum (List.map w l))%nat.
  destruct (p a) eqn:Hp.
  - change (list_sum (List.map w (a :: List.filter p l)))
      with (w a + list_sum (List.map w (List.filter p l)))%nat.
    rewrite IH'. reflexivity.
  - rewrite IH', (H a); [reflexivity | left; reflexivity | exact Hp].
Qed.

Lemma sum_filter_drop {A} (w : A -> nat) (p : A -> bool) (l : list A) :
  (forall x, In x l -> p x = true -> w x = 0%nat) ->
  list_sum (List.map w (List.filter p l)) = 0%nat.
Proof.
  induction l as [|a l IH]; intros H; [reflexivity|]. cbn [List.filter].
  assert (IH' : list_sum (List.map w (List.filter p l)) = 0%nat)
    by (apply IH; intros x Hx; apply H; right; exact Hx).
  destruct (p a) eqn:Hp; [|exact IH'].
  change (list_sum (List.map w (a :: List.filter p l)))
    with (w a + list_sum (List.map w (List.filter p l)))%nat.
  rewrite IH', (H a); [reflexivity | left; reflexivity | exact Hp].
Qed.

Lemma initialize_steady t w h rnd : steady (initializeMatrixBackground t w h rnd).
Proof.
  unfold steady, frames_pending, resizes_pending. cbn.
  split; [reflexivity|]. split; [lia|]. split.
  - repeat constructor.
  - split; [discriminate|]. split; [lia|]. auto.
Qed.

Lemma drawMatrix_frame s :
  innerWidth (drawMatrix s) = innerWidth s /\
  innerHeight (drawMatrix s) = innerHeight s /\
  canvas_width (drawMatrix s) = canvas_width s /\
  canvas_height (drawMatrix s) = canvas_height s /\
  resize_timeout (drawMatrix s) = resize_timeout s /\
  timers (drawMatrix s) = timers s.
Proof.
  unfold drawMatrix.
  destruct (draw_columns _ _ _ _ _) as [[gs ds] k]. cbn. auto 10.
Qed.

Lemma drawMatrix_steady s : steady s -> steady (drawMatrix s).
Proof.
  intros (Hf & Hr & Hown & Hto & Hnh & Hcv).
  destruct (drawMatrix_frame s) as (Hiw & Hih & Hcw & Hch & Hrt & Htm).
  unfold steady, frames_pending, resizes_pending in *.
  rewrite Hiw, Hih, Hcw, Hch, Hrt, Htm.
  split; [exact Hf|]. split; [exact Hr|]. split; [|auto].
  eapply List.Forall_impl; [|exact Hown].
  intros x Hx. unfold owned in *. rewrite Hrt. exact Hx.
Qed.

Lemma take_steady s u q :
  Timers.take (timers s) = Some (u, q) -> steady s ->
  match Timers.callback u with
  | DrawMatrix => steady (with_timers q s)
  | ResizeLater => steady (later (with_timers q s))
  end.
Proof.
  intros Htake (Hf & Hr & Hown & Hto & Hnh & Hcv).
  unfold frames_pending, resizes_pending in *.
  unfold Timers.take in Htake.
  destruct (Timers.extract (Timers.pending (timers s))) as [[u' rest]|] eqn:He;
    [|discriminate].
  destruct (extract_spec _ _ _ He) as (Hin & _ & Hsum).
  rewrite (Hsum is_frame) in Hf. rewrite (Hsum is_resize) in Hr, Hcv.
  injection Htake as <- <-.
  rewrite List.Forall_forall in Hown.
  assert (Hu : owned s u') by (apply Hown, Hin; left; reflexivity).
  assert (Hrest : forall x, In x rest -> owned s x)
    by (intros x Hx; apply Hown, Hin; right; exact Hx).
  unfold owned in Hu. cbn [Timers.callback].
  destruct (Timers.callback u') eqn:Hcb.
  - assert (Hfu : is_frame u' = 1%nat) by (unfold is_frame; rewrite Hcb; reflexivity).
    assert (Hru : is_resize u' = 0%nat) by (unfold is_resize; rewrite Hcb; reflexivity).
    rewrite Hfu in Hf. rewrite Hru in Hr, Hcv.
    destruct Hu as [Hev Hhd]. rewrite Hev.
    unfold steady, frames_pending, resizes_pending. cbn -[list_sum].
    rewrite !sum_app.
    change (list_sum (List.map is_frame [Timers.mkTimer (Timers.handle u')
              (Timers.due u' + 50) (Some 50) DrawMatrix])) with 1%nat.
    change (list_sum (List.map is_resize [Timers.mkTimer (Timers.handle u')
              (Timers.due u' + 50) (Some 50) DrawMatrix])) with 0%nat.
    split; [lia|]. split; [lia|]. split.
    + apply Forall_app. split.
      * apply List.Forall_forall. intros x Hx. exact (Hrest x Hx).
      * repeat constructor. exact Hhd.
    + split; [exact Hto|]. split; [exact Hnh|].
      intros H0. apply Hcv. lia.
  - assert (Hfu : is_frame u' = 0%nat) by (unfold is_frame; rewrite Hcb; reflexivity).
    assert (Hru : is_resize u' = 1%nat) by (unfold is_resize; rewrite Hcb; reflexivity).
    rewrite Hfu in Hf. rewrite Hru in Hr, Hcv.
    destruct Hu as [Hev Hhd]. rewrite Hev.
    unfold steady, frames_pending, resizes_pending. cbn -[list_sum].
    assert (Hnone : forall x, In x rest -> is_resize x = 0%nat)
      by (apply sum_zero_none; lia).
    split; [lia|]. split; [lia|]. split.
    + apply List.Forall_forall. intros x Hx. specialize (Hrest x Hx).
      specialize (Hnone x Hx). unfold owned, is_resize in *. cbn.
      destruct (Timers.callback x); [exact Hrest | discriminate].
    + split; [discriminate|]. split; [exact Hnh|]. auto.
Qed.

Lemma step_steady s s' : step s s' -> steady s -> steady s'.
Proof.
  intros Hstep Hst.
  destruct Hstep as [s tm q Htake | s t w h Ht Hq Hw Hh].
  - pose proof (take_steady s tm q Htake Hst) as H.
    destruct (Timers.callback tm); cbn [fire];
      [apply drawMatrix_steady; exact H | exact H].
  - destruct Hst as (Hf & Hr & Hown & Hto & Hnh & Hcv).
    unfold frames_pending, resizes_pending in *.
    unfold on_resize, debounced_resize. cbn -[list_sum].
    rewrite List.Forall_forall in Hown.
    set (old := match resize_timeout s with
                | Some h0 => Timers.clear h0 (Timers.at_time t (timers s))
                | None => Timers.at_time t (timers s)
                end).
    assert (Hold : frames_pending (with_timers old s) = 1%nat /\
                   resizes_pending (with_timers old s) = 0%nat /\
                   (forall x, In x (Timers.pending old) ->
                              In x (Timers.pending (timers s))) /\
                   Timers.next_handle old = Timers.next_handle (timers s)).
    { unfold frames_pending, resizes_pending, old. cbn -[list_sum].
      destruct (resize_timeout s) as [h0|] eqn:Hrt; cbn -[list_sum].
      - specialize (Hto h0 eq_refl).
        split; [|split; [|split; [|reflexivity]]].
        + rewrite sum_filter_keep; [exact Hf|].
          intros x Hx Hp. specialize (Hown x Hx). unfold owned, is_frame in *.
          destruct (Timers.callback x); [|reflexivity].
          destruct Hown as [_ Hh1]. rewrite Hh1 in Hp.
          apply negb_false_iff, Nat.eqb_eq in Hp. lia.
        + apply sum_filter_drop.
          intros x Hx Hp. specialize (Hown x Hx). unfold owned, is_resize in *.
          destruct (Timers.callback x); [reflexivity|].
          destruct Hown as [_ Hh1].
          assert (Hh2 : Timers.handle x = h0) by congruence.
          rewrite Hh2, Nat.eqb_refl in Hp. discriminate.
        + intros x Hx. apply List.filter_In in Hx. tauto.
      - split; [exact Hf|]. split; [|split; [auto | reflexivity]].
        destruct (list_sum (List.map is_resize (Timers.pending (timers s)))) eqn:Hs;
          [reflexivity|].
        exfalso.
        assert (Hex : exists x, In x (Timers.pending (timers s)) /\ is_resize x <> 0%nat).
        { revert Hs. clear. induction (Timers.pending (timers s)) as [|a l IH]; cbn -[list_sum];
            [discriminate|].
          intros Hs. destruct (is_resize a) eqn:Ha.
          - destruct (IH Hs) as (x & Hx & Hn). exists x. auto.
          - exists a. split; [auto | lia]. }
        destruct Hex as (x & Hx & Hn). specialize (Hown x Hx).
        unfold owned, is_resize in *. destruct (Timers.callback x); [lia|].
        destruct Hown as [_ Hh1]. congruence. }
    destruct Hold as (Hf' & Hr' & Hsub & Hnh').
    unfold frames_pending, resizes_pending in Hf', Hr'. cbn -[list_sum] in Hf', Hr'.
    unfold steady, frames_pending, resizes_pending. cbn -[list_sum].
    rewrite !sum_app, Hf', Hr'. cbn.
    split; [reflexivity|]. split; [lia|]. split.
    + apply Forall_app. split.
      * apply List.Forall_forall. intros x Hx.
        assert (Hz : is_resize x = 0%nat) by (eapply sum_zero_none; eauto).
        specialize (Hown x (Hsub x Hx)). unfold owned, is_resize in *. cbn -[list_sum].
        destruct (Timers.callback x); [exact Hown | discriminate].
      * repeat constructor.
    + split; [intros h0 [= <-]; lia|]. split; [lia|]. discriminate.
Qed.

(** The two closures never disturb each other.  However the window is
    resized, the interval of [drawMatrix] is pending exactly once (the
    debounce cancels only its own timer), at most one call of
    [resizeCanvas] is pending, and whenever none is pending the canvas
    has the size of the window. *)
Theorem matrix_timers_steady (t w h : Z) (rnd : nat -> number) (s : state) :
  reachable t w h rnd s ->
  frames_pending s = 1%nat /\
  (resizes_pending s <= 1)%nat /\
  (resizes_pending s = 0%nat ->
   canvas_width s = innerWidth s /\ canvas_height s = innerHeight s).
Proof.
  intros Hreach.
  assert (Hst : steady s).
  { unfold reachable in Hreach.
    assert (Hgen : forall a b, rtc step a b -> steady a -> steady b).
    { intros a b Hab. induction Hab as [|a b c Hstep _ IH]; [auto|].
      intros Ha. apply IH. eapply step_steady; eauto. }
    eapply Hgen; [exact Hreach | apply initialize_steady]. }
  destruct Hst as (Hf & Hr & _ & _ & _ & Hcv). auto.
Qed.

(** *** The first frames *)

Lemma draw_columns_level height rnd d c : forall k i,
  d * 20 <= height ->
  draw_columns height rnd k i (repeat d c)
  = (List.map (fun j =>
       mkGlyph
         (match JsNumber.integer
                  (JsNumber.floor
                     (JsNumber.mul (rnd (k + j)%nat)
                        (JsNumber.of_Z (Z.of_nat (length characters))))) with
          | Some z => if z <? 0 then None else characters !! Z.to_nat z
          | None => None
          end) ((i + Z.of_nat j) * 20) (d * 20)) (seq 0 c),
     repeat (d + 1) c, (k + c)%nat).
Proof.
  induction c as [|c IH]; intros k i Hd.
  - cbn. rewrite Nat.add_0_r. reflexivity.
  - cbn [repeat draw_columns]. unfold draw_column.
    destruct (Z.ltb_spec height (d * 20)) as [Hlt|_]; [lia|].
    rewrite (IH (S k) (i + 1) Hd).
    cbn [seq List.map]. rewrite <- seq_shift, List.map_map.
    rewrite Nat.add_0_r, Z.add_0_r. f_equal; [f_equal|lia].
    f_equal. apply List.map_ext. intros j.
    replace (S k + j)%nat with (k + S j)%nat by lia.
    replace (i + 1 + Z.of_nat j) with (i + Z.of_nat (S j)) by lia. reflexivity.
Qed.

Lemma run_level t w h rnd n :
  20 * (Z.of_nat n - 1) <= h ->
  let c := Z.to_nat (columns_of w) in
  let s := run n (initializeMatrixBackground t w h rnd) in
  drops s = repeat (Z.of_nat n) c /\ drawn s = (n * c)%nat /\
  canvas_height s = h /\ random s = rnd /\
  timers s = Timers.mkQueue (if (n =? 0)%nat then t else t + 50 * Z.of_nat n) 2
               [Timers.mkTimer 1 (t + 50 * (Z.of_nat n + 1)) (Some 50) DrawMatrix] /\
  (forall m, n = S m ->
     positions s = List.map (fun j => (Z.of_nat j * 20, Z.of_nat m * 20)) (seq 0 c)).
Proof.
  intros Hn c.
  assert (Hgen : forall n s0 j,
             drops s0 = repeat (Z.of_nat j) c -> drawn s0 = (j * c)%nat ->
             canvas_height s0 = h -> random s0 = rnd ->
             timers s0 = Timers.mkQueue (if (j =? 0)%nat then t else t + 50 * Z.of_nat j) 2
                          [Timers.mkTimer 1 (t + 50 * (Z.of_nat j + 1)) (Some 50) DrawMatrix] ->
             20 * (Z.of_nat (j + n) - 1) <= h ->
             let s := run n s0 in
             drops s = repeat (Z.of_nat (j + n)) c /\ drawn s = ((j + n) * c)%nat /\
             canvas_height s = h /\ random s = rnd /\
             timers s = Timers.mkQueue
                          (if (j + n =? 0)%nat then t else t + 50 * Z.of_nat (j + n)) 2
                          [Timers.mkTimer 1 (t + 50 * (Z.of_nat (j + n) + 1)) (Some 50)
                                          DrawMatrix] /\
             (forall m, (j + n)%nat = S m -> (n = 0%nat -> positions s0
                 = List.map (fun i => (Z.of_nat i * 20, Z.of_nat m * 20)) (seq 0 c)) ->
                positions s
                = List.map (fun i => (Z.of_nat i * 20, Z.of_nat m * 20)) (seq 0 c))).
  { clear n Hn. induction n as [|n IH]; intros s0 j Hd Hk Hh Hr Hq Hj.
    - cbn [run]. rewrite Nat.add_0_r. repeat split; auto.
    - cbn [run]. rewrite Hq. unfold Timers.take. cbn [Timers.pending Timers.extract
        Timers.every Timers.due Timers.handle Timers.callback Timers.now
        Timers.next_handle fire].
      unfold drawMatrix. cbn [canvas_height random drawn drops with_timers
        innerWidth innerHeight canvas_width resize_timeout timers].
      rewrite Hd, Hk, Hh, Hr.
      rewrite (draw_columns_level h rnd (Z.of_nat j) c (j * c) 0) by lia.
      match goal with |- context [run n ?s1] => set (s1' := s1) end.
      replace (j + S n)%nat with (S j + n)%nat in * by lia.
      specialize (IH s1' (S j)).
      destruct IH as (H1 & H2 & H3 & H4 & H5 & H6); subst s1'; cbn; auto.
      + f_equal. lia.
      + lia.
      + f_equal; [|f_equal; f_equal]; destruct j; cbn; lia.
      + repeat split; auto. intros m Hm Hpos. apply H6; [exact Hm|].
        intros ->. unfold positions. cbn. rewrite List.map_map. cbn.
        apply List.map_ext. intros i. f_equal. lia. }
  specialize (Hgen n (initializeMatrixBackground t w h rnd) 0%nat).
  cbn [Nat.add] in Hgen.
  destruct Hgen as (H1 & H2 & H3 & H4 & H5 & H6); try reflexivity; auto.
  repeat split; auto.
  intros m Hm. apply H6; [exact Hm|]. intros ->. discriminate.
Qed.

(** The rain starts level.  As long as the drops have not left the
    canvas (frame [n] paints at height [20 * (n - 1)], which is at most
    the canvas height), every column holds the same value: after [n]
    frames each drop is [n], the glyphs of the last frame are on one row,
    20 pixels apart, and one random number was taken for each glyph and
    none for a reset. *)
Theorem matrix_rain_starts_level
  (t w h : Z) (rnd : nat -> number) (n : nat) :
  20 * (Z.of_nat n - 1) <= h ->
  let c := Z.to_nat (columns_of w) in
  let s := run n (initializeMatrixBackground t w h rnd) in
  drops s = repeat (Z.of_nat n) c /\
  drawn s = (n * c)%nat /\
  (forall m, n = S m ->
     positions s = List.map (fun j => (Z.of_nat j * 20, Z.of_nat m * 20)) (seq 0 c) /\
     Timers.now (timers s) = t + 50 * Z.of_nat n).
Proof.
  intros Hn c s.
  destruct (run_level t w h rnd n Hn) as (H1 & H2 & _ & _ & H5 & H6).
  fold c in H1, H2, H5, H6. fold s in H1, H2, H5, H6.
  split; [exact H1|]. split; [exact H2|].
  intros m Hm. split; [apply H6; exact Hm|].
  rewrite H5. subst n. reflexivity.
Qed.

End MatrixTimerFacts.

(** A window of 400 by 300 pixels: the first 16 frames are level. *)
Lemma matrix_rain_starts_level_witness :
  20 * (Z.of_nat 16 - 1) <= 300 /\
  Matrix.drops (Matrix.run 16 (Matrix.initializeMatrixBackground 0 400 300
                                 (fun _ => Matrix.half)))
  = repeat 16 20.
Proof.
  assert (H : 20 * (Z.of_nat 16 - 1) <= 300) by (cbn; lia).
  split; [exact H|].
  exact (proj1 (matrix_rain_starts_level 0 400 300 (fun _ => Matrix.half) 16 H)).
Defined.

(** The state after a resize and six timers. *)
Lemma matrix_timers_steady_witness :
  Matrix.reachable 0 400 300 (fun _ => Matrix.half) Matrix.widened /\
  MatrixTimers.frames_pending Matrix.widened = 1%nat /\
  MatrixTimers.resizes_pending Matrix.widened = 0%nat /\
  Matrix.canvas_width Matrix.widened = 800.
Proof.
  assert (H : Matrix.reachable 0 400 300 (fun _ => Matrix.half) Matrix.widened)
    by apply widened_reachable.
  split; [exact H|].
  destruct (matrix_timers_steady 0 400 300 (fun _ => Matrix.half) Matrix.widened H)
    as (Hf & _ & _).
  split; [exact Hf|]. split; vm_compute; reflexivity.
Defined.

(** ** Navigation *)

Section NavFacts.
Import Nav.

Lemma close_closed s : closed (close s).
Proof. repeat split. Qed.

Lemma closed_locked s : closed s -> locked s.
Proof. intros (Hh & Hm & Ho). unfold locked. rewrite Hh, Hm, Ho. auto. Qed.

Lemma toggle_locked s : locked s -> locked (toggleMobileMenu s).
Proof.
  intros [Hh Ho]. unfold locked, toggleMobileMenu. cbn. rewrite Hh. auto.
Qed.

Lemma link_click_locked c s : locked s -> locked (handleNavLinkClick c s).
Proof.
  intros Hl. unfold handleNavLinkClick.
  destruct c as [i|]; [|exact Hl].
  destruct (navLinks s !! i) as [l|]; [|exact Hl].
  destruct (querySelector s (selector l)); [|exact Hl].
  split; reflexivity.
Qed.

Lemma outside_locked inside s : locked s -> locked (handleOutsideClick inside s).
Proof.
  intros Hl. unfold handleOutsideClick.
  destruct (negb inside && navMenu s); [apply closed_locked, close_closed | exact Hl].
Qed.

Lemma click_locked tg inside s : locked s -> locked (click tg inside s).
Proof.
  intros Hl. unfold click. apply outside_locked.
  destruct tg; auto using toggle_locked, link_click_locked.
Qed.

(** The menu and the scroll lock go together.  Whatever happens (clicks
    anywhere, keys, scrolling, resizing), the hamburger and the menu are
    open or closed together and the body has [overflow: hidden] exactly
    while the menu is open. *)
Theorem menu_scroll_lock (e : event) (s : state) :
  locked s -> locked (handle e s).
Proof.
  intros Hl. destruct e as [tg inside | key focus | y | | | w |]; cbn [handle].
  - apply click_locked. exact Hl.
  - unfold handleKeyboardNavigation.
    set (s1 := if JsString.eqb key (js "Escape") && navMenu s
               then toggleMobileMenu s else s).
    assert (H1 : locked s1)
      by (subst s1; destruct (_ && _); auto using toggle_locked).
    destruct (JsString.eqb key (js "Enter")); [|exact H1].
    destruct focus as [[i inside]|]; [apply click_locked|]; exact H1.
  - exact Hl.
  - exact Hl.
  - exact Hl.
  - exact Hl.
  - unfold resized.
    destruct (_ && _); [apply closed_locked, close_closed | exact Hl].
Qed.

Lemma link_click_menu c s :
  navMenu s = false -> navMenu (handleNavLinkClick c s) = false.
Proof.
  intros Hm. unfold handleNavLinkClick.
  destruct c as [i|]; [|exact Hm].
  destruct (navLinks s !! i) as [l|]; [|exact Hm].
  destruct (querySelector s (selector l)); [reflexivity | exact Hm].
Qed.

Lemma outside_menu inside s :
  navMenu (handleOutsideClick inside s) = true ->
  navMenu s = true /\ inside = true.
Proof.
  unfold handleOutsideClick.
  destruct inside, (navMenu s) eqn:Hm; cbn; rewrite ?Hm; intros H; auto; discriminate.
Qed.

Lemma key_menu key focus s :
  navMenu s = false -> navMenu (handleKeyboardNavigation key focus s) = false.
Proof.
  intros Hm. unfold handleKeyboardNavigation. rewrite Hm.
  destruct (JsString.eqb key (js "Escape")); cbn [andb].
  - destruct (JsString.eqb key (js "Enter")); [|exact Hm].
    destruct focus as [[i inside]|]; [|exact Hm].
    destruct (navMenu (click (NavLink i) inside s)) eqn:Hc; [|reflexivity].
    unfold click in Hc. apply outside_menu in Hc as [Hc _].
    rewrite link_click_menu in Hc by exact Hm. discriminate.
  - destruct (JsString.eqb key (js "Enter")); [|exact Hm].
    destruct focus as [[i inside]|]; [|exact Hm].
    destruct (navMenu (click (NavLink i) inside s)) eqn:Hc; [|reflexivity].
    unfold click in Hc. apply outside_menu in Hc as [Hc _].
    rewrite link_click_menu in Hc by exact Hm. discriminate.
Qed.

(** Only the hamburger opens the menu, and only from inside the navbar.
    If the menu is closed before an event and open after it, the event
    was a click on the hamburger, and the navbar contains the hamburger:
    a hamburger outside the navbar would open the menu and have the
    document's listener close it again in the same click. *)
Theorem menu_opened_by_hamburger (e : event) (s : state) :
  navMenu s = false -> navMenu (handle e s) = true ->
  e = Click Hamburger true.
Proof.
  intros Hm Ho. destruct e as [tg inside | key focus | y | | | w |];
    cbn [handle] in Ho;
    try (exfalso; cbn in Ho; congruence).
  - unfold click in Ho. apply outside_menu in Ho as [Ho ->].
    destruct tg; try congruence.
    + rewrite link_click_menu in Ho by exact Hm. discriminate.
    + rewrite link_click_menu in Ho by exact Hm. discriminate.
  - rewrite key_menu in Ho by exact Hm. discriminate.
  - exfalso. unfold resized in Ho. rewrite Hm in Ho.
    destruct (768 <? innerWidth s); cbn [andb] in Ho; congruence.
Qed.

Lemma outside_false_closed s : locked s -> closed (handleOutsideClick false s).
Proof.
  intros [Hh Ho]. unfold handleOutsideClick. cbn [negb andb].
  destruct (navMenu s) eqn:Hm; [apply close_closed|].
  unfold closed. rewrite Hh, Ho, Hm. auto.
Qed.

(** What closes an open menu: a click outside the navbar, whatever its
    target; a click on a navigation link whose section exists; the
    Escape key; a resize that leaves the window wider than 768 pixels.
    Afterwards the hamburger and the menu are closed and the page
    scrolls again. *)
Theorem menu_closes (s : state) :
  locked s -> navMenu s = true ->
  (forall tg, closed (handle (Click tg false) s)) /\
  (forall i inside l top,
      navLinks s !! i = Some l -> querySelector s (selector l) = Some top ->
      closed (handle (Click (NavLink i) inside) s)) /\
  (forall focus, closed (handle (Keydown (js "Escape") focus) s)) /\
  (768 < innerWidth s -> closed (handle Resized s)).
Proof.
  intros Hlk Hm. pose proof Hlk as [Hh Ho]. split; [|split; [|split]].
  - intros tg. cbn [handle]. unfold click. apply outside_false_closed.
    destruct tg; auto using toggle_locked, link_click_locked.
  - intros i inside l top Hl Hq. cbn [handle]. unfold click, handleNavLinkClick.
    rewrite Hl, Hq. unfold handleOutsideClick. cbn. rewrite andb_false_r.
    repeat split.
  - intros focus. cbn [handle]. unfold handleKeyboardNavigation.
    change (JsString.eqb (js "Escape") (js "Escape")) with true.
    change (JsString.eqb (js "Escape") (js "Enter")) with false.
    rewrite Hm. cbn. unfold closed. cbn. rewrite Hh, Hm. auto.
  - intros Hw. cbn [handle]. unfold resized. rewrite Hm.
    destruct (Z.ltb_spec 768 (innerWidth s)); [apply close_closed | lia].
Qed.

(** A click on a navigation link whose section exists makes it the one
    active link, asks for a scroll to 100 pixels above the section, and
    leaves the links' targets as they were. *)
Theorem nav_link_click_one_active
  (s : state) (i : nat) (inside : bool) (l : link) (top : Z) :
  navLinks s !! i = Some l -> querySelector s (selector l) = Some top ->
  let s' := handle (Click (NavLink i) inside) s in
  scrolledTo s' = Some (top - 100) /\
  List.map href (navLinks s') = List.map href (navLinks s) /\
  forall j l', navLinks s' !! j = Some l' -> (active l' = true <-> j = i).
Proof.
  intros Hl Hq s'. subst s'. cbn [handle]. unfold click, handleNavLinkClick.
  rewrite Hl, Hq. unfold handleOutsideClick. cbn. rewrite andb_false_r. cbn.
  split; [reflexivity|]. split.
  - apply list_eq. intros j. rewrite !list_lookup_fmap.
    destruct (decide (j = i)) as [->|Hne].
    + rewrite list_lookup_alter_eq, list_lookup_fmap, Hl. reflexivity.
    + rewrite list_lookup_alter_ne by congruence.
      rewrite list_lookup_fmap. destruct (navLinks s !! j); reflexivity.
  - intros j l' Hj. destruct (decide (j = i)) as [->|Hne].
    + rewrite list_lookup_alter_eq, list_lookup_fmap, Hl in Hj.
      injection Hj as <-. cbn. tauto.
    + rewrite list_lookup_alter_ne in Hj by congruence.
      rewrite list_lookup_fmap in Hj.
      destruct (navLinks s !! j); [|discriminate]. injection Hj as <-. cbn.
      split; [discriminate | contradiction].
Qed.

Lemma current_app y l1 l2 cur :
  fold_left (fun cur sec => if holds y sec then id sec else cur) (l1 ++ l2) cur
  = fold_left (fun cur sec => if holds y sec then id sec else cur) l2
      (fold_left (fun cur sec => if holds y sec then id sec else cur) l1 cur).
Proof. apply fold_left_app. Qed.

Lemma current_none y l : forall cur,
  Forall (fun sec => holds y sec = false) l ->
  fold_left (fun cur sec => if holds y sec then id sec else cur) l cur = cur.
Proof.
  induction l as [|a l IH]; intros cur Hall; [reflexivity|].
  cbn. rewrite (List.Forall_inv Hall). apply IH. exact (List.Forall_inv_tail Hall).
Qed.

Lemma last_holding y (l : list section) :
  Forall (fun sec => holds y sec = false) l \/
  exists pre sec suf, l = pre ++ sec :: suf /\ holds y sec = true /\
                      Forall (fun sec => holds y sec = false) suf.
Proof.
  induction l as [|a l IH]; [left; constructor|].
  destruct IH as [Hnone | (pre & sec & suf & -> & Hs & Hsuf)].
  - destruct (holds y a) eqn:Ha.
    + right. exists [], a, l. auto.
    + left. constructor; assumption.
  - right. exists (a :: pre), sec, suf. auto.
Qed.

(** The link highlighted while scrolling is that of the last section, in
    document order, that holds the scroll position: where sections
    overlap the later one wins.  A link is active afterwards exactly when
    its [href] is [#] followed by that section's [id]; when no section
    holds the position, exactly the links whose [href] is a bare [#]. *)
Theorem active_link_follows_last_section (s : state) :
  let s' := handle ActiveNavLink s in
  let y := scrollY s in
  (exists cur,
      (forall l', In l' (navLinks s') ->
                  (active l' = true <-> href l' = Some ([35] ++ cur))) /\
      ((cur = [] /\ Forall (fun sec => holds y sec = false) (sections s)) \/
       (exists pre sec suf,
           sections s = pre ++ sec :: suf /\ cur = id sec /\ holds y sec = true /\
           Forall (fun sec => holds y sec = false) suf))) /\
  List.map href (navLinks s') = List.map href (navLinks s).
Proof.
  intros s' y. subst s'. cbn [handle]. unfold updateActiveNavLink. cbn.
  split.
  - exists (current (scrollY s) (sections s)). split.
    + intros l' Hin. apply List.in_map_iff in Hin as (l & <- & _). cbn.
      destruct (href l) as [h|]; [|split; discriminate].
      unfold JsString.eqb. rewrite bool_decide_eq_true.
      split; [intros ->; reflexivity | intros [= ->]; reflexivity].
    + fold y. unfold current.
      destruct (last_holding y (sections s)) as [Hnone | (pre & sec & suf & Hl & Hs & Hsuf)].
      * left. split; [apply current_none; exact Hnone | exact Hnone].
      * right. exists pre, sec, suf. split; [exact Hl|].
        split; [|split; [exact Hs | exact Hsuf]].
        rewrite Hl, current_app. cbn. rewrite Hs. apply current_none. exact Hsuf.
  - rewrite List.map_map. reflexivity.
Qed.

End NavFacts.

(** An open menu on a narrow window. *)
Lemma menu_scroll_lock_witness :
  let s := Nav.mkState true true (js "hidden") false [] [] (fun _ => None)
                       (S754_zero false) 600 None in
  Nav.locked s /\ Nav.locked (Nav.handle (Nav.Click Nav.Other false) s) /\
  Nav.overflow (Nav.handle (Nav.Click Nav.Other false) s) = [].
Proof.
  intros s.
  assert (H : Nav.locked s) by (split; reflexivity).
  split; [exact H|]. split; [|reflexivity].
  exact (menu_scroll_lock (Nav.Click Nav.Other false) s H).
Defined.

(** A closed menu and a click on the hamburger inside the navbar. *)
Lemma menu_opened_by_hamburger_witness :
  let s := Nav.mkState false false [] false [] [] (fun _ => None)
                       (S754_zero false) 600 None in
  Nav.navMenu s = false /\
  Nav.navMenu (Nav.handle (Nav.Click Nav.Hamburger true) s) = true /\
  Nav.navMenu (Nav.handle (Nav.Click Nav.Hamburger false) s) = false /\
  Nav.Click Nav.Hamburger true = Nav.Click Nav.Hamburger true.
Proof.
  intros s.
  assert (Hm : Nav.navMenu s = false) by reflexivity.
  assert (Ho : Nav.navMenu (Nav.handle (Nav.Click Nav.Hamburger true) s) = true)
    by reflexivity.
  split; [exact Hm|]. split; [exact Ho|]. split; [reflexivity|].
  exact (menu_opened_by_hamburger (Nav.Click Nav.Hamburger true) s Hm Ho).
Defined.

(** An open menu and the Escape key. *)
Lemma menu_closes_witness :
  let s := Nav.mkState true true (js "hidden") false [] [] (fun _ => None)
                       (S754_zero false) 600 None in
  Nav.locked s /\ Nav.navMenu s = true /\
  Nav.closed (Nav.handle (Nav.Keydown (js "Escape") None) s).
Proof.
  intros s.
  assert (H : Nav.locked s) by (split; reflexivity).
  assert (Hm : Nav.navMenu s = true) by reflexivity.
  split; [exact H|]. split; [exact Hm|].
  destruct (menu_closes s H Hm) as (_ & _ & He & _). apply He.
Defined.

(** Two links, the second clicked. *)
Lemma nav_link_click_one_active_witness :
  let links := [Nav.mkLink (Some (js "#home")) true;
                Nav.mkLink (Some (js "#about")) false] in
  let s := Nav.mkState false false [] false links []
             (fun sel => if JsString.eqb sel (js "#about") then Some 900 else None)
             (S754_zero false) 1200 None in
  Nav.navLinks s !! 1%nat = Some (Nav.mkLink (Some (js "#about")) false) /\
  Nav.querySelector s (Nav.selector (Nav.mkLink (Some (js "#about")) false)) = Some 900 /\
  Nav.scrolledTo (Nav.handle (Nav.Click (Nav.NavLink 1) true) s) = Some 800 /\
  List.map Nav.active (Nav.navLinks (Nav.handle (Nav.Click (Nav.NavLink 1) true) s))
  = [false; true].
Proof.
  intros links s.
  assert (Hl : Nav.navLinks s !! 1%nat = Some (Nav.mkLink (Some (js "#about")) false))
    by reflexivity.
  assert (Hq : Nav.querySelector s (Nav.selector (Nav.mkLink (Some (js "#about")) false))
               = Some 900) by reflexivity.
  split; [exact Hl|]. split; [exact Hq|].
  destruct (nav_link_click_one_active s 1 true _ 900 Hl Hq) as (Hs & _ & _).
  split; [exact Hs | reflexivity].
Defined.

(** ** Decimal text *)

Section DecimalFacts.
Import JsNumber.

Lemma digits_value_app x : forall a y,
  digits_value a (x ++ y) = digits_value (digits_value a x) y.
Proof. induction x as [|c x IH]; intros a y; [reflexivity|]. cbn. apply IH. Qed.

Lemma digits_acc_spec f : forall n acc,
  0 <= n < 10 ^ (Z.of_nat f + 1) ->
  exists ds, digits_acc f n acc = ds ++ acc /\ ds <> [] /\
             Forall (fun c => is_digit c = true) ds /\
             forall a, digits_value a ds = a * 10 ^ Z.of_nat (length ds) + n.
Proof.
  assert (Hone : forall n acc, 0 <= n < 10 ->
            exists ds, digit_char (n mod 10) :: acc = ds ++ acc /\ ds <> [] /\
                       Forall (fun c => is_digit c = true) ds /\
                       forall a, digits_value a ds = a * 10 ^ Z.of_nat (length ds) + n).
  { intros n acc Hn. exists [digit_char (n mod 10)].
    rewrite Z.mod_small by lia. unfold digit_char, is_digit.
    split; [reflexivity|]. split; [discriminate|]. split.
    - repeat constructor. apply andb_true_intro. split; apply Z.leb_le; lia.
    - intros a. cbn. lia. }
  induction f as [|f IH]; intros n acc Hn.
  - cbn [digits_acc]. apply Hone. cbn in Hn. lia.
  - cbn [digits_acc]. destruct (Z.ltb_spec n 10) as [Hlt|Hge]; [apply Hone; lia|].
    assert (Hq : 0 <= n / 10 < 10 ^ (Z.of_nat f + 1)).
    { split; [apply Z.div_pos; lia|].
      apply Z.div_lt_upper_bound; [lia|].
      replace (Z.of_nat (S f) + 1) with (Z.succ (Z.of_nat f + 1)) in Hn by lia.
      rewrite Z.pow_succ_r in Hn by lia. lia. }
    destruct (IH (n / 10) (digit_char (n mod 10) :: acc) Hq)
      as (ds & Heq & Hne & Hdig & Hval).
    exists (ds ++ [digit_char (n mod 10)]).
    split; [rewrite Heq, <- app_assoc; reflexivity|].
    split; [destruct ds; discriminate|]. split.
    + apply Forall_app. split; [exact Hdig|]. repeat constructor.
      unfold digit_char, is_digit. pose proof (Z.mod_pos_bound n 10 ltac:(lia)).
      apply andb_true_intro. split; apply Z.leb_le; lia.
    + intros a. rewrite digits_value_app, Hval, length_app. cbn [length digits_value].
      unfold digit_char.
      replace (Z.of_nat (length ds + 1)) with (Z.succ (Z.of_nat (length ds))) by lia.
      rewrite Z.pow_succ_r by lia.
      pose proof (Z.div_mod n 10 ltac:(lia)). lia.
Qed.

Lemma decimal_spec n :
  0 <= n ->
  decimal n <> [] /\ Forall (fun c => is_digit c = true) (decimal n) /\
  digits_value 0 (decimal n) = n.
Proof.
  intros Hn. unfold decimal.
  assert (Hb : 0 <= n < 10 ^ (Z.of_nat (Z.to_nat (Z.log2 n)) + 1)).
  { split; [exact Hn|]. rewrite Z2Nat.id by apply Z.log2_nonneg.
    destruct (Z.eq_dec n 0) as [->|Hnz]; [cbn; lia|].
    pose proof (Z.log2_spec n ltac:(lia)) as [_ Hup].
    eapply Z.lt_le_trans; [exact Hup|].
    pose proof (Z.log2_nonneg n).
    replace (Z.succ (Z.log2 n)) with (Z.log2 n + 1) by lia.
    apply Z.pow_le_mono_l. lia. }
  destruct (digits_acc_spec _ n [] Hb) as (ds & Heq & Hne & Hdig & Hval).
  rewrite Heq, app_nil_r. split; [exact Hne|]. split; [exact Hdig|].
  rewrite Hval. lia.
Qed.

(** Reading back what was written.  The digits that [toFixed] and
    [toString] write for a natural number are read by [parseFloat] as
    that number: the text is all digits, and their value is the number. *)
Theorem decimal_round_trip (n : Z) :
  0 <= n ->
  span_digits (decimal n) = (decimal n, []) /\
  digits_value 0 (decimal n) = n /\
  parseFloat (decimal n) = nearest false n 1.
Proof.
  intros Hn. destruct (decimal_spec n Hn) as (Hne & Hdig & Hval).
  assert (Hspan : forall l, Forall (fun c => is_digit c = true) l ->
                            span_digits l = (l, [])).
  { induction l as [|c l IH]; intros Hl; [reflexivity|].
    cbn. rewrite (List.Forall_inv Hl), (IH (List.Forall_inv_tail Hl)). reflexivity. }
  split; [apply Hspan; exact Hdig|]. split; [exact Hval|].
  unfold parseFloat.
  destruct (decimal n) as [|c l] eqn:Hd; [congruence|].
  pose proof (List.Forall_inv Hdig) as Hc. cbv beta in Hc.
  assert (Hws : JsString.is_whitespace c = false).
  { unfold is_digit in Hc. apply andb_prop in Hc as [H1 H2].
    apply Z.leb_le in H1, H2. unfold JsString.is_whitespace.
    repeat (apply orb_false_intro);
      try (apply Z.eqb_neq; lia).
    apply andb_false_intro1. apply Z.leb_gt. lia. }
  cbn [JsString.trimStart]. rewrite Hws.
  assert (Hsign : c <> 45 /\ c <> 43).
  { unfold is_digit in Hc. apply andb_prop in Hc as [H1 H2].
    apply Z.leb_le in H1, H2. lia. }
  assert (Hun : parseUnsigned false (c :: l) = nearest false n 1).
  { unfold parseUnsigned.
    assert (Hinf : starts_with (js "Infinity") (c :: l) = false).
    { unfold starts_with, JsString.eqb. apply bool_decide_eq_false.
      cbn. intros Heq. injection Heq as Heq _. subst c. discriminate Hc. }
    rewrite Hinf, (Hspan _ Hdig).
    unfold decimal_value, exponent_part. cbn [Z.sub Z.leb Z.compare Z.opp].
    rewrite Hval. cbn. rewrite Z.mul_1_r. reflexivity. }
  destruct (Z.eq_dec c 45) as [->|H45]; [tauto|].
  destruct (Z.eq_dec c 43) as [->|H43]; [tauto|].
  destruct c as [|p|p]; try exact Hun.
  do 6 (destruct p as [p|p|]; try exact Hun); congruence.
Qed.

End DecimalFacts.

Lemma decimal_round_trip_witness :
  0 <= 2024 /\ JsNumber.digits_value 0 (JsNumber.decimal 2024) = 2024.
Proof.
  assert (H : 0 <= 2024) by lia.
  split; [exact H|].
  exact (proj1 (proj2 (decimal_round_trip 2024 H))).
Defined.

(** ** The Konami code *)

Section KonamiFacts.
Import Konami.

Lemma show_spec k :
  show k <> [] /\ Forall (fun c => JsNumber.is_digit c = true) (show k) /\
  JsNumber.digits_value 0 (show k) = Z.of_N k.
Proof. apply decimal_spec. lia. Qed.

Lemma span_digits_stop ds rest :
  Forall (fun c => JsNumber.is_digit c = true) ds ->
  match rest with [] => True | c :: _ => JsNumber.is_digit c = false end ->
  JsNumber.span_digits (ds ++ rest) = (ds, rest).
Proof.
  intros Hds Hrest. induction ds as [|c ds IH].
  - destruct rest as [|c r]; [reflexivity|]. cbn. rewrite Hrest. reflexivity.
  - cbn. rewrite (List.Forall_inv Hds), (IH (List.Forall_inv_tail Hds)). reflexivity.
Qed.

Lemma join_cons k r :
  join (k :: r) = show k ++ match r with [] => [] | _ => [44] ++ join r end.
Proof. destruct r; cbn [join]; [rewrite app_nil_r|]; reflexivity. Qed.

Lemma join_nonempty k r : join (k :: r) <> [].
Proof.
  rewrite join_cons. destruct (show_spec k) as (Hne & _).
  destruct (show k); [congruence | discriminate].
Qed.

Lemma join_injective (l l' : list N) :
  join l = join l' <-> l = l'.
Proof.
  split; [|intros ->; reflexivity].
  revert l'. induction l as [|k r IH]; intros [|k' r'] Heq.
  - reflexivity.
  - exfalso. symmetry in Heq. revert Heq. apply join_nonempty.
  - exfalso. revert Heq. apply join_nonempty.
  - rewrite !join_cons in Heq.
    destruct (show_spec k) as (_ & Hd & Hv).
    destruct (show_spec k') as (_ & Hd' & Hv').
    assert (Hspan : (show k, match r with [] => [] | _ => [44] ++ join r end)
                    = (show k', match r' with [] => [] | _ => [44] ++ join r' end)).
    { rewrite <- (span_digits_stop (show k) _ Hd), <- (span_digits_stop (show k') _ Hd').
      - rewrite Heq. reflexivity.
      - destruct r'; [exact I | reflexivity].
      - destruct r; [exact I | reflexivity]. }
    injection Hspan as Hk Hr.
    assert (k = k') by (apply N2Z.inj; rewrite <- Hv, <- Hv', Hk; reflexivity).
    subst k'. f_equal. apply IH.
    destruct r as [|a r], r' as [|a' r']; try discriminate; [reflexivity|].
    injection Hr as Hr. exact Hr.
Qed.

Lemma keydown_arrays k s :
  keydown k s
  = if decide (pushed (konamiCode s) k = konamiSequence)
    then mkState [] (S (eggs s))
    else mkState (pushed (konamiCode s) k) (eggs s).
Proof.
  unfold keydown, JsString.eqb.
  destruct (decide (pushed (konamiCode s) k = konamiSequence)) as [He|Hne].
  - rewrite bool_decide_eq_true_2; [reflexivity | rewrite He; reflexivity].
  - rewrite bool_decide_eq_false_2; [reflexivity|].
    intros Hj. apply Hne, join_injective, Hj.
Qed.

(** Joining with commas loses nothing on key codes: two arrays have the
    same joined text exactly when they are the same array.  So the
    comparison of the listener is a comparison of the arrays, and a key
    calls [triggerEasterEgg] exactly when the array, with the key
    pushed, is the sequence. *)
Theorem konami_join_compares_arrays (l l' : list N) (k : N) (s : state) :
  (join l = join l' <-> l = l') /\
  (eggs (keydown k s) = S (eggs s) <-> pushed (konamiCode s) k = konamiSequence).
Proof.
  split; [apply join_injective|].
  rewrite keydown_arrays.
  destruct (decide (pushed (konamiCode s) k = konamiSequence)) as [He|Hne];
    cbn [eggs].
  - split; auto.
  - split; [lia | contradiction].
Qed.

Lemma pushed_recent code k :
  (length code <= 10)%nat -> pushed code k = recent (code ++ [k]).
Proof.
  intros Hlen. unfold pushed, recent. rewrite length_app. cbn [length konamiSequence].
  destruct (Nat.ltb_spec 10 (length code + 1)) as [Hlt|Hge].
  - replace (length code + 1 - 10)%nat with 1%nat by lia.
    destruct (code ++ [k]); reflexivity.
  - replace (length code + 1 - 10)%nat with 0%nat by lia. reflexivity.
Qed.

Lemma recent_length l : (length (recent l) <= 10)%nat.
Proof. unfold recent. rewrite length_skipn. lia. Qed.

Lemma recent_recent l k : recent (recent l ++ [k]) = recent (l ++ [k]).
Proof.
  unfold recent. rewrite !length_app, length_skipn. cbn [length].
  rewrite !drop_app_le by (rewrite ?length_drop; lia).
  rewrite drop_drop. f_equal. f_equal. lia.
Qed.

Lemma keys_bounded history :
  (length (konamiCode (keys history initial)) <= 10)%nat.
Proof.
  unfold keys. rewrite <- fold_left_rev_right.
  induction (rev history) as [|k l IH]; cbn [fold_right]; [cbn; lia|].
  rewrite keydown_arrays. destruct (decide _); cbn [konamiCode]; [cbn; lia|].
  rewrite pushed_recent by exact IH. apply recent_length.
Qed.

(** The keys of a part of the sequence that stops before its end do
    not trigger: the array then ends in a key that is not the last of
    the sequence. *)
Lemma keys_partial part : forall code e,
  (length code <= 10)%nat -> ~ In 65%N part ->
  keys part (mkState code e)
  = mkState (fold_left (fun c k => recent (c ++ [k])) part code) e.
Proof.
  induction part as [|k part IH]; intros code e Hlen Hnot; [reflexivity|].
  cbn [keys fold_left] in *. rewrite keydown_arrays. cbn [konamiCode eggs].
  rewrite pushed_recent by exact Hlen.
  destruct (decide (recent (code ++ [k]) = konamiSequence)) as [He|Hne].
  - exfalso. apply Hnot. left.
    assert (Hl : last (recent (code ++ [k])) = Some k).
    { unfold recent. rewrite length_app. cbn [length].
      rewrite drop_app_le by lia. apply last_snoc. }
    rewrite He in Hl. cbn in Hl. congruence.
  - apply IH; [apply recent_length|]. intros Hin. apply Hnot. right. exact Hin.
Qed.

Lemma fold_recent part : forall code,
  fold_left (fun c k => recent (c ++ [k])) part (recent code) = recent (code ++ part).
Proof.
  induction part as [|k part IH]; intros code; [rewrite app_nil_r; reflexivity|].
  cbn [fold_left]. rewrite recent_recent, IH, <- app_assoc. reflexivity.
Qed.

Lemma keys_app a b s : keys (a ++ b) s = keys b (keys a s).
Proof. apply fold_left_app. Qed.

Lemma recent_short code : (length code <= 10)%nat -> recent code = code.
Proof.
  intros H. unfold recent. replace (length code - 10)%nat with 0%nat by lia.
  reflexivity.
Qed.

Lemma recent_sequence code : recent (code ++ konamiSequence) = konamiSequence.
Proof.
  unfold recent. rewrite length_app.
  replace (length code + length konamiSequence - 10)%nat with (length code)
    by (cbn [length konamiSequence]; lia).
  rewrite drop_app_length. reflexivity.
Qed.

Lemma sequence_split :
  konamiSequence = [38; 38; 40; 40; 37; 39; 37; 39; 66]%N ++ [65%N].
Proof. reflexivity. Qed.

Lemma sequence_part n :
  (n < 10)%nat -> ~ In 65%N (firstn n konamiSequence).
Proof.
  intros Hn Hin. apply In_nth_error in Hin as (j & Hj).
  rewrite nth_error_firstn in Hj.
  destruct (Nat.ltb_spec j n) as [Hjn|_]; [|discriminate].
  do 9 (destruct j as [|j]; [discriminate Hj|]). lia.
Qed.

(** The code always works.  Whatever was typed before, the array holds
    at most ten keys, and typing the ten keys of the sequence calls
    [triggerEasterEgg] once, at the last key and not before, and empties
    the array. *)
Theorem konami_sequence_triggers_once (history : list N) :
  let s := keys history initial in
  (length (konamiCode s) <= 10)%nat /\
  keys konamiSequence s = mkState [] (S (eggs s)) /\
  forall part, (length part < 10)%nat -> part = firstn (length part) konamiSequence ->
               eggs (keys part s) = eggs s.
Proof.
  intros s. pose proof (keys_bounded history) as Hlen. fold s in Hlen.
  destruct s as [code e]. cbn [konamiCode eggs] in *.
  split; [exact Hlen|]. split.
  - rewrite sequence_split, keys_app.
    rewrite keys_partial; [|exact Hlen|].
    + rewrite <- (recent_short code Hlen) at 1. rewrite fold_recent.
      unfold keys. cbn [fold_left]. rewrite keydown_arrays. cbn [konamiCode eggs].
      rewrite pushed_recent by apply recent_length.
      rewrite recent_recent, <- app_assoc, <- sequence_split, recent_sequence.
      destruct (decide _) as [_|Hne]; [reflexivity | congruence].
    + apply (sequence_part 9). lia.
  - intros part Hp Hpart. rewrite keys_partial; [reflexivity | exact Hlen |].
    rewrite Hpart. apply sequence_part. exact Hp.
Qed.

End KonamiFacts.

(** ** What else happens on the page while a notification is shown *)

Section StackFacts.
Import Page Stack.

(** A step that leaves notification [n] and the timers about it alone. *)
Lemma on_course_frame t0 n s s' added :
  notifications s' !! n = notifications s !! n ->
  Timers.pending (timers s') = Timers.pending (timers s) ++ added ->
  Timers.now (timers s') = Timers.now (timers s) ->
  Forall (fun tm => target (Timers.callback tm) <> Some n) added ->
  well_formed s' ->
  on_course t0 n s -> on_course t0 n s'.
Proof.
  intros Hn Hp Hnow Hadd Hwf' (Hwf & Hgo & Hfade & Hkeep & Hshow).
  rewrite List.Forall_forall in Hadd.
  assert (Hold : forall u, In u (Timers.pending (timers s')) ->
                           In u (Timers.pending (timers s)) \/
                           (In u added /\ target (Timers.callback u) <> Some n)).
  { intros u Hu. rewrite Hp in Hu. apply in_app_or in Hu as [Hu|Hu]; auto. }
  assert (Hnew : forall u, In u (Timers.pending (timers s)) ->
                           In u (Timers.pending (timers s'))).
  { intros u Hu. rewrite Hp. apply in_or_app. auto. }
  split; [exact Hwf'|]. split; [|split; [|split]].
  - destruct Hgo as (x & Hx & Hcase). exists x. rewrite Hn. split; [exact Hx|].
    destruct Hcase as [Hd | [(tm & Hin & H1) | (tm & Hin & H1)]]; [auto | |].
    + right; left. exists tm. auto.
    + right; right. exists tm. auto.
  - destruct Hfade as (x & Hx & Hcase). exists x. rewrite Hn. split; [exact Hx|].
    destruct Hcase as [(Ho & Ht & Hno) | (tm & Hin & Hcb & Hd & Hbefore)].
    + left. split; [exact Ho|]. split; [exact Ht|].
      intros u Hu Hc. destruct (Hold u Hu) as [Hu' | [_ Ht']].
      * exact (Hno u Hu' Hc).
      * apply Ht'. rewrite Hc. reflexivity.
    + right. exists tm. split; [auto|]. split; [exact Hcb|]. split; [exact Hd|].
      intros u Hu Hc. destruct (Hold u Hu) as [Hu' | [_ Ht']].
      * exact (Hbefore u Hu' Hc).
      * exfalso. apply Ht'. rewrite Hc. reflexivity.
  - rewrite Hnow. intros Hlt. destruct (Hkeep Hlt) as [(x & Hx & Hatt) Hpend].
    split; [exists x; rewrite Hn; auto|].
    intros u Hu. destruct (Hold u Hu) as [Hu' | [_ Ht']]; [exact (Hpend u Hu')|].
    split; intros Hc; exfalso; apply Ht'; rewrite Hc; reflexivity.
  - rewrite Hnow. intros Hlt. destruct (Hshow Hlt) as (x & Hx & Hdis & Hcase).
    exists x. rewrite Hn. split; [exact Hx|]. split.
    + intros u Hu Hc. destruct (Hold u Hu) as [Hu' | [_ Ht']]; [exact (Hdis u Hu' Hc)|].
      exfalso. apply Ht'. rewrite Hc. reflexivity.
    + destruct Hcase as [Hv | (tm & Hin & H1)]; [auto|]. right. exists tm. auto.
Qed.

Lemma on_course_exists t0 n s : on_course t0 n s -> (n < length (notifications s))%nat.
Proof.
  intros (_ & (x & Hx & _) & _). eapply lookup_lt_Some. exact Hx.
Qed.

Lemma on_course_show t0 n s message type :
  on_course t0 n s -> on_course t0 n (showNotification message type s).
Proof.
  intros Hc. pose proof (on_course_exists _ _ _ Hc) as Hlt.
  pose proof Hc as (Hwf & _).
  destruct (shown_invariants message type s Hwf) as (Hwf' & _).
  destruct (showNotification_effect message type s)
    as (el & a & b & Hn & _ & _ & _ & _ & _ & Hp & Ha & _ & _ & Hb & _ & _ & Hnow & _).
  apply (on_course_frame t0 n s (showNotification message type s) [a; b]);
    [| exact Hp | exact Hnow | | exact Hwf' | exact Hc].
  - rewrite Hn. apply lookup_app_l. exact Hlt.
  - repeat constructor; [rewrite Ha | rewrite Hb]; cbn; intros [= H]; lia.
Qed.

Lemma click_well_formed m s :
  well_formed s -> (m < length (notifications s))%nat -> well_formed (click m s).
Proof.
  intros Hwf Hm. unfold click, dismiss, well_formed in *. cbn.
  rewrite length_alter. apply Forall_app. split; [exact Hwf|].
  repeat constructor; cbn; [lia|]. intros k [= <-]. exact Hm.
Qed.

Lemma on_course_click t0 n m s :
  m <> n -> on_course t0 n s ->
  on_course t0 n (if (m <? length (notifications s))%nat then click m s else s).
Proof.
  intros Hmn Hc. destruct (Nat.ltb_spec m (length (notifications s))) as [Hm|_];
    [|exact Hc].
  pose proof Hc as (Hwf & _).
  apply (on_course_frame t0 n s (click m s)
           [Timers.mkTimer (Timers.next_handle (timers s))
                           (Timers.now (timers s) + 300) None (Remove m)]);
    [| | | |apply click_well_formed; auto|exact Hc].
  - unfold click, dismiss. cbn. apply list_lookup_alter_ne. exact Hmn.
  - unfold click, dismiss. cbn. reflexivity.
  - reflexivity.
  - repeat constructor. cbn. congruence.
Qed.

Lemma on_course_same t0 n s s' :
  notifications s' = notifications s -> timers s' = timers s ->
  on_course t0 n s -> on_course t0 n s'.
Proof.
  intros Hn Ht Hc. pose proof Hc as (Hwf & _).
  apply (on_course_frame t0 n s s' []); [| | | | |exact Hc].
  - rewrite Hn. reflexivity.
  - rewrite Ht, app_nil_r. reflexivity.
  - rewrite Ht. reflexivity.
  - constructor.
  - unfold well_formed in *. rewrite Ht, Hn. exact Hwf.
Qed.

Lemma on_course_submit t0 n s :
  on_course t0 n s -> on_course t0 n (handleFormSubmit s).
Proof.
  intros Hc. unfold handleFormSubmit.
  destruct (validate_all (fields s)) as [ok fs].
  set (s0 := mkState fs (submitBtn s) (form_animation s) (location s)
                     (notifications s) (timers s)).
  assert (Hc0 : on_course t0 n s0) by (apply (on_course_same t0 n s); auto).
  destruct ok; cbn [negb].
  - pose proof Hc0 as (Hwf0 & _).
    eapply (on_course_frame t0 n s0); [| | | | |exact Hc0].
    + reflexivity.
    + cbn [timers Timers.pending Timers.setTimeout]. reflexivity.
    + reflexivity.
    + repeat constructor. cbn. discriminate.
    + unfold well_formed in *. cbn. apply Forall_app. split; [exact Hwf0|].
      repeat constructor; cbn; [lia | discriminate].
  - apply on_course_show. exact Hc0.
Qed.

Lemma on_course_act t0 n a s :
  a <> ClickOn n -> on_course t0 n s -> on_course t0 n (act a s).
Proof.
  intros Ha Hc. destruct a as [message type | m |]; cbn [act].
  - apply on_course_show. exact Hc.
  - apply on_course_click; [congruence | exact Hc].
  - apply on_course_submit. exact Hc.
Qed.

Lemma on_course_run t0 n T s :
  Timers.now (timers s) <= T -> on_course t0 n s ->
  on_course t0 n (run_until T s) /\ Timers.now (timers (run_until T s)) = T.
Proof.
  intros HT (Hwf & Hgo & Hfade & Hkeep & Hshow).
  destruct (run_until_invariant (goes (t0 + 5300) n) T s) as (Hg & Hwf' & _ & Hnow); auto.
  { intros s0 s' Hwf0 Hg0 Hturn. eapply goes_turn; eauto. }
  { intros s0 q Hq Hg0. apply goes_clock; assumption. }
  destruct (run_until_invariant (fades (t0 + 5000) n) T s) as (Hf & _); auto.
  { intros s0 s' Hwf0 Hf0 Hturn. eapply fades_turn; eauto. }
  { intros s0 q Hq Hf0. apply fades_clock; assumption. }
  specialize (Hnow HT). split; [|exact Hnow].
  split; [exact Hwf'|]. split; [exact Hg|]. split; [exact Hf|].
  rewrite Hnow. split; intros Hlt.
  - apply (stays_until (t0 + 5300) n T s); [exact Hlt | exact Hwf|].
    apply Hkeep. lia.
  - destruct (run_until_invariant (shows (t0 + 100) (t0 + 5000) n) T s) as (Hs & _); auto.
    + intros s0 s' Hwf0 Hs0 Hturn. eapply shows_turn; eauto.
    + intros s0 q Hq Hs0. apply shows_clock; assumption.
    + apply Hshow. lia.
Qed.

Lemma act_clock a s : Timers.now (timers (act a s)) = Timers.now (timers s).
Proof.
  destruct a as [message type | m |]; cbn [act].
  - destruct (showNotification_effect message type s)
      as (el & x & y & _ & _ & _ & _ & _ & _ & _ & _ & _ & _ & _ & _ & _ & Hnow & _).
    exact Hnow.
  - destruct (_ <? _)%nat; reflexivity.
  - unfold handleFormSubmit. destruct (validate_all _) as [ok fs].
    destruct ok; cbn [negb]; [reflexivity|].
    match goal with |- context [showNotification ?msg ?ty ?s0] =>
      destruct (showNotification_effect msg ty s0)
        as (el & x & y & _ & _ & _ & _ & _ & _ & _ & _ & _ & _ & _ & _ & _ & Hnow & _)
    end. exact Hnow.
Qed.

Lemma on_course_play t0 n events : forall s,
  in_order (Timers.now (timers s)) events ->
  Forall (fun e => snd e <> ClickOn n) events ->
  on_course t0 n s ->
  on_course t0 n (play events s) /\
  Timers.now (timers (play events s)) = end_time (Timers.now (timers s)) events.
Proof.
  induction events as [|[t a] r IH]; intros s Hord Hsp Hc; [split; [exact Hc | reflexivity]|].
  destruct Hord as [Ht Hord]. cbn [fst snd] in *.
  pose proof (List.Forall_inv Hsp) as Ha. pose proof (List.Forall_inv_tail Hsp) as Hr.
  cbn [snd] in Ha.
  destruct (on_course_run t0 n t s Ht Hc) as [Hc1 Hnow1].
  pose proof (on_course_act t0 n a _ Ha Hc1) as Hc2.
  assert (Hnow2 : Timers.now (timers (act a (run_until t s))) = t)
    by (rewrite act_clock; exact Hnow1).
  cbn [play fst snd]. destruct (IH (act a (run_until t s))) as [Hc3 Hnow3]; auto.
  { rewrite Hnow2. exact Hord. }
  split; [exact Hc3|]. rewrite Hnow3, Hnow2. unfold end_time. cbn [List.map fst].
  symmetry. apply last_cons_default.
Qed.

(** Nothing else on the page disturbs a notification.  After
    [showNotification] at time [t0], let other notifications be shown,
    others be clicked and the form be submitted, in any number and at any
    times: as long as the notification itself is not clicked, it is
    visible from 100 ms to 5000 ms, hidden from 5000 ms on, attached
    until 5300 ms and detached from then on, as if alone. *)
Theorem notification_timeline_undisturbed
  (s : state) (message type : jsstring) (events : list (Z * action)) (T : Z) :
  well_formed s ->
  let n := length (notifications s) in
  let t0 := Timers.now (timers s) in
  in_order t0 events ->
  Forall (fun e => snd e <> ClickOn n) events ->
  end_time t0 events <= T ->
  let s' := run_until T (play events (showNotification message type s)) in
  (t0 + 100 <= T < t0 + 5000 -> visible_at n s') /\
  (t0 + 5000 <= T -> hidden_at n s') /\
  (T < t0 + 5300 -> attached_at n s') /\
  (t0 + 5300 <= T -> detached_at n s').
Proof.
  intros Hwf n t0 Hord Hsp HT s'. subst s'.
  destruct (shown_invariants message type s Hwf)
    as (Hwf1 & Hnow1 & Hkeep & Hgo & Hfade & Hshow).
  fold n t0 in Hnow1, Hkeep, Hgo, Hfade, Hshow.
  set (first := showNotification message type s) in *.
  assert (Hc : on_course t0 n first).
  { split; [exact Hwf1|]. split; [exact Hgo|]. split; [exact Hfade|].
    split; intros _; assumption. }
  destruct (on_course_play t0 n events first) as [(Hwf2 & Hg2 & Hf2 & Hk2 & Hs2) Hnow2];
    [rewrite Hnow1; exact Hord | exact Hsp | exact Hc |].
  rewrite Hnow1 in Hnow2. rewrite Hnow2 in Hk2, Hs2.
  split; [|split; [|split]]; intros HT'.
  - apply (visible_between (t0 + 100) (t0 + 5000)); [exact HT' | exact Hwf2|].
    apply Hs2. lia.
  - apply (hidden_from (t0 + 5000)); assumption.
  - apply (stays_until (t0 + 5300) n T); [exact HT' | exact Hwf2|].
    apply Hk2. lia.
  - apply (gone_from (t0 + 5300)); assumption.
Qed.

End StackFacts.

(** An error at time 0; a second notification at 1000 ms, clicked at
    2000 ms; an invalid submit at 3000 ms.  The first is visible at
    4000 ms and detached at 5300 ms. *)
Lemma notification_timeline_undisturbed_witness :
  let s := Page.fresh 0 [Page.mkField (js "name") (js "text") true [] [] false None]
                      (Page.mkButton false (js "Send") false) in
  let events := [(1000, Stack.Show (js "y") (js "info")); (2000, Stack.ClickOn 1);
                 (3000, Stack.Submit)] in
  Page.well_formed s /\ Stack.in_order 0 events /\
  Forall (fun e => snd e <> Stack.ClickOn 0) events /\
  Page.visible_at 0
    (Page.run_until 4000 (Stack.play events (Page.showNotification (js "x") (js "error") s))) /\
  Page.detached_at 0
    (Page.run_until 5300 (Stack.play events (Page.showNotification (js "x") (js "error") s))).
Proof.
  intros s events.
  assert (Hwf : Page.well_formed s) by apply fresh_well_formed.
  assert (Hord : Stack.in_order 0 events) by (cbn; lia).
  assert (Hsp : Forall (fun e => snd e <> Stack.ClickOn 0) events)
    by (repeat constructor; discriminate).
  split; [exact Hwf|]. split; [exact Hord|]. split; [exact Hsp|].
  split.
  - assert (HT : Stack.end_time 0 events <= 4000) by (cbn; lia).
    destruct (notification_timeline_undisturbed s (js "x") (js "error") events 4000
                Hwf Hord Hsp HT) as (Hv & _).
    apply Hv. cbn. lia.
  - assert (HT : Stack.end_time 0 events <= 5300) by (cbn; lia).
    destruct (notification_timeline_undisturbed s (js "x") (js "error") events 5300
                Hwf Hord Hsp HT) as (_ & _ & _ & Hd).
    apply Hd. cbn. lia.
Defined.

(** ** The shape of an accepted email address *)

Section EmailFacts.
Import Regex Page Email.

Lemma Matches_Seq a b s :
  Matches (Seq a b) s <-> exists s1 s2, s = s1 ++ s2 /\ Matches a s1 /\ Matches b s2.
Proof.
  split.
  - intros H. inversion H as [| |? ? s1 s2 H1 H2| | | |]; subst. eauto.
  - intros (s1 & s2 & -> & H1 & H2). constructor; assumption.
Qed.

Lemma Matches_Class p s :
  Matches (Class p) s <-> exists c, s = [c] /\ p c = true.
Proof.
  split.
  - intros H. inversion H; subst. eauto.
  - intros (c & -> & Hc). constructor. exact Hc.
Qed.

Lemma Matches_Star_Class p s :
  Matches (Star (Class p)) s <-> Forall (fun c => p c = true) s.
Proof.
  split.
  - intros H. remember (Star (Class p)) as r eqn:Hr.
    induction H as [|q c Hq|a b s1 s2 H1 IH1 H2 IH2|a b s H IH|a b s H IH|a
                    |a s1 s2 H1 IH1 H2 IH2]; try discriminate.
    + constructor.
    + injection Hr as ->. apply Forall_app. split; [|apply IH2; reflexivity].
      inversion H1; subst. repeat constructor. assumption.
  - induction s as [|c s IH]; intros Hall; [constructor|].
    change (c :: s) with ([c] ++ s). constructor.
    + constructor. exact (List.Forall_inv Hall).
    + apply IH. exact (List.Forall_inv_tail Hall).
Qed.

Lemma Matches_Plus_Class p s :
  Matches (Plus (Class p)) s <-> s <> [] /\ Forall (fun c => p c = true) s.
Proof.
  unfold Plus. rewrite Matches_Seq. split.
  - intros (s1 & s2 & -> & H1 & H2). apply Matches_Class in H1 as (c & -> & Hc).
    apply Matches_Star_Class in H2. split; [discriminate|]. constructor; assumption.
  - intros [Hne Hall]. destruct s as [|c s]; [contradiction|].
    exists [c], s. split; [reflexivity|]. split.
    + constructor. exact (List.Forall_inv Hall).
    + apply Matches_Star_Class. exact (List.Forall_inv_tail Hall).
Qed.

Lemma word_no_at s : word s -> ats s = 0%nat.
Proof.
  intros [_ Hall]. unfold ats. induction Hall as [|c s Hc _ IH]; [reflexivity|].
  cbn [List.filter]. unfold not_space_at in Hc.
  apply negb_true_iff, orb_false_iff in Hc as [_ Hc]. apply Z.eqb_neq in Hc.
  destruct (Z.eqb_spec 64 c) as [He|_]; [congruence | exact IH].
Qed.

Lemma ats_app a b : ats (a ++ b) = (ats a + ats b)%nat.
Proof. unfold ats. rewrite List.filter_app, length_app. reflexivity. Qed.

Lemma accepted_shape (v : jsstring) :
  Regex.test emailPattern v = true <->
  exists a b c, v = a ++ [64] ++ b ++ [46] ++ c /\ word a /\ word b /\ word c.
Proof.
  rewrite test_Matches. unfold emailPattern.
  rewrite Matches_Seq. split.
  - intros (a & r1 & -> & Ha & H1).
    apply Matches_Seq in H1 as (x & r2 & -> & Hx & H2).
    apply Matches_Seq in H2 as (b & r3 & -> & Hb & H3).
    apply Matches_Seq in H3 as (y & c & -> & Hy & Hc).
    apply Matches_Class in Hx as (x' & -> & Hx), Hy as (y' & -> & Hy).
    apply Z.eqb_eq in Hx, Hy. subst.
    apply Matches_Plus_Class in Ha, Hb, Hc. exists a, b, c. auto.
  - intros (a & b & c & -> & Ha & Hb & Hc).
    exists a, ([64] ++ b ++ [46] ++ c). split; [reflexivity|].
    split; [apply Matches_Plus_Class; exact Ha|].
    apply Matches_Seq. exists [64], (b ++ [46] ++ c). split; [reflexivity|].
    split; [constructor; reflexivity|].
    apply Matches_Seq. exists b, ([46] ++ c). split; [reflexivity|].
    split; [apply Matches_Plus_Class; exact Hb|].
    apply Matches_Seq. exists [46], c. split; [reflexivity|].
    split; [constructor; reflexivity|]. apply Matches_Plus_Class. exact Hc.
Qed.

(** What the pattern of [validateField] accepts: the strings made of a
    word, an [@], a word, a dot and a word, where a word is a non-empty
    run of characters other than white space and [@].  So an accepted
    address has exactly one [@] and no white space. *)
Theorem email_pattern_language (v : jsstring) :
  (Regex.test emailPattern v = true <->
   exists a b c, v = a ++ [64] ++ b ++ [46] ++ c /\ word a /\ word b /\ word c) /\
  (Regex.test emailPattern v = true ->
   ats v = 1%nat /\ Forall (fun c => JsString.is_whitespace c = false) v).
Proof.
  assert (Hshape : Regex.test emailPattern v = true <->
            exists a b c, v = a ++ [64] ++ b ++ [46] ++ c /\ word a /\ word b /\ word c).
  { rewrite test_Matches. unfold emailPattern.
    rewrite Matches_Seq. split.
    - intros (a & r1 & -> & Ha & H1).
      apply Matches_Seq in H1 as (x & r2 & -> & Hx & H2).
      apply Matches_Seq in H2 as (b & r3 & -> & Hb & H3).
      apply Matches_Seq in H3 as (y & c & -> & Hy & Hc).
      apply Matches_Class in Hx as (x' & -> & Hx), Hy as (y' & -> & Hy).
      apply Z.eqb_eq in Hx, Hy. subst.
      apply Matches_Plus_Class in Ha, Hb, Hc. exists a, b, c. auto.
    - intros (a & b & c & -> & Ha & Hb & Hc).
      exists a, ([64] ++ b ++ [46] ++ c). split; [reflexivity|].
      split; [apply Matches_Plus_Class; exact Ha|].
      apply Matches_Seq. exists [64], (b ++ [46] ++ c). split; [reflexivity|].
      split; [constructor; reflexivity|].
      apply Matches_Seq. exists b, ([46] ++ c). split; [reflexivity|].
      split; [apply Matches_Plus_Class; exact Hb|].
      apply Matches_Seq. exists [46], c. split; [reflexivity|].
      split; [constructor; reflexivity|]. apply Matches_Plus_Class. exact Hc. }
  split; [exact Hshape|].
  intros H. apply Hshape in H as (a & b & c & -> & Ha & Hb & Hc).
  split.
  - rewrite !ats_app, (word_no_at a Ha), (word_no_at b Hb), (word_no_at c Hc).
    reflexivity.
  - assert (Hw : forall s, word s -> Forall (fun c => JsString.is_whitespace c = false) s).
    { intros s [_ Hall]. eapply List.Forall_impl; [|exact Hall].
      intros x Hx. unfold not_space_at in Hx.
      apply negb_true_iff, orb_false_iff in Hx as [Hx _]. exact Hx. }
    repeat (apply Forall_app; split); auto; repeat constructor.
Qed.

(** Validating is idempotent: the result depends on the field's type,
    value and [required] attribute only, and a second call leaves the
    error class and the message as the first did. *)
Theorem validateField_idempotent (f : field) :
  validateField (snd (validateField f)) = validateField f /\
  forall cls msg,
    fst (validateField (mkField (f_name f) (f_type f) (f_required f) (f_value f)
                                (f_default f) cls msg))
    = fst (validateField f).
Proof.
  assert (Hcheck : forall g, f_type g = f_type f -> f_required g = f_required f ->
                             f_value g = f_value f -> check g = check f).
  { intros g Ht Hr Hv. unfold check. rewrite Ht, Hr, Hv. reflexivity. }
  split.
  - unfold validateField at 1 3.
    rewrite (Hcheck (snd (validateField f)));
      unfold validateField; destruct (check f) as [[|] m]; reflexivity.
  - intros cls msg. unfold validateField.
    rewrite (Hcheck (mkField _ _ _ _ _ cls msg)) by reflexivity.
    destruct (check f) as [[|] m]; reflexivity.
Qed.

End EmailFacts.

(** ** Scroll progress and scroll frames *)

Section ScrollFacts.
Import ScrollProgress ScrollFrames.

(** A page exactly as tall as the window has no percentage.  When
    [scrollHeight] equals [innerHeight] the quotient has a zero divisor,
    and the width assigned to the progress bar is the text [NaN%] (at
    scroll position 0) or [Infinity%], never a number followed by [%]. *)
Theorem scroll_progress_without_overflow (scrollY : number) (h : Z) :
  width scrollY h h
  = match scrollY with
    | S754_zero _ | S754_nan => js "NaN%"
    | S754_finite s _ _ | S754_infinity s =>
        if s then js "-Infinity%" else js "Infinity%"
    end.
Proof.
  unfold width, scrollPercent. rewrite Z.sub_diag.
  change (JsNumber.of_Z 0) with (S754_zero false).
  destruct scrollY as [s| s | | s m e]; try destruct s; reflexivity.
Qed.

Lemma handle_coalesced s e : coalesced s -> coalesced (handle s e).
Proof.
  unfold coalesced. intros Hc. destruct e as [y|]; cbn [handle].
  - unfold scroll, on_scroll. cbn. destruct (ticking s); cbn; [exact Hc|].
    rewrite Hc. reflexivity.
  - unfold frame. rewrite Hc. destruct (ticking s); reflexivity.
Qed.

Lemma scrolls_pending ys : forall y s,
  coalesced s ->
  let s' := foldl handle (scroll y s) (List.map Scrolled ys) in
  ticking s' = true /\ requested s' = 1%nat /\ updates s' = updates s /\
  nav s' = Nav.handle (Nav.Scroll (List.last ys y))
             (foldl (fun n y => Nav.handle (Nav.Scroll y) n) (nav s)
                    (removelast (y :: ys))).
Proof.
  induction ys as [|y' ys IH]; intros y s Hc.
  - cbn. unfold scroll, on_scroll, coalesced in *. cbn.
    destruct (ticking s) eqn:Ht; cbn; rewrite ?Hc; auto.
  - cbn [List.map foldl handle].
    assert (Hc1 : coalesced (scroll y s))
      by (apply (handle_coalesced s (Scrolled y)); exact Hc).
    destruct (IH y' (scroll y s) Hc1) as (H1 & H2 & H3 & H4).
    cbv zeta in *. rewrite H1, H2, H3, H4.
    split; [reflexivity|]. split; [reflexivity|]. split.
    + unfold scroll, on_scroll. cbn. destruct (ticking s); reflexivity.
    + rewrite last_cons_default.
      change (removelast (y :: y' :: ys)) with (y :: removelast (y' :: ys)).
      cbn [foldl]. f_equal. f_equal.
      unfold scroll, on_scroll. cbn. destruct (ticking s); reflexivity.
Qed.

(** Scroll events between two animation frames cost one update.
    However many scroll events come before the next frame, one callback
    is requested; the frame calls [updateOnScroll] once, which sees the
    last scroll position, and leaves nothing requested.  At all times at
    most one callback is waiting. *)
Theorem scroll_frames_coalesce
  (n : Nav.state) (y : number) (ys : list number) (events : list event) :
  let s := frame (foldl handle (scroll y (idle n)) (List.map Scrolled ys)) in
  updates s = 1%nat /\ requested s = 0%nat /\ ticking s = false /\
  Nav.scrollY (nav s) = List.last ys y /\
  Nav.scrolled (nav s) = JsNumber.gt (List.last ys y) (JsNumber.of_Z 100) /\
  (requested (foldl handle (idle n) events) <= 1)%nat.
Proof.
  intros s.
  destruct (scrolls_pending ys y (idle n) eq_refl) as (H1 & H2 & H3 & H4).
  cbv zeta in *. subst s. unfold frame. rewrite H2, H1, H3, H4. cbn.
  do 5 (split; [reflexivity|]).
  assert (Hc : coalesced (foldl handle (idle n) events)).
  { assert (H0 : coalesced (idle n)) by reflexivity.
    revert H0. generalize (idle n).
    induction events as [|e l IH]; intros s0 H0; [exact H0|].
    cbn [foldl]. apply IH, handle_coalesced, H0. }
  unfold coalesced in Hc. rewrite Hc.
  destruct (ticking (foldl handle (idle n) events)); auto.
Qed.

End ScrollFacts.

(** ** Floating particles *)

Section ParticleFacts.
Import Particles.

Lemma live_app l1 l2 : live (l1 ++ l2) = (live l1 + live l2)%nat.
Proof. unfold live. rewrite List.map_app, list_sum_app. reflexivity. Qed.

Lemma live_detach l : forall i p,
  l !! i = Some p -> attached p = true ->
  S (live (alter detach i l)) = live l.
Proof.
  induction l as [|a l IH]; intros i p Hi Hp; [discriminate|].
  destruct i as [|i]; cbn in Hi.
  - injection Hi as ->. unfold live. cbn. rewrite Hp. reflexivity.
  - change (alter detach (S i) (a :: l)) with (a :: alter detach i l).
    unfold live in *. cbn [List.map].
    change (list_sum (?x :: ?r)) with (x + list_sum r)%nat.
    specialize (IH i p Hi Hp).
    change (list_sum ((if attached a then 1%nat else 0%nat)
                      :: List.map (fun p0 => if attached p0 then 1%nat else 0%nat)
                           (alter detach i l)))
      with ((if attached a then 1 else 0)
            + list_sum (List.map (fun p0 => if attached p0 then 1%nat else 0%nat)
                                 (alter detach i l)))%nat.
    change (list_sum ((if attached a then 1%nat else 0%nat)
                      :: List.map (fun p0 => if attached p0 then 1%nat else 0%nat) l))
      with ((if attached a then 1 else 0)
            + list_sum (List.map (fun p0 => if attached p0 then 1%nat else 0%nat) l))%nat.
    lia.
Qed.

Lemma createParticle_facts s :
  particles (createParticle s)
  = particles s ++ [mkParticle
      (random_between (random s (drawn s)) (JsNumber.of_Z 2) (JsNumber.of_Z 6))
      (random_between (random s (drawn s + 1)%nat) (JsNumber.of_Z 0)
                      (JsNumber.of_Z (innerWidth s)))
      (random_between (random s (drawn s + 2)%nat) (JsNumber.of_Z 0)
                      (JsNumber.of_Z (innerHeight s)))
      (random_between (random s (drawn s + 3)%nat) (JsNumber.of_Z 10)
                      (JsNumber.of_Z 30))
      (random_between (random s (drawn s + 4)%nat) (JsNumber.nearest false 1 10)
                      (JsNumber.nearest false 1 2)) true] /\
  (exists tm, Timers.pending (timers (createParticle s))
              = Timers.pending (timers s) ++ [tm] /\
              Timers.callback tm = Expire (length (particles s)) /\
              Timers.every tm = None) /\
  styles (createParticle s) = (if (styles s =? 0)%nat then 1%nat else styles s) /\
  drawn (createParticle s) = (drawn s + 5)%nat /\
  random (createParticle s) = random s /\
  innerWidth (createParticle s) = innerWidth s /\
  innerHeight (createParticle s) = innerHeight s.
Proof.
  unfold createParticle. cbn. split; [reflexivity|].
  split; [eexists; split; [reflexivity|]; split; reflexivity|]. auto.
Qed.

Lemma createParticle_floating k s :
  floating k s -> floating (S k) (createParticle s).
Proof.
  intros (Hl & Hn & Hev & Hw).
  destruct (createParticle_facts s) as (Hp & (tm & Ht & Hcb & Hevt) & _).
  unfold floating. rewrite Hp, Ht, live_app, length_app, Hl, Hn.
  split; [cbn; lia|]. split; [cbn; lia|]. split.
  - apply Forall_app. split; [exact Hev|]. repeat constructor. exact Hevt.
  - intros i. rewrite List.map_app, list_sum_app, Hw.
    assert (Hone : list_sum (List.map (waiting i) [tm])
                   = if (length (particles s) =? i)%nat then 1%nat else 0%nat).
    { cbn. unfold waiting. rewrite Hcb. destruct (_ =? _)%nat; reflexivity. }
    rewrite Hone. clear Hone.
    destruct (Nat.eqb_spec (length (particles s)) i) as [Heq|Hne].
    + subst i. rewrite lookup_ge_None_2 by lia.
      rewrite list_lookup_middle by reflexivity. reflexivity.
    + destruct (Nat.lt_ge_cases i (length (particles s))) as [Hlt|Hge].
      * rewrite lookup_app_l by exact Hlt.
        destruct (particles s !! i) as [p|]; [destruct (attached p)|]; reflexivity.
      * rewrite (lookup_ge_None_2 (particles s)) by lia.
        rewrite lookup_ge_None_2 by (rewrite length_app; cbn; lia). reflexivity.
Qed.

Lemma take_floating k s tm q :
  floating k s -> Timers.take (timers s) = Some (tm, q) ->
  floating k (fire (Timers.callback tm) (with_timers q s)) /\
  length (particles (fire (Timers.callback tm) (with_timers q s)))
  = S (length (particles s)) /\
  drawn (fire (Timers.callback tm) (with_timers q s)) = (drawn s + 5)%nat /\
  styles (fire (Timers.callback tm) (with_timers q s))
  = (if (styles s =? 0)%nat then 1%nat else styles s).
Proof.
  intros (Hl & Hn & Hev & Hw) Htake. unfold Timers.take in Htake.
  destruct (Timers.extract (Timers.pending (timers s))) as [[u rest]|] eqn:He;
    [|discriminate].
  destruct (extract_spec _ _ _ He) as (Hin & _ & Hsum).
  rewrite List.Forall_forall in Hev.
  rewrite (Hev u) in Htake by (apply Hin; left; reflexivity).
  injection Htake as <- <-.
  destruct (Timers.callback u) as [i] eqn:Hcb. cbn [fire].
  assert (Hwi : waiting i u = 1%nat)
    by (unfold waiting; rewrite Hcb, Nat.eqb_refl; reflexivity).
  pose proof (Hw i) as Hi. rewrite (Hsum (waiting i)), Hwi in Hi.
  unfold expire. cbn [particles with_timers].
  destruct (particles s !! i) as [p|] eqn:Hp; [|discriminate].
  destruct (attached p) eqn:Hatt; [|discriminate].
  set (s1 := mkState _ _ _ _ _ _ _).
  assert (H1 : floating (k - 1) s1).
  { unfold floating. subst s1. cbn -[live list_sum waiting].
    pose proof (live_detach _ _ _ Hp Hatt) as Hld.
    split; [lia|]. split.
    - assert (Hones : forall (X : Type) (l : list X),
                 list_sum (List.map (fun _ => 1%nat) l) = length l).
      { intros X l. induction l as [|a l IH]; [reflexivity|].
        cbn [List.map length]. change (list_sum (1%nat :: ?r)) with (1 + list_sum r)%nat.
        rewrite IH. reflexivity. }
      pose proof (Hsum (fun _ => 1%nat)) as Hlen'.
      rewrite !Hones in Hlen'. lia.
    - split.
      + apply List.Forall_forall. intros x Hx. apply Hev, Hin. right. exact Hx.
      + intros j. pose proof (Hw j) as Hj. rewrite (Hsum (waiting j)) in Hj.
        destruct (decide (j = i)) as [->|Hne].
        * rewrite list_lookup_alter_eq, Hp. cbn. lia.
        * rewrite list_lookup_alter_ne by congruence.
          assert (Hz : waiting j u = 0%nat).
          { unfold waiting. rewrite Hcb.
            destruct (Nat.eqb_spec i j); [congruence | reflexivity]. }
          rewrite Hz in Hj. exact Hj. }
  assert (Hk : (1 <= k)%nat).
  { rewrite <- Hl. pose proof (live_detach _ _ _ Hp Hatt). lia. }
  pose proof (createParticle_floating _ _ H1) as H2.
  replace (S (k - 1)) with k in H2 by lia.
  destruct (createParticle_facts s1) as (Hps & _ & Hst & Hdr & _).
  split; [exact H2|]. rewrite Hps, Hst, Hdr, length_app. subst s1. cbn.
  rewrite length_alter. split; [lia|]. auto.
Qed.

Lemma created_floating t w h rnd k :
  let s := Nat.iter k createParticle (mkState w h [] 0 rnd 0 (Timers.empty t)) in
  floating k s /\ length (particles s) = k /\ drawn s = (5 * k)%nat /\
  styles s = (if (k =? 0)%nat then 0%nat else 1%nat).
Proof.
  induction k as [|k IH]; cbn zeta.
  - cbn. split; [|auto]. split; [reflexivity|]. split; [reflexivity|].
    split; [constructor|]. intros i. reflexivity.
  - cbn [Nat.iter nat_rect]. cbv zeta in IH.
    change (nat_rect _ ?x ?f k) with (Nat.iter k createParticle x) in *.
    destruct IH as (Hf & Hlen & Hdr & Hst).
    set (s0 := Nat.iter k createParticle _) in *.
    destruct (createParticle_facts s0) as (Hps & _ & Hst' & Hdr' & _).
    split; [apply createParticle_floating; exact Hf|].
    rewrite Hps, Hst', Hdr', length_app, Hlen, Hdr, Hst. cbn [length].
    split; [lia|]. split; [lia|]. destruct k; reflexivity.
Qed.

Lemma run_floating n : forall k s,
  floating k s -> (1 <= k)%nat -> styles s = 1%nat ->
  floating k (run n s) /\
  length (particles (run n s)) = (length (particles s) + n)%nat /\
  drawn (run n s) = (drawn s + 5 * n)%nat /\
  styles (run n s) = 1%nat.
Proof.
  induction n as [|n IH]; intros k s Hf Hk Hst.
  - cbn [run]. rewrite !Nat.add_0_r. auto.
  - cbn [run]. destruct (Timers.take (timers s)) as [[tm q]|] eqn:Htake.
    + destruct (take_floating k s tm q Hf Htake) as (Hf' & Hlen' & Hdr' & Hst').
      rewrite Hst in Hst'. cbn in Hst'.
      destruct (IH k _ Hf' Hk Hst') as (H1 & H2 & H3 & H4).
      split; [exact H1|]. rewrite H2, H3, Hlen', Hdr'. split; [lia|]. split; [lia|].
      exact H4.
    + exfalso. destruct Hf as (_ & Hn & _). unfold Timers.take in Htake.
      destruct (Timers.extract (Timers.pending (timers s))) as [[u rest]|] eqn:He;
        [discriminate|].
      apply extract_None in He. rewrite He in Hn. cbn in Hn. lia.
Qed.

(** Fifty particles, always.  After [createFloatingParticles], however
    many timers have run: fifty particles are in the container, each
    with its one pending timer; every timer that ran removed one
    particle and made one; the keyframes were added once; and five
    random numbers were taken for each particle made. *)
Theorem particles_stay_fifty (t w h : Z) (rnd : nat -> number) (n : nat) :
  let s := run n (createFloatingParticles t w h rnd) in
  live (particles s) = 50%nat /\
  length (Timers.pending (timers s)) = 50%nat /\
  (forall i p, particles s !! i = Some p -> attached p = true ->
     list_sum (List.map (waiting i) (Timers.pending (timers s))) = 1%nat) /\
  length (particles s) = (50 + n)%nat /\
  styles s = 1%nat /\
  drawn s = (5 * (50 + n))%nat.
Proof.
  intros s. subst s. unfold createFloatingParticles.
  destruct (created_floating t w h rnd 50) as (Hf & Hlen & Hdr & Hst).
  cbv zeta in *. change (if (50 =? 0)%nat then 0%nat else 1%nat) with 1%nat in Hst.
  destruct (run_floating n 50 _ Hf ltac:(lia) Hst) as ((Hl & Hn & _ & Hw) & H2 & H3 & H4).
  split; [exact Hl|]. split; [exact Hn|]. split.
  - intros i p Hp Hatt. rewrite Hw, Hp, Hatt. reflexivity.
  - rewrite H2, H3, Hlen, Hdr. split; [reflexivity|]. split; [exact H4 | lia].
Qed.

End ParticleFacts.

(** ** Project cards: the technology tags on hover *)

Section HoverFacts.
Import Hover.

Lemma extract_filter {A} (f : Timers.timer A -> bool) (l : list (Timers.timer A)) :
  forall t r, Timers.extract l = Some (t, r) ->
  f t = false -> List.filter f r = List.filter f l.
Proof.
  induction l as [|a l IH]; intros t r He Hf; [discriminate|].
  cbn [Timers.extract] in He.
  destruct (Timers.extract l) as [[u r']|] eqn:Hl.
  - destruct (Timers.due u <? Timers.due a); injection He as <- <-.
    + cbn [List.filter]. rewrite (IH u r' eq_refl Hf). reflexivity.
    + cbn [List.filter]. rewrite Hf. reflexivity.
  - injection He as <- <-. cbn [List.filter]. rewrite Hf. reflexivity.
Qed.

Lemma extract_existsb {A} (f : Timers.timer A -> bool) (l : list (Timers.timer A)) :
  forall t r, Timers.extract l = Some (t, r) ->
  existsb f l = f t || existsb f r.
Proof.
  induction l as [|a l IH]; intros t r He; [discriminate|].
  cbn [Timers.extract] in He.
  destruct (Timers.extract l) as [[u r']|] eqn:Hl.
  - destruct (Timers.due u <? Timers.due a); injection He as <- <-; cbn [existsb].
    + rewrite (IH u r' eq_refl). destruct (f a), (f u); reflexivity.
    + reflexivity.
  - injection He as <- <-. reflexivity.
Qed.

Lemma extract_length {A} (l : list (Timers.timer A)) :
  forall t r, Timers.extract l = Some (t, r) -> length l = S (length r).
Proof.
  induction l as [|a l IH]; intros t r He; [discriminate|].
  cbn [Timers.extract] in He.
  destruct (Timers.extract l) as [[u r']|] eqn:Hl.
  - destruct (Timers.due u <? Timers.due a); injection He as <- <-; cbn [length].
    + rewrite (IH u r' eq_refl). reflexivity.
    + reflexivity.
  - injection He as <- <-. reflexivity.
Qed.

Lemma turns_outcome T fuel : forall s,
  Forall (fun tm => Timers.every tm = None) (Timers.pending (timers s)) ->
  (length (Timers.pending (timers s)) <= fuel)%nat ->
  let s' := turns fuel T s in
  Timers.pending (timers s')
  = List.filter (fun tm => T <? Timers.due tm) (Timers.pending (timers s)) /\
  (forall k, tags (element s') !! k
             = outcome T k (Timers.pending (timers s)) (tags (element s))) /\
  card_transform (element s') = card_transform (element s) /\
  overlay (element s') = overlay (element s) /\
  Timers.next_handle (timers s') = Timers.next_handle (timers s) /\
  (Timers.now (timers s) <= T -> Timers.now (timers s') <= T).
Proof.
  induction fuel as [|fuel IH]; intros s Hev Hlen; cbn zeta.
  - destruct (Timers.pending (timers s)) eqn:Hp; [|cbn in Hlen; lia].
    cbn [turns]. rewrite Hp. split; [reflexivity|]. split; [|auto].
    intros k. unfold outcome. cbn. destruct (tags (element s) !! k); reflexivity.
  - cbn [turns]. unfold turn, Timers.take.
    destruct (Timers.extract (Timers.pending (timers s))) as [[u rest]|] eqn:He.
    + destruct (extract_spec _ _ _ He) as (Hin & Hle & _).
      rewrite List.Forall_forall in Hev.
      rewrite (Hev u) by (apply Hin; left; reflexivity).
      destruct (Z.leb_spec (Timers.due u) T) as [Hdue|Hdue].
      * destruct (Timers.callback u) as [j] eqn:Hcb. cbn [fire element timers].
        match goal with |- context [turns fuel T ?s1] => set (s1' := s1) end.
        destruct (IH s1') as (H1 & H2 & H3 & H4 & H5 & H6).
        { subst s1'. cbn. apply List.Forall_forall. intros x Hx.
          apply Hev, Hin. right. exact Hx. }
        { subst s1'. cbn. pose proof (extract_length _ _ _ He). lia. }
        subst s1'. cbn in H1, H2, H3, H4, H5, H6.
        split; [|split; [|split; [exact H3|split; [exact H4|split; [exact H5|]]]]].
        -- rewrite H1. apply extract_filter with (t := u); [exact He|].
           apply Z.ltb_ge. exact Hdue.
        -- intros k. rewrite H2. unfold outcome, due_by.
           rewrite (extract_existsb _ _ _ _ He). rewrite Hcb.
           destruct (Nat.eqb_spec j k) as [->|Hne].
           ++ rewrite list_lookup_alter_eq.
              destruct (Z.leb_spec (Timers.due u) T); [|lia]. cbn [andb orb].
              destruct (tags (element s) !! k); cbn; [|reflexivity].
              destruct (existsb _ rest); reflexivity.
           ++ rewrite list_lookup_alter_ne by exact Hne. reflexivity.
        -- intros Hnow. apply H6. lia.
      * split; [|split; [|auto]].
        -- symmetry. apply List.forallb_filter_id. apply forallb_forall.
           intros x Hx. apply Z.ltb_lt.
           apply Hin in Hx as [->|Hx]; [exact Hdue|].
           rewrite List.Forall_forall in Hle. specialize (Hle x Hx). lia.
        -- intros k. unfold outcome, due_by.
           assert (Hno : existsb (fun tm => match Timers.callback tm with
                                           | Raise j => (j =? k)%nat && (Timers.due tm <=? T)
                                           end) (Timers.pending (timers s)) = false).
           { apply not_true_iff_false. intros Hex.
             apply existsb_exists in Hex as (x & Hx & Hc).
             destruct (Timers.callback x). apply andb_prop in Hc as [_ Hc].
             apply Z.leb_le in Hc.
             apply Hin in Hx as [->|Hx]; [lia|].
             rewrite List.Forall_forall in Hle. specialize (Hle x Hx). lia. }
           rewrite Hno. destruct (tags (element s) !! k); reflexivity.
    + apply extract_None in He. rewrite He. split; [reflexivity|]. split; [|auto].
      intros k. unfold outcome. cbn. destruct (tags (element s) !! k); reflexivity.
Qed.

Lemma run_until_outcome T s :
  Forall (fun tm => Timers.every tm = None) (Timers.pending (timers s)) ->
  Timers.now (timers s) <= T ->
  let s' := run_until T s in
  Timers.pending (timers s')
  = List.filter (fun tm => T <? Timers.due tm) (Timers.pending (timers s)) /\
  (forall k, tags (element s') !! k
             = outcome T k (Timers.pending (timers s)) (tags (element s))) /\
  card_transform (element s') = card_transform (element s) /\
  overlay (element s') = overlay (element s) /\
  Timers.next_handle (timers s') = Timers.next_handle (timers s) /\
  Timers.now (timers s') = T.
Proof.
  intros Hev Hnow. cbn zeta. unfold run_until.
  destruct (turns_outcome T _ s Hev (Nat.le_refl _)) as (H1 & H2 & H3 & H4 & H5 & H6).
  cbv zeta in *. cbn. specialize (H6 Hnow).
  split; [exact H1|]. split; [exact H2|]. split; [exact H3|]. split; [exact H4|].
  split; [exact H5 | lia].
Qed.

Lemma schedule_spec n : forall q : Timers.queue callback,
  let q' := fold_left
              (fun q tagIndex =>
                 snd (Timers.setTimeout (Raise tagIndex) (Z.of_nat tagIndex * 50) q))
              (seq 0 n) q in
  Timers.pending q'
  = Timers.pending q
    ++ List.map (fun k => Timers.mkTimer (Timers.next_handle q + k)
                            (Timers.now q + Z.of_nat k * 50) None (Raise k))
                (seq 0 n) /\
  Timers.now q' = Timers.now q /\
  Timers.next_handle q' = (Timers.next_handle q + n)%nat.
Proof.
  induction n as [|n IH]; intros q; cbn zeta.
  - cbn. rewrite app_nil_r. split; [reflexivity|]. split; [reflexivity | lia].
  - rewrite seq_S, fold_left_app, List.map_app.
    destruct (IH q) as (Hp & Hnow & Hnh). cbv zeta in Hp, Hnow, Hnh.
    set (q1 := fold_left _ (seq 0 n) q) in *.
    cbn [fold_left List.map Nat.add].
    unfold Timers.setTimeout. cbn [snd Timers.pending Timers.now Timers.next_handle].
    rewrite Z.max_r by lia.
    rewrite Hp, Hnow, Hnh, <- app_assoc.
    split; [|split; [reflexivity | lia]].
    reflexivity.
Qed.

Lemma mouseenter_timers s :
  Timers.pending (timers (mouseenter s))
  = Timers.pending (timers s)
    ++ List.map (fun k => Timers.mkTimer (Timers.next_handle (timers s) + k)
                            (Timers.now (timers s) + Z.of_nat k * 50) None (Raise k))
                (seq 0 (length (tags (element s)))) /\
  Timers.now (timers (mouseenter s)) = Timers.now (timers s).
Proof.
  unfold mouseenter. cbn [timers].
  destruct (schedule_spec (length (tags (element s))) (timers s)) as (Hp & Hnow & _).
  auto.
Qed.

Lemma due_by_scheduled T t1 t0 h k n :
  due_by T k (List.filter (fun tm => t1 <? Timers.due tm)
                (List.map (fun j => Timers.mkTimer (h + j) (t0 + Z.of_nat j * 50) None
                                                   (Raise j)) (seq 0 n)))
  = (k <? n)%nat && (t1 <? t0 + Z.of_nat k * 50) && (t0 + Z.of_nat k * 50 <=? T).
Proof.
  unfold due_by.
  match goal with |- ?l = ?r => destruct r eqn:Hr end.
  - apply andb_prop in Hr as [Hr H3]. apply andb_prop in Hr as [H1 H2].
    apply Nat.ltb_lt in H1. apply existsb_exists.
    exists (Timers.mkTimer (h + k) (t0 + Z.of_nat k * 50) None (Raise k)).
    split.
    + apply List.filter_In. split; [|exact H2].
      apply List.in_map_iff. exists k. split; [reflexivity|].
      apply in_seq. lia.
    + cbn. rewrite Nat.eqb_refl. exact H3.
  - apply not_true_iff_false. intros Hex. apply existsb_exists in Hex as (x & Hx & Hc).
    apply List.filter_In in Hx as [Hx Hf].
    apply List.in_map_iff in Hx as (j & <- & Hj). apply in_seq in Hj.
    cbn in Hc, Hf. apply andb_prop in Hc as [Hjk Hd]. apply Nat.eqb_eq in Hjk. subst j.
    assert (Hk : (k <? n)%nat = true) by (apply Nat.ltb_lt; lia).
    rewrite Hk, Hf, Hd in Hr. discriminate.
Qed.

(** Leaving a card early leaves tags raised.  The pointer enters a card
    at rest at [t0] and leaves at [t1]: the timeouts of the tags are not
    cancelled, so at any later time [T] tag [k] is raised exactly when
    its timeout ran after the pointer left, [t1 < t0 + 50 * k <= T], and
    lowered otherwise, although the pointer is gone. *)
Theorem hover_leave_keeps_late_tags
  (c : card) (t t0 t1 T : Z) (k : nat) :
  t <= t0 -> t0 <= t1 -> t1 <= T -> (k < length (tags c))%nat ->
  let s := run_until T (mouseleave (run_until t1 (mouseenter (run_until t0 (resting t c))))) in
  tags (element s) !! k
  = Some (if (t1 <? t0 + Z.of_nat k * 50) && (t0 + Z.of_nat k * 50 <=? T)
          then raised else lowered) /\
  card_transform (element s) = js "translateY(0) rotateX(0)".
Proof.
  intros Ht0 Ht1 HT Hk. cbn zeta.
  destruct (run_until_outcome t0 (resting t c)) as (Hp0 & Hg0 & _ & _ & Hh0 & Hn0);
    [constructor | exact Ht0 |].
  cbv zeta in *. cbn [resting timers Timers.pending Timers.empty List.filter] in Hp0.
  set (s0 := run_until t0 (resting t c)) in *.
  assert (Htags0 : tags (element s0) = tags c).
  { apply list_eq. intros j. rewrite Hg0. unfold outcome. cbn.
    destruct (tags c !! j); reflexivity. }
  destruct (mouseenter_timers s0) as [Hp1 Hn1]. rewrite Hp0, Hn0, Htags0 in Hp1.
  rewrite Hn0 in Hn1. cbn [app] in Hp1.
  set (s1 := mouseenter s0) in *.
  assert (Hev1 : Forall (fun tm => Timers.every tm = None) (Timers.pending (timers s1))).
  { rewrite Hp1. apply List.Forall_forall. intros x Hx.
    apply List.in_map_iff in Hx as (j & <- & _). reflexivity. }
  destruct (run_until_outcome t1 s1 Hev1) as (Hp2 & Hg2 & _ & _ & _ & Hn2); [lia|].
  cbv zeta in *.
  set (s2 := run_until t1 s1) in *.
  set (s3 := mouseleave s2).
  assert (Hp3 : Timers.pending (timers s3) = Timers.pending (timers s2)) by reflexivity.
  assert (Hev3 : Forall (fun tm => Timers.every tm = None) (Timers.pending (timers s3))).
  { rewrite Hp3, Hp2. apply List.Forall_forall. intros x Hx.
    apply List.filter_In in Hx as [Hx _].
    rewrite List.Forall_forall in Hev1. apply Hev1, Hx. }
  destruct (run_until_outcome T s3 Hev3) as (_ & Hg4 & Hc4 & _);
    [change (Timers.now (timers s3)) with (Timers.now (timers s2)); lia|].
  cbv zeta in *. split; [|rewrite Hc4; reflexivity].
  rewrite Hg4. unfold outcome. rewrite Hp3, Hp2, Hp1.
  rewrite due_by_scheduled.
  assert (Hlen2 : length (tags (element s2)) = length (tags c)).
  { assert (Hl1 : tags (element s1) = tags c) by (subst s1; cbn; exact Htags0).
    rewrite <- Hl1. clear - Hg2.
    assert (H : forall j, is_Some (tags (element s2) !! j)
                          <-> is_Some (tags (element s1) !! j)).
    { intros j. rewrite Hg2. unfold outcome. rewrite fmap_is_Some. reflexivity. }
    destruct (Nat.lt_trichotomy (length (tags (element s2))) (length (tags (element s1))))
      as [Hlt|[Heq|Hgt]]; [|exact Heq|].
    - exfalso. assert (Hs : is_Some (tags (element s1) !! length (tags (element s2))))
        by (apply lookup_lt_is_Some; exact Hlt).
      apply H, lookup_lt_is_Some in Hs. lia.
    - exfalso. assert (Hs : is_Some (tags (element s2) !! length (tags (element s1))))
        by (apply lookup_lt_is_Some; exact Hgt).
      apply H, lookup_lt_is_Some in Hs. lia. }
  assert (Hk3 : tags (element s3) !! k = Some lowered).
  { subst s3. unfold mouseleave. cbn [element tags]. rewrite list_lookup_fmap.
    destruct (tags (element s2) !! k) eqn:Hl; [reflexivity|].
    apply lookup_ge_None in Hl. lia. }
  rewrite Hk3. cbn [fmap option_fmap option_map].
  assert (Hkn : (k <? length (tags c))%nat = true) by (apply Nat.ltb_lt; exact Hk).
  rewrite Hkn. cbn [andb].
  destruct (_ && _); reflexivity.
Qed.

End HoverFacts.

(** Three tags; the pointer enters at 0 and leaves at 60 ms.  The third
    tag, due at 100 ms, is raised from then on. *)
Lemma hover_leave_keeps_late_tags_witness :
  let c := Hover.mkCard [] None [Hover.lowered; Hover.lowered; Hover.lowered] in
  0 <= 0 /\ 0 <= 60 /\ 60 <= 500 /\ (2 < length (Hover.tags c))%nat /\
  Hover.tags (Hover.element
    (Hover.run_until 500 (Hover.mouseleave (Hover.run_until 60 (Hover.mouseenter
       (Hover.run_until 0 (Hover.resting 0 c))))))) !! 2%nat
  = Some Hover.raised.
Proof.
  intros c.
  assert (H1 : 0 <= 0) by lia. assert (H2 : 0 <= 60) by lia.
  assert (H3 : 60 <= 500) by lia.
  assert (H4 : (2 < length (Hover.tags c))%nat) by (cbn; lia).
  split; [exact H1|]. split; [exact H2|]. split; [exact H3|]. split; [exact H4|].
  exact (proj1 (hover_leave_keeps_late_tags c 0 0 60 500 2 H1 H2 H3 H4)).
Defined.

(** ** Glitch effect *)

Section GlitchFacts.
Import Glitch.

Lemma filter_twice {A} (f g h : A -> bool) (l : list A) :
  (forall x, h x = g x && f x) ->
  List.filter f (List.filter g l) = List.filter h l.
Proof.
  intros Hh. induction l as [|a l IH]; [reflexivity|].
  cbn [List.filter]. rewrite Hh. destruct (g a); cbn [andb List.filter].
  - rewrite IH. reflexivity.
  - exact IH.
Qed.

Lemma glitch_turns T fuel : forall s,
  Forall (fun tm => Timers.every tm = None) (Timers.pending (timers s)) ->
  (length (Timers.pending (timers s)) <= fuel)%nat ->
  let s' := turns fuel T s in
  Timers.pending (timers s')
  = List.filter (fun tm => T <? Timers.due tm) (Timers.pending (timers s)) /\
  clones s'
  = List.filter (fun c => negb (ended T c (Timers.pending (timers s)))) (clones s) /\
  glitching s' = glitching s && negb (any_ended T (Timers.pending (timers s))) /\
  styles s' = styles s /\ calls s' = calls s /\
  Timers.next_handle (timers s') = Timers.next_handle (timers s) /\
  (Timers.now (timers s) <= T -> Timers.now (timers s') <= T).
Proof.
  assert (Hnone : forall s, Forall (fun tm => T < Timers.due tm) (Timers.pending (timers s)) ->
            Timers.pending (timers s)
            = List.filter (fun tm => T <? Timers.due tm) (Timers.pending (timers s)) /\
            clones s
            = List.filter (fun c => negb (ended T c (Timers.pending (timers s)))) (clones s) /\
            glitching s = glitching s && negb (any_ended T (Timers.pending (timers s)))).
  { intros s Hall. rewrite List.Forall_forall in Hall. split; [|split].
    - symmetry. apply List.forallb_filter_id, forallb_forall.
      intros x Hx. apply Z.ltb_lt, Hall, Hx.
    - symmetry. apply List.forallb_filter_id, forallb_forall.
      intros c _. apply negb_true_iff, not_true_iff_false. intros Hex.
      apply existsb_exists in Hex as (x & Hx & Hc). destruct (Timers.callback x).
      apply andb_prop in Hc as [_ Hc]. apply Z.leb_le in Hc. specialize (Hall x Hx). lia.
    - assert (Hn : any_ended T (Timers.pending (timers s)) = false).
      { apply not_true_iff_false. intros Hex.
        apply existsb_exists in Hex as (x & Hx & Hc). apply Z.leb_le in Hc.
        specialize (Hall x Hx). lia. }
      rewrite Hn, andb_true_r. reflexivity. }
  induction fuel as [|fuel IH]; intros s Hev Hlen; cbn zeta.
  - destruct (Timers.pending (timers s)) eqn:Hp; [|cbn in Hlen; lia].
    cbn [turns]. destruct (Hnone s) as (H1 & H2 & H3); [rewrite Hp; constructor|].
    rewrite Hp in H1, H2, H3. rewrite Hp. auto 10.
  - cbn [turns]. unfold turn, Timers.take.
    destruct (Timers.extract (Timers.pending (timers s))) as [[u rest]|] eqn:He.
    + destruct (extract_spec _ _ _ He) as (Hin & Hle & _).
      rewrite List.Forall_forall in Hev.
      rewrite (Hev u) by (apply Hin; left; reflexivity).
      destruct (Z.leb_spec (Timers.due u) T) as [Hdue|Hdue].
      * destruct (Timers.callback u) as [n] eqn:Hcb.
        cbn [fire with_timers glitching position clones styles calls timers].
        match goal with |- context [turns fuel T ?s1] => set (s1' := s1) end.
        destruct (IH s1') as (H1 & H2 & H3 & H4 & H5 & H6 & H7).
        { subst s1'. cbn. apply List.Forall_forall. intros x Hx.
          apply Hev, Hin. right. exact Hx. }
        { subst s1'. cbn. pose proof (extract_length _ _ _ He). lia. }
        subst s1'. cbn in H1, H2, H3, H4, H5, H6, H7.
        split; [|split; [|split; [|split; [exact H4|split; [exact H5|split; [exact H6|]]]]]].
        -- rewrite H1. apply extract_filter with (t := u); [exact He|].
           apply Z.ltb_ge. exact Hdue.
        -- rewrite H2. apply filter_twice. intros c. unfold ended.
           rewrite (extract_existsb _ _ _ _ He), Hcb.
           destruct (Z.leb_spec (Timers.due u) T); [|lia]. rewrite andb_true_r.
           rewrite (Nat.eqb_sym n c). destruct (c =? n)%nat; reflexivity.
        -- rewrite H3. unfold any_ended. rewrite (extract_existsb _ _ _ _ He).
           destruct (Z.leb_spec (Timers.due u) T); [|lia].
           cbn. rewrite andb_false_r. reflexivity.
        -- intros Hnow. apply H7. lia.
      * destruct (Hnone s) as (H1 & H2 & H3).
        { apply List.Forall_forall. intros x Hx. apply Hin in Hx as [->|Hx]; [exact Hdue|].
          rewrite List.Forall_forall in Hle. specialize (Hle x Hx). lia. }
        auto 10.
    + apply extract_None in He. destruct (Hnone s) as (H1 & H2 & H3);
        [rewrite He; constructor|]. auto 10.
Qed.

Lemma glitch_run_until T s :
  Forall (fun tm => Timers.every tm = None) (Timers.pending (timers s)) ->
  Timers.now (timers s) <= T ->
  let s' := run_until T s in
  Timers.pending (timers s')
  = List.filter (fun tm => T <? Timers.due tm) (Timers.pending (timers s)) /\
  clones s'
  = List.filter (fun c => negb (ended T c (Timers.pending (timers s)))) (clones s) /\
  glitching s' = glitching s && negb (any_ended T (Timers.pending (timers s))) /\
  styles s' = styles s /\ calls s' = calls s /\
  Timers.next_handle (timers s') = Timers.next_handle (timers s) /\
  Timers.now (timers s') = T.
Proof.
  intros Hev Hnow. cbn zeta. unfold run_until.
  destruct (glitch_turns T _ s Hev (Nat.le_refl _)) as (H1 & H2 & H3 & H4 & H5 & H6 & H7).
  cbv zeta in *. cbn. specialize (H7 Hnow).
  split; [exact H1|]. split; [exact H2|]. split; [exact H3|]. split; [exact H4|].
  split; [exact H5|]. split; [exact H6 | lia].
Qed.

Lemma triggerGlitch_facts s :
  Timers.pending (timers (triggerGlitch s))
  = Timers.pending (timers s)
    ++ [Timers.mkTimer (Timers.next_handle (timers s)) (Timers.now (timers s) + 300)
                       None (EndGlitch (calls s))] /\
  glitching (triggerGlitch s) = true /\
  clones (triggerGlitch s) = clones s ++ [calls s; calls s] /\
  styles (triggerGlitch s) = (if (styles s =? 0)%nat then 1%nat else styles s) /\
  calls (triggerGlitch s) = S (calls s) /\
  Timers.now (timers (triggerGlitch s)) = Timers.now (timers s) /\
  Timers.next_handle (timers (triggerGlitch s)) = S (Timers.next_handle (timers s)).
Proof. unfold triggerGlitch. cbn. auto 10. Qed.

(** Overlapping glitches.  Two calls of [triggerGlitch] on the same
    element, the second [d] ms after the first with [d < 300]: until
    300 ms after the first call the element has the class and four
    clones; from then until 300 ms after the second call the class is
    gone, removed by the first timeout, while the two clones of the
    second call are still there; after that nothing is left.  The
    keyframes are added once. *)
Theorem glitch_overlap (t t1 d T : Z) :
  t <= t1 -> 0 <= d < 300 -> t1 + d <= T ->
  let s := run_until T (triggerGlitch (run_until (t1 + d)
                          (triggerGlitch (run_until t1 (still t))))) in
  styles s = 1%nat /\
  (T < t1 + 300 -> glitching s = true /\ clones s = [0; 0; 1; 1]%nat) /\
  (t1 + 300 <= T < t1 + d + 300 -> glitching s = false /\ clones s = [1; 1]%nat) /\
  (t1 + d + 300 <= T -> glitching s = false /\ clones s = []).
Proof.
  intros Ht1 Hd HT. cbn zeta.
  destruct (glitch_run_until t1 (still t)) as (Hp0 & Hc0 & Hg0 & Hs0 & Hk0 & Hh0 & Hn0);
    [constructor | exact Ht1 |].
  cbv zeta in *.
  change (Timers.pending (timers (still t))) with (@nil (Timers.timer callback))
    in Hp0, Hc0, Hg0.
  change (clones (still t)) with (@nil nat) in Hc0.
  change (styles (still t)) with 0%nat in Hs0.
  change (calls (still t)) with 0%nat in Hk0.
  change (Timers.next_handle (timers (still t))) with 1%nat in Hh0.
  cbn [List.filter] in Hp0, Hc0.
  remember (run_until t1 (still t)) as s0 eqn:E0. clear E0 Hg0.
  destruct (triggerGlitch_facts s0) as (Hp1 & Hg1 & Hc1 & Hs1 & Hk1 & Hn1 & Hh1).
  rewrite Hp0, Hh0, Hn0, Hk0 in Hp1. rewrite Hc0, Hk0 in Hc1. rewrite Hs0 in Hs1.
  rewrite Hk0 in Hk1. rewrite Hn0 in Hn1. rewrite Hh0 in Hh1.
  cbn [app Nat.eqb] in Hp1, Hc1, Hs1.
  remember (triggerGlitch s0) as s1 eqn:E1. clear E1 Hp0 Hc0 Hs0 Hk0 Hh0 Hn0 s0.
  destruct (glitch_run_until (t1 + d) s1) as (Hp2 & Hc2 & Hg2 & Hs2 & Hk2 & Hh2 & Hn2);
    [rewrite Hp1; repeat constructor | lia |].
  cbv zeta in *. rewrite Hp1 in Hp2, Hc2, Hg2. rewrite Hc1 in Hc2. rewrite Hg1 in Hg2.
  rewrite Hs1 in Hs2. rewrite Hk1 in Hk2. rewrite Hh1 in Hh2.
  cbn [List.filter Timers.due ended any_ended existsb Timers.callback Nat.eqb andb orb]
    in Hp2, Hc2, Hg2.
  destruct (Z.ltb_spec (t1 + d) (t1 + 300)) as [_|Hbad]; [|lia].
  destruct (Z.leb_spec (t1 + 300) (t1 + d)) as [Hbad|_]; [lia|].
  cbn [negb andb orb List.filter] in Hc2, Hg2.
  remember (run_until (t1 + d) s1) as s2 eqn:E2.
  clear E2 Hp1 Hg1 Hc1 Hs1 Hk1 Hn1 Hh1 s1.
  destruct (triggerGlitch_facts s2) as (Hp3 & Hg3 & Hc3 & Hs3 & Hk3 & Hn3 & Hh3).
  rewrite Hp2, Hh2, Hn2, Hk2 in Hp3. rewrite Hc2, Hk2 in Hc3. rewrite Hs2 in Hs3.
  rewrite Hn2 in Hn3.
  cbn [app Nat.eqb] in Hp3, Hc3, Hs3.
  remember (triggerGlitch s2) as s3 eqn:E3.
  clear E3 Hp2 Hc2 Hg2 Hs2 Hk2 Hh2 Hn2 Hk3 Hh3 s2.
  destruct (glitch_run_until T s3) as (_ & Hc4 & Hg4 & Hs4 & _);
    [rewrite Hp3; repeat constructor | lia |].
  cbv zeta in *. rewrite Hp3 in Hc4, Hg4. rewrite Hc3 in Hc4. rewrite Hg3 in Hg4.
  cbn [List.filter Timers.due ended any_ended existsb Timers.callback Nat.eqb andb orb]
    in Hc4, Hg4.
  rewrite Hs4, Hs3. split; [reflexivity|].
  rewrite Hc4, Hg4.
  destruct (Z.leb_spec (t1 + 300) T), (Z.leb_spec (t1 + d + 300) T);
    cbn [negb andb orb List.filter];
    (split; [intros; try lia; auto|split; intros; try lia; auto]).
Qed.

End GlitchFacts.

(** Calls at 0 and 100 ms: at 350 ms the class is gone and two clones
    are left. *)
Lemma glitch_overlap_witness :
  0 <= 0 /\ 0 <= 100 < 300 /\ 0 + 100 <= 350 /\
  Glitch.glitching
    (Glitch.run_until 350 (Glitch.triggerGlitch (Glitch.run_until (0 + 100)
       (Glitch.triggerGlitch (Glitch.run_until 0 (Glitch.still 0)))))) = false /\
  Glitch.clones
    (Glitch.run_until 350 (Glitch.triggerGlitch (Glitch.run_until (0 + 100)
       (Glitch.triggerGlitch (Glitch.run_until 0 (Glitch.still 0)))))) = [1; 1]%nat.
Proof.
  assert (H1 : 0 <= 0) by lia. assert (H2 : 0 <= 100 < 300) by lia.
  assert (H3 : 0 + 100 <= 350) by lia.
  split; [exact H1|]. split; [exact H2|]. split; [exact H3|].
  destruct (glitch_overlap 0 0 100 350 H1 H2 H3) as (_ & _ & Hmid & _).
  apply Hmid. lia.
Defined.

(** ** Ripples and mouse particles *)

Section TransientFacts.
Import Transient.
Context {A : Type}.
Variable life : Z.
Hypothesis life_positive : 0 < life.

Lemma transient_turns T fuel : forall s : state A,
  Forall (fun tm => Timers.every tm = None) (Timers.pending (timers s)) ->
  (length (Timers.pending (timers s)) <= fuel)%nat ->
  let s' := turns fuel T s in
  Timers.pending (timers s')
  = List.filter (fun tm => T <? Timers.due tm) (Timers.pending (timers s)) /\
  (forall i, attached s' !! i
             = (fun e => (fst e, snd e && negb (removed T i (Timers.pending (timers s)))))
                 <$> attached s !! i) /\
  styles s' = styles s /\
  Timers.next_handle (timers s') = Timers.next_handle (timers s) /\
  (Timers.now (timers s) <= T -> Timers.now (timers s') <= T).
Proof.
  assert (Hnone : forall s : state A,
            Forall (fun tm => T < Timers.due tm) (Timers.pending (timers s)) ->
            Timers.pending (timers s)
            = List.filter (fun tm => T <? Timers.due tm) (Timers.pending (timers s)) /\
            (forall i, attached s !! i
                       = (fun e => (fst e, snd e
                                           && negb (removed T i (Timers.pending (timers s)))))
                           <$> attached s !! i)).
  { intros s Hall. rewrite List.Forall_forall in Hall. split.
    - symmetry. apply List.forallb_filter_id, forallb_forall.
      intros x Hx. apply Z.ltb_lt, Hall, Hx.
    - intros i.
      assert (Hn : removed T i (Timers.pending (timers s)) = false).
      { apply not_true_iff_false. intros Hex.
        apply existsb_exists in Hex as (x & Hx & Hc). destruct (Timers.callback x).
        apply andb_prop in Hc as [_ Hc]. apply Z.leb_le in Hc.
        specialize (Hall x Hx). lia. }
      rewrite Hn. destruct (attached s !! i) as [[a b]|]; [|reflexivity].
      cbn. rewrite andb_true_r. reflexivity. }
  induction fuel as [|fuel IH]; intros s Hev Hlen; cbn zeta.
  - destruct (Timers.pending (timers s)) eqn:Hp; [|cbn in Hlen; lia].
    cbn [turns]. destruct (Hnone s) as (H1 & H2); [rewrite Hp; constructor|].
    rewrite Hp in H1, H2. rewrite Hp. auto.
  - cbn [turns]. unfold turn, Timers.take.
    destruct (Timers.extract (Timers.pending (timers s))) as [[u rest]|] eqn:He.
    + destruct (extract_spec _ _ _ He) as (Hin & Hle & _).
      rewrite List.Forall_forall in Hev.
      rewrite (Hev u) by (apply Hin; left; reflexivity).
      destruct (Z.leb_spec (Timers.due u) T) as [Hdue|Hdue].
      * destruct (Timers.callback u) as [n] eqn:Hcb.
        cbn [fire attached styles timers].
        match goal with |- context [turns fuel T ?s1] => set (s1' := s1) end.
        destruct (IH s1') as (H1 & H2 & H3 & H4 & H5).
        { subst s1'. cbn. apply List.Forall_forall. intros x Hx.
          apply Hev, Hin. right. exact Hx. }
        { subst s1'. cbn. pose proof (extract_length _ _ _ He). lia. }
        subst s1'. cbn in H1, H2, H3, H4, H5.
        split; [|split; [|split; [exact H3|split; [exact H4|]]]].
        -- rewrite H1. apply extract_filter with (t := u); [exact He|].
           apply Z.ltb_ge. exact Hdue.
        -- intros i. rewrite H2. unfold removed.
           rewrite (extract_existsb _ _ _ _ He), Hcb.
           destruct (Z.leb_spec (Timers.due u) T); [|lia]. rewrite andb_true_r.
           destruct (Nat.eqb_spec n i) as [->|Hne].
           ++ rewrite list_lookup_alter_eq.
              destruct (attached s !! i) as [[a b]|]; [|reflexivity]. cbn.
              rewrite andb_false_r. reflexivity.
           ++ rewrite list_lookup_alter_ne by exact Hne. reflexivity.
        -- intros Hnow. apply H5. lia.
      * destruct (Hnone s) as (H1 & H2).
        { apply List.Forall_forall. intros x Hx. apply Hin in Hx as [->|Hx]; [exact Hdue|].
          rewrite List.Forall_forall in Hle. specialize (Hle x Hx). lia. }
        auto.
    + apply extract_None in He. destruct (Hnone s) as (H1 & H2);
        [rewrite He; constructor|]. auto.
Qed.

Lemma scheduled_every i (times : list (Z * A)) :
  Forall (fun tm => Timers.every tm = None) (scheduled life i times).
Proof.
  revert i. induction times as [|t r IH]; intros i; constructor; [reflexivity | apply IH].
Qed.

Lemma scheduled_app (times : list (Z * A)) : forall i e,
  scheduled life i (times ++ [e])
  = scheduled life i times
    ++ [Timers.mkTimer (S (i + length times)) (fst e + life) None
                       (Remove (i + length times))].
Proof.
  induction times as [|u r IH]; intros i e; cbn [scheduled app length].
  - rewrite Nat.add_0_r. reflexivity.
  - rewrite IH. replace (S i + length r)%nat with (i + S (length r))%nat by lia.
    reflexivity.
Qed.

Lemma scheduled_lookup (times : list (Z * A)) : forall i j,
  scheduled life i times !! j
  = (fun e => Timers.mkTimer (S (i + j)) (fst e + life) None (Remove (i + j)))
      <$> times !! j.
Proof.
  induction times as [|u r IH]; intros i j; [reflexivity|].
  destruct j as [|j]; cbn [scheduled].
  - cbn. rewrite Nat.add_0_r. reflexivity.
  - change ((?x :: ?l) !! S j) with (l !! j). rewrite IH.
    replace (S i + j)%nat with (i + S j)%nat by lia. reflexivity.
Qed.

Lemma removed_scheduled T t i (times : list (Z * A)) :
  t <= T ->
  removed T i (List.filter (fun tm => t <? Timers.due tm) (scheduled life 0 times))
  = match times !! i with
    | Some e => (t <? fst e + life) && (fst e + life <=? T)
    | None => false
    end.
Proof.
  intros HtT. unfold removed.
  match goal with |- ?l = ?r => destruct r eqn:Hr end.
  - destruct (times !! i) as [u|] eqn:Hu; [|discriminate].
    apply andb_prop in Hr as [H1 H2]. apply existsb_exists.
    exists (Timers.mkTimer (S i) (fst u + life) None (Remove i)). split.
    + apply List.filter_In. split; [|exact H1].
      apply list_elem_of_In. apply list_elem_of_lookup. exists i.
      rewrite scheduled_lookup, Hu. reflexivity.
    + cbn. rewrite Nat.eqb_refl. exact H2.
  - apply not_true_iff_false. intros Hex. apply existsb_exists in Hex as (x & Hx & Hc).
    apply List.filter_In in Hx as [Hx Hf].
    apply list_elem_of_In, list_elem_of_lookup in Hx as (j & Hj).
    rewrite scheduled_lookup in Hj.
    destruct (times !! j) as [u|] eqn:Hu; [|discriminate]. cbn in Hj.
    injection Hj as <-. cbn in Hc, Hf.
    apply andb_prop in Hc as [Hji Hd]. apply Nat.eqb_eq in Hji. subst j.
    rewrite Hu, Hf, Hd in Hr. discriminate.
Qed.

Lemma run_at_time t T times (s : state A) :
  t <= T -> at_time life t times s -> at_time life T times (run_until T s).
Proof.
  intros HtT (Hnow & Hnh & Hp & Hat & Hst).
  assert (Hev : Forall (fun tm => Timers.every tm = None) (Timers.pending (timers s))).
  { rewrite Hp. apply List.Forall_forall. intros x Hx.
    apply List.filter_In in Hx as [Hx _].
    pose proof (scheduled_every 0 times) as Hall. rewrite List.Forall_forall in Hall.
    apply Hall, Hx. }
  destruct (transient_turns T _ s Hev (Nat.le_refl _)) as (H1 & H2 & H3 & H4 & H5).
  cbv zeta in *. unfold run_until, at_time. cbn.
  set (s' := turns _ T s) in *.
  split; [specialize (H5 ltac:(lia)); lia|]. split; [rewrite H4; exact Hnh|].
  split; [|split; [|rewrite H3; exact Hst]].
  - rewrite H1, Hp. apply filter_twice. intros x.
    destruct (Z.ltb_spec T (Timers.due x)), (Z.ltb_spec t (Timers.due x));
      try reflexivity; lia.
  - apply list_eq. intros i. rewrite H2, Hat, Hp, !list_lookup_fmap.
    rewrite (removed_scheduled T t i times HtT).
    destruct (times !! i) as [[u a]|]; [|reflexivity]. cbn. do 2 f_equal.
    destruct (Z.ltb_spec t (u + life)), (Z.leb_spec (u + life) T), (Z.ltb_spec T (u + life));
      try reflexivity; lia.
Qed.

Lemma create_at_time t times a (s : state A) :
  at_time life t times s -> at_time life t (times ++ [(t, a)]) (create life a s).
Proof.
  intros (Hnow & Hnh & Hp & Hat & Hst). unfold at_time, create. cbn.
  rewrite Hnow, Hnh, Hp, Hat, Hst, length_app, List.map_app, scheduled_app,
    List.filter_app, List.length_map.
  cbn [length List.map List.filter Timers.due Nat.add fst snd].
  rewrite Z.max_r by lia.
  destruct (Z.ltb_spec t (t + life)) as [_|Hbad]; [|lia].
  split; [reflexivity|]. split; [lia|]. split; [reflexivity|]. split; [reflexivity|].
  destruct (length times); reflexivity.
Qed.

Lemma play_at_time times : forall t made (s : state A),
  ascending t times -> at_time life t made s ->
  at_time life (List.last (List.map fst times) t) (made ++ times) (play life times s).
Proof.
  induction times as [|[u a] r IH]; intros t made s Hasc Hat.
  - cbn. rewrite app_nil_r. exact Hat.
  - destruct Hasc as [Htu Hasc]. cbn [play fst snd] in *.
    pose proof (create_at_time u made a _ (run_at_time t u made s Htu Hat)) as Hat'.
    specialize (IH u (made ++ [(u, a)]) _ Hasc Hat').
    rewrite <- app_assoc in IH. cbn [List.map fst]. rewrite last_cons_default. exact IH.
Qed.

(** Every element lives for its time and no longer.  After elements
    were made at any times, the element made at [u] is in the page at a
    later time [T] exactly when [T < u + life]; each element still there
    has its one pending timeout; and the keyframes were added with the
    first element and never again. *)
Theorem transient_elements_live_their_time
  (t0 : Z) (made : list (Z * A)) (T : Z) :
  ascending t0 made -> List.last (List.map fst made) t0 <= T ->
  let s := run_until T (play life made (fresh t0)) in
  attached s = List.map (fun e => (snd e, T <? fst e + life)) made /\
  length (Timers.pending (timers s))
  = length (List.filter (fun e => T <? fst e + life) made) /\
  styles s = (if (length made =? 0)%nat then 0%nat else 1%nat).
Proof.
  intros Hasc HT. cbn zeta.
  assert (H0 : at_time life t0 (@nil (Z * A)) (fresh t0)) by (repeat split).
  pose proof (play_at_time made t0 [] (fresh t0) Hasc H0) as H1.
  cbn [app] in H1.
  destruct (run_at_time _ T _ _ HT H1) as (_ & _ & Hp & Hat & Hst).
  split; [exact Hat|]. split; [|exact Hst].
  rewrite Hp. generalize 0%nat. clear.
  induction made as [|u r IH]; intros i; [reflexivity|].
  cbn [scheduled List.filter Timers.due].
  destruct (T <? fst u + life); cbn [length]; rewrite IH; reflexivity.
Qed.

End TransientFacts.

(** Ripples of clicks at 0, 100 and 900 ms, seen at 1000 ms: the first
    two are gone, the third is there. *)
Lemma transient_elements_live_their_time_witness :
  let made := [(0, js "a"); (100, js "b"); (900, js "c")] in
  0 < 600 /\ Transient.ascending 0 made /\ List.last (List.map fst made) 0 <= 1000 /\
  Transient.attached (Transient.run_until 1000 (Transient.play 600 made (Transient.fresh 0)))
  = [(js "a", false); (js "b", false); (js "c", true)].
Proof.
  intros made.
  assert (H0 : 0 < 600) by lia.
  assert (H1 : Transient.ascending 0 made) by (cbn; lia).
  assert (H2 : List.last (List.map fst made) 0 <= 1000) by (cbn; lia).
  split; [exact H0|]. split; [exact H1|]. split; [exact H2|].
  exact (proj1 (transient_elements_live_their_time 600 H0 0 made 1000 H1 H2)).
Defined.

(** ** One-shot observers over any run of batches *)

Section ObserverRuns.
Import Observer ObserverBatches.
Context {E : Type} (effect : E -> E).

(** A crossing reported alone is a batch of one entry. *)
Lemma crossing_report (s : state E) (e : entry) :
  crossing effect s e = report effect s [e].
Proof.
  unfold crossing, report, reported. rewrite filter_cons, filter_nil.
  destruct (decide (target e ∈ observed s)) as [Hin|Hout].
  - rewrite bool_decide_eq_true_2 by exact Hin. reflexivity.
  - rewrite bool_decide_eq_false_2 by exact Hout. reflexivity.
Qed.

Lemma hits_cons (el : nat) (e : entry) (l : list entry) :
  hits el (e :: l)
  = ((if decide (target e = el /\ isIntersecting e = true) then 1 else 0)
     + hits el l)%nat.
Proof.
  unfold hits. rewrite filter_cons.
  destruct (decide (target e = el /\ isIntersecting e = true)); reflexivity.
Qed.

Lemma fmap_iter_succ (n : nat) (x : option E) :
  Nat.iter n effect <$> (effect <$> x) = Nat.iter (S n) effect <$> x.
Proof.
  destruct x as [x|]; [|reflexivity]. cbn [fmap option_fmap option_map].
  f_equal. symmetry. apply Nat.iter_succ_r.
Qed.

(** The callback on a list of entries, read at one element. *)
Lemma callback_at (l : list entry) : forall (s : state E) (el : nat),
  invocations el (callback effect l s) = (invocations el s + hits el l)%nat /\
  (el ∈ observed (callback effect l s) <-> el ∈ observed s /\ hits el l = 0%nat) /\
  elements (callback effect l s) !! el
  = Nat.iter (hits el l) effect <$> elements s !! el.
Proof.
  induction l as [|e l IH]; intros s el.
  - cbn. split; [lia|]. split; [tauto|].
    destruct (elements s !! el); reflexivity.
  - change (callback effect (e :: l) s) with (callback effect l (on_entry effect s e)).
    destruct (IH (on_entry effect s e) el) as (I1 & I2 & I3).
    rewrite I1, I2, I3, hits_cons. clear I1 I2 I3 IH.
    unfold on_entry. destruct (isIntersecting e) eqn:Hi.
    + destruct (decide (target e = el /\ true = true)) as [[Ht _]|Hn].
      * subst el. cbn [observed elements unobserve].
        split; [|split].
        -- unfold invocations at 1. cbn [invoked unobserve].
           rewrite invocations_app. rewrite filter_cons_True, filter_nil by reflexivity.
           cbn [length]. lia.
        -- rewrite elem_of_difference, elem_of_singleton. split.
           ++ intros [[_ Hbad] _]. exfalso. apply Hbad. reflexivity.
           ++ intros [_ Hbad]. cbn in Hbad. discriminate.
        -- rewrite lookup_alter_eq. apply fmap_iter_succ.
      * assert (Hne : target e <> el) by (intros Heq; apply Hn; auto).
        cbn [observed elements unobserve].
        split; [|split].
        -- unfold invocations at 1. cbn [invoked unobserve].
           rewrite invocations_app. rewrite filter_cons_False, filter_nil by exact Hne.
           cbn [length]. lia.
        -- rewrite elem_of_difference, elem_of_singleton. cbn [Nat.add].
           split; [tauto|]. intros [Ho Hh]. split; [|exact Hh].
           split; [exact Ho | congruence].
        -- rewrite lookup_alter_ne by exact Hne. reflexivity.
    + destruct (decide (target e = el /\ false = true)) as [[_ Hbad]|_];
        [discriminate|]. cbn [Nat.add]. auto.
Qed.

Lemma hits_reported (s : state E) (el : nat) (b : list entry) :
  hits el (reported s b) = if decide (el ∈ observed s) then hits el b else 0%nat.
Proof.
  unfold reported. induction b as [|e b IH].
  - destruct (decide (el ∈ observed s)); reflexivity.
  - rewrite filter_cons. destruct (decide (target e ∈ observed s)) as [Ho|Ho].
    + rewrite !hits_cons, IH.
      destruct (decide (el ∈ observed s)) as [_|Hn]; [reflexivity|].
      destruct (decide (target e = el /\ isIntersecting e = true)) as [[Ht _]|_];
        [|reflexivity].
      subst el. contradiction.
    + rewrite IH, hits_cons.
      destruct (decide (el ∈ observed s)) as [Hin|_]; [|reflexivity].
      destruct (decide (target e = el /\ isIntersecting e = true)) as [[Ht _]|_];
        [|reflexivity].
      subst el. contradiction.
Qed.

(** One call of the callback, read at one element. *)
Lemma report_at (s : state E) (b : list entry) (el : nat) :
  let n := if decide (el ∈ observed s) then hits el b else 0%nat in
  invocations el (report effect s b) = (invocations el s + n)%nat /\
  (el ∈ observed (report effect s b) <-> el ∈ observed s /\ hits el b = 0%nat) /\
  elements (report effect s b) !! el = Nat.iter n effect <$> elements s !! el.
Proof.
  cbn zeta. unfold report.
  destruct (callback_at (reported s b) s el) as (H1 & H2 & H3).
  rewrite H1, H2, H3, hits_reported.
  split; [reflexivity|]. split; [|reflexivity].
  destruct (decide (el ∈ observed s)); tauto.
Qed.

(** Any number of calls, read at one element. *)
Lemma reports_at (bs : list (list entry)) : forall (s : state E) (el : nat),
  let n := if decide (el ∈ observed s) then first_hits el bs else 0%nat in
  invocations el (reports effect bs s) = (invocations el s + n)%nat /\
  (el ∈ observed (reports effect bs s)
   <-> el ∈ observed s /\ first_hits el bs = 0%nat) /\
  elements (reports effect bs s) !! el = Nat.iter n effect <$> elements s !! el.
Proof.
  induction bs as [|b bs IH]; intros s el; cbn zeta.
  - cbn. split; [destruct (decide _); lia|]. split; [tauto|].
    destruct (decide _), (elements s !! el); reflexivity.
  - change (reports effect (b :: bs) s) with (reports effect bs (report effect s b)).
    destruct (IH (report effect s b) el) as (I1 & I2 & I3).
    destruct (report_at s b el) as (R1 & R2 & R3).
    rewrite I1, I2, I3, R1, R3. clear I1 I2 I3 R1 R3 IH.
    cbn [first_hits].
    destruct (decide (el ∈ observed s)) as [Ho|Ho].
    + destruct (hits el b) as [|k] eqn:Hh.
      * assert (Hin : el ∈ observed (report effect s b)) by (apply R2; auto).
        destruct (decide (el ∈ observed (report effect s b))) as [_|Hbad];
          [|contradiction].
        split; [lia|]. split; [tauto|].
        destruct (elements s !! el); reflexivity.
      * assert (Hout : el ∉ observed (report effect s b)).
        { intros Hin. apply R2 in Hin as [_ Hbad]. discriminate. }
        destruct (decide (el ∈ observed (report effect s b))) as [Hbad|_];
          [contradiction|].
        split; [lia|]. split.
        -- split; [intros [Hbad _]; contradiction | intros [_ Hbad]; discriminate].
        -- destruct (elements s !! el); reflexivity.
    + assert (Hout : el ∉ observed (report effect s b)).
      { intros Hin. apply R2 in Hin as [Hbad _]. contradiction. }
      destruct (decide (el ∈ observed (report effect s b))) as [Hbad|_];
        [contradiction|].
      split; [lia|]. split; [tauto|].
      destruct (elements s !! el); reflexivity.
Qed.

Lemma first_hits_le (el : nat) (bs : list (list entry)) :
  Forall (fun b => forall x, (hits x b <= 1)%nat) bs -> (first_hits el bs <= 1)%nat.
Proof.
  induction 1 as [|b bs Hb _ IH]; cbn [first_hits]; [lia|].
  specialize (Hb el). destruct (hits el b); [exact IH | lia].
Qed.

Lemma NoDup_counted (l : list nat) :
  (forall x, (length (filter (fun y => y = x) l) <= 1)%nat) -> NoDup l.
Proof.
  induction l as [|a l IH]; intros H; [constructor|].
  constructor.
  - intros Hin. specialize (H a). rewrite filter_cons_True in H by reflexivity.
    assert (Hin' : a ∈ filter (fun y => y = a) l)
      by (apply list_elem_of_filter; auto).
    destruct (filter (fun y => y = a) l); [inversion Hin' | cbn in H; lia].
  - apply IH. intros x. specialize (H x). rewrite filter_cons in H.
    destruct (decide (a = x)); cbn in H; lia.
Qed.

(** A one-shot observer acts on an element in one call of its callback
    only.  Over any batches reported after [setup]: the callback acts on
    an element once for each intersecting entry of it in the first batch
    that has one, as [unobserve] leaves the rest of that batch in place,
    and never in a later batch; the elements still observed are those
    never acted on; an element is what that many applications of the
    effect made of the original (a lazy image loaded twice is as loaded
    once; a counter animated twice runs two timers), and every other
    element is as it was.  When no batch holds two intersecting entries
    of one target, no element is acted on twice. *)
Theorem one_shot_observer_acts_in_one_batch
  (els : gmap nat E) (batches : list (list entry)) :
  let s := reports effect batches (setup els) in
  (forall el, invocations el s
              = if decide (el ∈ dom els) then first_hits el batches else 0%nat) /\
  (forall el, el ∈ observed s <-> el ∈ dom els /\ invocations el s = 0%nat) /\
  (forall el, elements s !! el = Nat.iter (invocations el s) effect <$> els !! el) /\
  (Forall (fun b => forall el, (hits el b <= 1)%nat) batches -> NoDup (invoked s)).
Proof.
  cbn zeta.
  assert (Hat : forall el,
    invocations el (reports effect batches (setup els))
    = (if decide (el ∈ dom els) then first_hits el batches else 0%nat) /\
    (el ∈ observed (reports effect batches (setup els))
     <-> el ∈ dom els /\ first_hits el batches = 0%nat) /\
    elements (reports effect batches (setup els)) !! el
    = Nat.iter (if decide (el ∈ dom els) then first_hits el batches else 0%nat)
               effect <$> els !! el).
  { intros el. destruct (reports_at batches (setup els) el) as (H1 & H2 & H3).
    cbn [observed elements setup] in H1, H2, H3.
    rewrite H1, H2, H3. unfold invocations. cbn [invoked setup].
    rewrite filter_nil. cbn [length Nat.add]. auto. }
  split; [intros el; apply Hat|]. split; [|split].
  - intros el. destruct (Hat el) as (H1 & H2 & _). rewrite H1, H2.
    destruct (decide (el ∈ dom els)); tauto.
  - intros el. destruct (Hat el) as (H1 & _ & H3). rewrite H1. exact H3.
  - intros Hone. apply NoDup_counted. intros x.
    change (invocations x (reports effect batches (setup els)) <= 1)%nat.
    destruct (Hat x) as (H1 & _). rewrite H1.
    destruct (decide (x ∈ dom els)); [apply first_hits_le; exact Hone | lia].
Qed.

End ObserverRuns.

(** An image whose batch holds an entry into view, one out of it and one
    into it again is acted on twice in that call, and in no later one. *)
Example observer_batch_same_target_twice :
  let img := Observer.mkImage (js "") (js "a.png") true in
  let batch := [Observer.mkEntry 7 true; Observer.mkEntry 7 false;
                Observer.mkEntry 7 true] in
  let s := ObserverBatches.reports Observer.load_image [batch; batch]
             (Observer.setup {[ 7%nat := img ]}) in
  Observer.invoked s = [7%nat; 7%nat] /\
  Observer.elements s !! 7%nat = Some (Observer.load_image img).
Proof. vm_compute. split; reflexivity. Qed.
